(** * zk-chains: the Eth2 sync-committee update circuit and its host lifecycle

    A shallow embedding of the constraint system of [Eth2ScUpdateCircuit]
    (package [circuit]), of the host helpers of package [types] and of the
    relayer and setup entry points, together with the properties the
    specification states about them.

    Conventions.
    - A byte ([uints.U8], Go [byte]) is a [Z] in [0, 256); byte strings are
      [list Z].
    - A circuit variable ([frontend.Variable]) is the [Z] assigned to it.
    - A circuit method that adds assertions is a function into [option]:
      [None] means that the witness violates one of the constraints the
      method lays down, [Some v] that all of them hold and the method's
      result carries the value [v].
    - Gates of the proving library (SHA-256, emulated field and curve
      arithmetic) are modelled by the functions they implement. *)

From Stdlib Require Import ZArith List Lia Bool String Ascii.
From stdpp Require Import gmap strings pretty.
Import ListNotations.

Local Open Scope Z_scope.

(* ===================================================================== *)
(** ** Bytes and fixed-width encodings *)
(* ===================================================================== *)

Definition is_byte (b : Z) : Prop := 0 <= b < 256.

(** Big-endian encoding of [v] on [n] bytes ([I2OSP]); the value is
    truncated to its [n] low-order bytes. *)
Fixpoint be_bytes (n : nat) (v : Z) : list Z :=
  match n with
  | O => []
  | S k => be_bytes k (v / 256) ++ [v mod 256]
  end.

(** Little-endian encoding of [v] on [n] bytes. *)
Fixpoint le_bytes (n : nat) (v : Z) : list Z :=
  match n with
  | O => []
  | S k => (v mod 256) :: le_bytes k (v / 256)
  end.

(** Big-endian value of a byte string ([OS2IP]). *)
Definition OS2IP (b : list Z) : Z := fold_left (fun acc x => acc * 256 + x) b 0.

(** [chunks fuel n l] cuts [l] into consecutive pieces of [n] elements. *)
Fixpoint chunks {A} (fuel : nat) (n : nat) (l : list A) : list (list A) :=
  match fuel with
  | O => []
  | S f =>
      match l with
      | [] => []
      | _ => firstn n l :: chunks f n (skipn n l)
      end
  end.

(* ===================================================================== *)
(** ** SHA-256 (FIPS 180-4), the function behind [sha2.New(api)] in the
       circuit and [crypto/sha256] on the host *)
(* ===================================================================== *)

Module SHA256.

(** Truncation to a 32-bit word. *)
Definition w32 (x : Z) : Z := Z.land x 0xffffffff.
Definition add32 (x y : Z) : Z := w32 (x + y).
Definition not32 (x : Z) : Z := Z.lxor x 0xffffffff.
Definition rotr (n x : Z) : Z := Z.lor (Z.shiftr x n) (w32 (Z.shiftl x (32 - n))).
Definition shr (n x : Z) : Z := Z.shiftr x n.

Definition Ch (x y z : Z) : Z := Z.lxor (Z.land x y) (Z.land (not32 x) z).
Definition Maj (x y z : Z) : Z :=
  Z.lxor (Z.lxor (Z.land x y) (Z.land x z)) (Z.land y z).
Definition BSig0 (x : Z) : Z := Z.lxor (Z.lxor (rotr 2 x) (rotr 13 x)) (rotr 22 x).
Definition BSig1 (x : Z) : Z := Z.lxor (Z.lxor (rotr 6 x) (rotr 11 x)) (rotr 25 x).
Definition SSig0 (x : Z) : Z := Z.lxor (Z.lxor (rotr 7 x) (rotr 18 x)) (shr 3 x).
Definition SSig1 (x : Z) : Z := Z.lxor (Z.lxor (rotr 17 x) (rotr 19 x)) (shr 10 x).

(** The first [n] primes among [2 .. bound]. *)
Definition is_prime (n : Z) : bool :=
  forallb (fun d => negb (n mod Z.of_nat d =? 0)) (seq 2 (Z.to_nat n - 2)).

Definition primes (n bound : nat) : list Z :=
  firstn n (List.filter is_prime (map Z.of_nat (seq 2 bound))).

(** Integer cube root, found bit by bit from [2^bits] down. *)
Fixpoint icbrt_from (bits : nat) (n r : Z) : Z :=
  match bits with
  | O => r
  | S b =>
      let r' := r + 2 ^ Z.of_nat b in
      icbrt_from b n (if r' * r' * r' <=? n then r' else r)
  end.

Definition icbrt (n : Z) : Z := icbrt_from 40 n 0.

(** The round constants: the first 32 bits of the fractional parts of the
    cube roots of the first 64 primes. *)
Definition K : list Z :=
  Eval vm_compute in map (fun q => w32 (icbrt (q * 2 ^ 96))) (primes 64 320).

(** The eight working variables / the intermediate hash value. *)
Record state := St { sa : Z; sb : Z; sc : Z; sd : Z; se : Z; sf : Z; sg : Z; sh : Z }.

(** The initial hash value: the first 32 bits of the fractional parts of
    the square roots of the first 8 primes. *)
Definition H0 : state :=
  Eval vm_compute in
    match map (fun q => w32 (Z.sqrt (q * 2 ^ 64))) (primes 8 20) with
    | [a; b; c; d; e; f; g; h] => St a b c d e f g h
    | _ => St 0 0 0 0 0 0 0 0
    end.

(** Message schedule, most recent word first: the head is [W_(t-1)]. *)
Fixpoint schedule (n : nat) (recent : list Z) : list Z :=
  match n with
  | O => recent
  | S k =>
      let wt := w32 (SSig1 (nth 1 recent 0) + nth 6 recent 0
                     + SSig0 (nth 14 recent 0) + nth 15 recent 0) in
      schedule k (wt :: recent)
  end.

Definition words_of_block (blk : list Z) : list Z :=
  map OS2IP (chunks 16 4 blk).

Definition W (blk : list Z) : list Z :=
  rev (schedule 48 (rev (words_of_block blk))).

Definition round (s : state) (kw : Z * Z) : state :=
  let t1 := w32 (sh s + BSig1 (se s) + Ch (se s) (sf s) (sg s) + fst kw + snd kw) in
  let t2 := add32 (BSig0 (sa s)) (Maj (sa s) (sb s) (sc s)) in
  St (add32 t1 t2) (sa s) (sb s) (sc s) (add32 (sd s) t1) (se s) (sf s) (sg s).

Definition compress (h : state) (blk : list Z) : state :=
  let s := fold_left round (combine K (W blk)) h in
  St (add32 (sa h) (sa s)) (add32 (sb h) (sb s)) (add32 (sc h) (sc s)) (add32 (sd h) (sd s))
     (add32 (se h) (se s)) (add32 (sf h) (sf s)) (add32 (sg h) (sg s)) (add32 (sh h) (sh s)).

(** Padding: a [0x80] byte, zero bytes up to 56 modulo 64, then the bit
    length on 8 bytes, big-endian. *)
Definition pad (msg : list Z) : list Z :=
  let len := Z.of_nat (length msg) in
  msg ++ [0x80] ++ repeat 0 (Z.to_nat ((55 - len) mod 64)) ++ be_bytes 8 (8 * len).

Definition digest (s : state) : list Z :=
  be_bytes 4 (sa s) ++ be_bytes 4 (sb s) ++ be_bytes 4 (sc s) ++ be_bytes 4 (sd s) ++
  be_bytes 4 (se s) ++ be_bytes 4 (sf s) ++ be_bytes 4 (sg s) ++ be_bytes 4 (sh s).

Definition sha256 (msg : list Z) : list Z :=
  let p := pad msg in
  digest (fold_left compress (chunks (length p) 64 p) H0).

End SHA256.

Definition sha256 := SHA256.sha256.


(* ===================================================================== *)
(** ** Go errors *)
(* ===================================================================== *)

(** A Go function returning [(T, error)]. *)
Inductive result (A : Type) : Type :=
| Ok (a : A)
| Err (e : string).
Arguments Ok {A} a.
Arguments Err {A} e.

Definition rbind {A B} (m : result A) (k : A -> result B) : result B :=
  match m with
  | Ok a => k a
  | Err e => Err e
  end.

(** [fmt.Errorf("ctx: %w", err)] *)
Definition wrap {A} (ctx : string) (m : result A) : result A :=
  match m with
  | Ok a => Ok a
  | Err e => Err (ctx +:+ ": " +:+ e)
  end.

#[global] Instance result_bind : MBind result := fun A B k m => rbind m k.
#[global] Instance result_ret : MRet result := fun A a => Ok a.

(* ===================================================================== *)
(** ** The gate layer: [frontend.API] over the BN254 scalar field *)
(* ===================================================================== *)

Module api.

(** Order of the BN254 scalar field, the native field of the circuit. *)
Definition modulus : Z :=
  21888242871839275222246405745257275088548364400416034343698204186575808495617.

Definition Add (a b : Z) : Z := (a + b) mod modulus.
Definition Mul (a b : Z) : Z := (a * b) mod modulus.
Definition Sub (a b : Z) : Z := (a - b) mod modulus.

Definition AssertIsEqual (a b : Z) : option unit :=
  if a =? b then Some tt else None.

Definition AssertIsBoolean (a : Z) : option unit :=
  if (a =? 0) || (a =? 1) then Some tt else None.

(** [ToBinary(v, n)]: the [n] low bits of [v], least significant first;
    the decomposition constrains [v] to [n] bits. *)
Definition ToBinary (v : Z) (n : nat) : option (list Z) :=
  if (0 <=? v) && (v <? 2 ^ Z.of_nat n)
  then Some (map (fun i => Z.b2z (Z.testbit v (Z.of_nat i))) (seq 0 n))
  else None.

Definition IsZero (a : Z) : Z := if a =? 0 then 1 else 0.

(** The boolean gates assert that their operands are boolean. *)
Definition And (a b : Z) : option Z :=
  _ ← AssertIsBoolean a; _ ← AssertIsBoolean b; Some (Mul a b).

Definition Or (a b : Z) : option Z :=
  _ ← AssertIsBoolean a; _ ← AssertIsBoolean b; Some (Sub (Add a b) (Mul a b)).

End api.

(* ===================================================================== *)
(** ** The emulated BLS12-381 base field: [emulated.Field[sw_bls12381.BaseField]] *)
(* ===================================================================== *)

Module fp.

(** The BLS12-381 base-field modulus [p]. *)
Definition Modulus : Z :=
  0x1a0111ea397fe69a4b1ba7b6434bacd764774b84f38512bf6730d2a0f6b0f6241eabfffeb153ffffb9feffffffffaaab.

Definition nbLimbs : nat := 6.
Definition limbBits : Z := 64.

(** An element is its vector of limbs; [Limbs[0]] is the least significant. *)
Record Element := mkElement { Limbs : list Z }.

Definition limbs_value (l : list Z) : Z :=
  fold_right (fun x acc => x + 2 ^ limbBits * acc) 0 l.

Definition value (e : Element) : Z := limbs_value (Limbs e).

(** [emulated.ValueOf]: the six 64-bit limbs of a constant. *)
Definition ValueOf (v : Z) : Element :=
  mkElement (map (fun i => (v / 2 ^ (limbBits * Z.of_nat i)) mod 2 ^ limbBits) (seq 0 nbLimbs)).

(** [NewElement(limbs)]: the element with the given limbs. *)
Definition NewElement (limbs : list Z) : Element := mkElement limbs.

(** The arithmetic gates.  The library defers reductions; the element a
    gate returns is represented here by the limbs of its residue, which a
    deferred reduction does not change. *)
Definition Zero : Element := ValueOf 0.
Definition Reduce (a : Element) : Element := ValueOf (value a mod Modulus).
Definition Add (a b : Element) : Element := ValueOf ((value a + value b) mod Modulus).
Definition Sub (a b : Element) : Element := ValueOf ((value a - value b) mod Modulus).
Definition Mul (a b : Element) : Element := ValueOf ((value a * value b) mod Modulus).
Definition MulConst (a : Element) (c : Z) : Element := ValueOf ((value a * c) mod Modulus).

(** Modular exponentiation by squaring. *)
Fixpoint pow_mod_pos (a : Z) (e : positive) (m : Z) : Z :=
  match e with
  | xH => a mod m
  | xO e' => let r := pow_mod_pos a e' m in (r * r) mod m
  | xI e' => let r := pow_mod_pos a e' m in (((r * r) mod m) * a) mod m
  end.

Definition inv (a : Z) : Z := pow_mod_pos a (Z.to_pos (Modulus - 2)) Modulus.

(** [Div(a, b)] returns [e] under the constraint [e * b = a]; it needs an
    invertible divisor. *)
Definition Div (a b : Element) : option Element :=
  if value b mod Modulus =? 0 then None
  else Some (ValueOf ((value a * inv (value b mod Modulus)) mod Modulus)).

End fp.

(* ===================================================================== *)
(** ** Host curve arithmetic: gnark-crypto [bls12381.G1Affine] *)
(* ===================================================================== *)

Module bls12381.

(** An affine point with coordinates in [0, p); [(0, 0)] is the point at
    infinity. *)
Record G1Affine := mkG1 { X : Z; Y : Z }.

Definition p : Z := fp.Modulus.

Definition infinity : G1Affine := mkG1 0 0.

Definition IsInfinity (P : G1Affine) : bool := (X P =? 0) && (Y P =? 0).

Definition IsOnCurve (P : G1Affine) : bool :=
  IsInfinity P || ((Y P * Y P) mod p =? (X P * X P * X P + 4) mod p).

Definition G1Affine_eqb (P Q : G1Affine) : bool := (X P =? X Q) && (Y P =? Y Q).

Definition Neg (P : G1Affine) : G1Affine := mkG1 (X P) ((- Y P) mod p).

(** The point with slope [lam] through [P] and [Q]. *)
Definition third (lam : Z) (P Q : G1Affine) : G1Affine :=
  let xr := (lam * lam - X P - X Q) mod p in
  mkG1 xr ((lam * (X P - xr) - Y P) mod p).

Definition Double (P : G1Affine) : G1Affine :=
  if IsInfinity P || (Y P =? 0) then infinity
  else third ((3 * X P * X P * fp.inv ((2 * Y P) mod p)) mod p) P P.

(** [G1Affine.Add]: the complete group law. *)
Definition Add (P Q : G1Affine) : G1Affine :=
  if IsInfinity P then Q
  else if IsInfinity Q then P
  else if X P =? X Q then
    (if Y P =? Y Q then Double P else infinity)
  else third (((Y Q - Y P) * fp.inv ((X Q - X P) mod p)) mod p) P Q.

(** The generator of G1. *)
Definition g1Gen : G1Affine :=
  mkG1 0x17f1d3a73197d7942695638c4fa9ac0fc3688c4f9774b905a14e3a3f171bac586c55e83ff97a1aeffb3af00adb22c6bb
       0x08b3f481e3aaa0f1a09e30ed741d8ae4fcf5e095d5d00af600db18cb2c04b3edd03cc744a2888ae40caa232946c5e7e1.

(** [X.Bytes()]: the coordinate on 48 bytes, big-endian. *)
Definition Bytes (x : Z) : list Z := be_bytes 48 x.

End bls12381.

(* ===================================================================== *)
(** ** In-circuit curve arithmetic: [sw_emulated.Curve] on BLS12-381 G1 *)
(* ===================================================================== *)

Module sw_bls12381.

Record G1Affine := mkG1Affine { X : fp.Element; Y : fp.Element }.

(** [NewG1Affine]: the witness assignment of a host point. *)
Definition NewG1Affine (v : bls12381.G1Affine) : G1Affine :=
  mkG1Affine (fp.ValueOf (bls12381.X v)) (fp.ValueOf (bls12381.Y v)).

(** The host point a circuit point denotes. *)
Definition to_host (P : G1Affine) : bls12381.G1Affine :=
  bls12381.mkG1 (fp.value (X P) mod fp.Modulus) (fp.value (Y P) mod fp.Modulus).

(** Extension-field elements and G2 points (carried by the witness). *)
Record E2 := mkE2 { A0 : fp.Element; A1 : fp.Element }.
Record G2Affine := mkG2Affine { X2 : E2; Y2 : E2 }.

End sw_bls12381.

Module curve.

Import sw_bls12381.

(** [Add(p, q)]: the incomplete affine formulas,
    [lam = (q.y - p.y) / (q.x - p.x)], [xr = lam^2 - p.x - q.x],
    [yr = lam (p.x - xr) - p.y].  The operands must differ from each other
    and from each other's opposite: with [q.x = p.x] the divisor
    vanishes. *)
Definition Add (P Q : G1Affine) : option G1Affine :=
  let qypy := fp.Sub (Y Q) (Y P) in
  let qxpx := fp.Sub (X Q) (X P) in
  lam ← fp.Div qypy qxpx;
  let xr := fp.Sub (fp.Mul lam lam) (fp.Add (X P) (X Q)) in
  let yr := fp.Sub (fp.Mul lam (fp.Sub (X P) xr)) (Y P) in
  Some (mkG1Affine (fp.Reduce xr) (fp.Reduce yr)).

(** [Select(b, p, q)]: [p] when [b = 1], [q] when [b = 0]. *)
Definition Select (b : Z) (P Q : G1Affine) : option G1Affine :=
  _ ← api.AssertIsBoolean b;
  Some (if b =? 1 then P else Q).

End curve.

(* ===================================================================== *)
(** ** The circuit [Eth2ScUpdateCircuit] *)
(* ===================================================================== *)

(** [DOMAIN]: the sync-committee domain of the mainnet Fulu fork. *)
Definition DOMAIN : list Z :=
  [ 0x07; 0x00; 0x00; 0x00; 0xf5; 0x2c; 0x15; 0x27;
    0x2c; 0xff; 0x99; 0x83; 0x5c; 0xd0; 0x5a; 0xa5;
    0x22; 0xaf; 0x46; 0x92; 0x10; 0xb5; 0xb2; 0xc8;
    0x80; 0x7e; 0x37; 0x2b; 0x6b; 0x9c; 0xa5; 0x39 ].

Record Eth2ScUpdateCircuit := mkCircuit {
  (* BeaconBlockHeader fields (private inputs) *)
  Slot : Z;
  ProposerIndex : Z;
  ParentRoot : list Z;
  StateRoot : list Z;
  BodyRoot : list Z;
  (* Sync committee data (private inputs) *)
  ScPubKeys : list sw_bls12381.G1Affine;
  ScBits : list Z;
  AggregatedSig : sw_bls12381.G2Affine;
  (* Next sync committee Merkle proof data *)
  NextScBranch : list (list Z);
  (* Public inputs *)
  ScPubKeysHash : list Z;
  NextScRoot : list Z
}.

(** Default values for reads of the fixed-size arrays. *)
Definition zeroElement : fp.Element := fp.mkElement [].
Definition zeroG1 : sw_bls12381.G1Affine := sw_bls12381.mkG1Affine zeroElement zeroElement.

(** [for i := 0; i < 32; i++ { api.AssertIsEqual(a[i].Val, b[i].Val) }] *)
Definition assertBytes32Equal (a b : list Z) : option unit :=
  fold_left (fun (st : option unit) (i : nat) =>
               _ ← st; api.AssertIsEqual (nth i a 0) (nth i b 0))
            (seq 0 32) (Some tt).

(** The inner loop of the two serializers: the byte made of the bits
    [bits[byteIdx*8 .. byteIdx*8+7]], least significant first. *)
Definition packByte (bits : list Z) (byteIdx : nat) : Z :=
  fold_left (fun byteValue bitIdx =>
               let bit := nth (byteIdx * 8 + bitIdx) bits 0 in
               let power := Z.shiftl 1 (Z.of_nat bitIdx) in
               api.Add byteValue (api.Mul bit power))
            (seq 0 8) 0.

(** [serializeLimbTo8Bytes]: a limb on 8 bytes, big-endian. *)
Definition serializeLimbTo8Bytes (limb : Z) : option (list Z) :=
  bits ← api.ToBinary limb 64;
  Some (fold_left (fun (bytes : list Z) byteIdx =>
                     <[(7 - byteIdx)%nat := packByte bits byteIdx]> bytes)
                  (seq 0 8) (repeat 0 8)).

(** [serializeUint64ToChunk]: a 64-bit integer as a 32-byte chunk,
    little-endian, zero-padded. *)
Definition serializeUint64ToChunk (value : Z) : option (list Z) :=
  bits ← api.ToBinary value 64;
  let chunk := fold_left (fun (chunk : list Z) byteIdx =>
                            <[byteIdx := packByte bits byteIdx]> chunk)
                         (seq 0 8) (repeat 0 32) in
  Some (fold_left (fun (chunk : list Z) i => <[i := 0]> chunk) (seq 8 24) chunk).

Definition zeroChunk : list Z :=
  fold_left (fun (chunk : list Z) i => <[i := 0]> chunk) (seq 0 32) (repeat 0 32).

(** [hashPair]: SHA-256 of [left || right]. *)
Definition hashPair (left right : list Z) : list Z :=
  sha256 (left ++ right).

(** [computeBlockRoot]: the hash-tree-root of the beacon block header. *)
Definition computeBlockRoot (c : Eth2ScUpdateCircuit) : option (list Z) :=
  slotChunk ← serializeUint64ToChunk (Slot c);
  proposerChunk ← serializeUint64ToChunk (ProposerIndex c);
  let zeroChunk := zeroChunk in
  let h01 := hashPair slotChunk proposerChunk in
  let h23 := hashPair (ParentRoot c) (StateRoot c) in
  let h45 := hashPair (BodyRoot c) zeroChunk in
  let h67 := hashPair zeroChunk zeroChunk in
  let h0123 := hashPair h01 h23 in
  let h4567 := hashPair h45 h67 in
  let root := hashPair h0123 h4567 in
  Some root.

Definition computeSigningRoot (blockRoot : list Z) : list Z :=
  hashPair blockRoot DOMAIN.

(** [expandMessageXMD_SHA256(api, msg, dst, lenInBytes)].  Go's [uint8(n)]
    is [n mod 256]. *)
Definition uint8 (n : Z) : Z := n mod 256.

Definition Xor32 (b0 prev : list Z) : list Z :=
  map (fun j => Z.lxor (nth j b0 0) (nth j prev 0)) (seq 0 (length b0)).

Definition expandMessageXMD_SHA256 (msg dst : list Z) (lenInBytes : Z)
  : result (list Z) :=
  let B := 32 in
  let rInBytes := 64%nat in
  let maxLen := 255 * B in
  if (lenInBytes <=? 0) || (maxLen <? lenInBytes) then
    Err "len_in_bytes out of range"
  else
    let ell := (lenInBytes + B - 1) / B in
    let dstPrime := dst ++ [uint8 (Z.of_nat (length dst))] in
    let zPad := repeat 0 rInBytes in
    let lIB := [uint8 (Z.shiftr lenInBytes 8); uint8 (Z.land lenInBytes 0xff)] in
    let b0 := sha256 (zPad ++ msg ++ lIB ++ [0x00] ++ dstPrime) in
    let b1 := sha256 (b0 ++ [0x01] ++ dstPrime) in
    let uniform := b1 in
    let prev := b1 in
    '(uniform, prev) ←
      fold_left
        (fun (st : result (list Z * list Z)) (i : Z) =>
           '(uniform, prev) ← st;
           if negb (length b0 =? length prev)%nat then
             Err "b0 and prev length mismatch"
           else
             let t := Xor32 b0 prev in
             let bi := sha256 (t ++ [uint8 i] ++ dstPrime) in
             Ok (uniform ++ bi, bi))
        (map Z.of_nat (seq 2 (Z.to_nat ell - 1)))
        (Ok (uniform, prev));
    Ok (firstn (Z.to_nat lenInBytes) uniform).

(** [bytesToBLS12381FpMod]: [OS2IP(b) mod p] by Horner evaluation. *)
Definition bytesToBLS12381FpMod (b : list Z) : fp.Element :=
  let radix := 256 in
  let res := fp.Zero in
  let nbLimbs := length (fp.Limbs (fp.ValueOf fp.Modulus)) in
  let limbBuf := repeat 0 nbLimbs in
  let res :=
    fold_left
      (fun res by_ =>
         let res := fp.MulConst res radix in
         let limbBuf := fold_left (fun (buf : list Z) i => <[i := 0]> buf)
                                  (seq 0 nbLimbs) limbBuf in
         let limbBuf := <[0%nat := by_]> limbBuf in
         let digit := fp.NewElement limbBuf in
         fp.Add res digit)
      b res in
  fp.Reduce res.

(** The DST of Ethereum BLS signatures,
    ["BLS_SIG_BLS12381G2_XMD:SHA-256_SSWU_RO_POP_"]. *)
Definition dstBytes : list Z :=
  map (fun a => Z.of_nat (nat_of_ascii a))
      (list_ascii_of_string "BLS_SIG_BLS12381G2_XMD:SHA-256_SSWU_RO_POP_").

(** [hashToFieldBLS12381Fp2]: two elements of Fp2 from the signing root. *)
Definition hashToFieldBLS12381Fp2 (signingRoot : list Z)
  : result (list sw_bls12381.E2) :=
  let m := 2%nat in
  let L := 64%nat in
  let count := 2%nat in
  let lenInBytes := Z.of_nat (count * m * L) in
  uniform ← wrap "expand_message_xmd"
                 (expandMessageXMD_SHA256 signingRoot dstBytes lenInBytes);
  if negb (Z.of_nat (length uniform) =? lenInBytes) then
    Err "uniform_bytes length mismatch"
  else
    Ok (map (fun i =>
               let tv j := firstn L (skipn (L * (j + i * m)) uniform) in
               sw_bls12381.mkE2 (bytesToBLS12381FpMod (tv 0%nat))
                                (bytesToBLS12381FpMod (tv 1%nat)))
            (seq 0 count)).

(** [verifyScPubKeysHash]: the SHA-256 commitment to the committee keys. *)
Definition verifyScPubKeysHash (c : Eth2ScUpdateCircuit) : option unit :=
  written ←
    fold_left
      (fun (hasher : option (list Z)) (i : nat) =>
         buf ← hasher;
         let key := nth i (ScPubKeys c) zeroG1 in
         xbytes ← serializeLimbTo8Bytes (nth 1 (fp.Limbs (sw_bls12381.X key)) 0);
         let buf := buf ++ xbytes in
         xbytes ← serializeLimbTo8Bytes (nth 0 (fp.Limbs (sw_bls12381.X key)) 0);
         Some (buf ++ xbytes))
      (seq 0 512) (Some []);
  let hashResult := sha256 written in
  assertBytes32Equal hashResult (ScPubKeysHash c).

(** The body of the loop of [aggregatePubKeys], at index [i]. *)
Definition aggregateStep (c : Eth2ScUpdateCircuit)
    (st : option (sw_bls12381.G1Affine * Z)) (i : nat)
  : option (sw_bls12381.G1Affine * Z) :=
  '(accumulator, hasInitialized) ← st;
  let bit := nth i (ScBits c) 0 in
  let key := nth i (ScPubKeys c) zeroG1 in
  isFirstSelected ← api.And (api.IsZero hasInitialized) bit;
  shouldAdd ← api.And hasInitialized bit;
  sum ← curve.Add accumulator key;
  tempResult ← curve.Select shouldAdd sum accumulator;
  accumulator ← curve.Select isFirstSelected key tempResult;
  hasInitialized ← api.Or hasInitialized bit;
  Some (accumulator, hasInitialized).

(** [aggregatePubKeys]: the sum of the keys selected by [ScBits]. *)
Definition aggregatePubKeys (c : Eth2ScUpdateCircuit) : option sw_bls12381.G1Affine :=
  let accumulator := nth 0 (ScPubKeys c) zeroG1 in
  let hasInitialized := nth 0 (ScBits c) 0 in
  '(accumulator, hasInitialized) ←
    fold_left (aggregateStep c) (seq 1 511) (Some (accumulator, hasInitialized));
  _ ← api.AssertIsEqual hasInitialized 1;
  Some accumulator.

(** [verifyNextSyncCommitteeMerkleProof]: the branch from [NextScRoot] to
    [StateRoot] along the path of generalized index 87. *)
Definition path : list Z := [1; 1; 1; 0; 1; 0].

Definition verifyNextSyncCommitteeMerkleProof (c : Eth2ScUpdateCircuit) : option unit :=
  let current :=
    fold_left
      (fun current i =>
         let sibling := nth i (NextScBranch c) [] in
         if nth i path 0 =? 1 then hashPair sibling current
         else hashPair current sibling)
      (seq 0 6) (NextScRoot c) in
  assertBytes32Equal current (StateRoot c).

(* ===================================================================== *)
(** ** Package [types]: host-side helpers *)
(* ===================================================================== *)

(** [ParseSyncCommitteeBits]: the 512 participation flags of a bitfield. *)
Definition ParseSyncCommitteeBits (bitsBytes : list Z) : list bool :=
  let bits := repeat false 512 in
  fold_left
    (fun (bits : list bool) (i : nat) =>
       let byteIndex := (i / 8)%nat in
       let bitIndex := (i mod 8)%nat in
       if (byteIndex <? length bitsBytes)%nat then
         <[i := negb (Z.land (nth byteIndex bitsBytes 0)
                             (uint8 (Z.shiftl 1 (Z.of_nat bitIndex))) =? 0)]> bits
       else bits)
    (seq 0 512) bits.

(** The body of the loop of [AggregatePublicKeys], at index [i]. *)
Definition AggregatePublicKeys_step
    (SetBytes : list Z -> result bls12381.G1Affine) (pubkeys : list (list Z))
    (st : result (bls12381.G1Affine * Z * nat)) (participate : bool)
  : result (bls12381.G1Affine * Z * nat) :=
  '(aggPubkey, count, i) ← st;
  if negb participate || (length pubkeys <=? i)%nat then
    Ok (aggPubkey, count, S i)
  else
    pubkey ← wrap ("failed to deserialize pubkey " +:+ pretty i)
                  (SetBytes (nth i pubkeys []));
    Ok (bls12381.Add aggPubkey pubkey, count + 1, S i).

(** [AggregatePublicKeys]: the plain sum of the selected keys, with their
    number.  [SetBytes] is the deserializer of compressed G1 points. *)
Definition AggregatePublicKeys
    (SetBytes : list Z -> result bls12381.G1Affine)
    (pubkeys : list (list Z)) (bits : list bool)
  : result (bls12381.G1Affine * Z) :=
  let aggPubkey := bls12381.infinity in
  let count := 0 in
  '(aggPubkey, count, _) ←
    fold_left (AggregatePublicKeys_step SetBytes pubkeys) bits
              (Ok (aggPubkey, count, 0%nat));
  if count =? 0 then Err "no public keys to aggregate"
  else Ok (aggPubkey, count).

(** [ComputeScPubKeysHash]: SHA-256 over bytes [32..48) of each key's
    x-coordinate. *)
Definition ComputeScPubKeysHash (pubkeys : list bls12381.G1Affine) : list Z :=
  let hasher :=
    fold_left
      (fun (hasher : list Z) (i : nat) =>
         let xBytes := bls12381.Bytes (bls12381.X (nth i pubkeys bls12381.infinity)) in
         let bytesToHash := skipn 32 xBytes in
         hasher ++ bytesToHash)
      (seq 0 (length pubkeys)) [] in
  sha256 hasher.

(** [ProofData] and [CreateProofData]; a slice expression out of bounds
    panics ([None]). *)
Record ProofData := mkProofData {
  Proof_ : list (list Z);
  Commitments : list (list Z);
  CommitmentPok : list (list Z)
}.

Definition slice (s : list Z) (lo hi : nat) : option (list Z) :=
  if (lo <=? hi)%nat && (hi <=? length s)%nat
  then Some (firstn (hi - lo) (skipn lo s)) else None.

Definition CreateProofData (proofSolidity : list Z) : option ProofData :=
  let frBytes := 32%nat in
  proof ← mapM (fun i => slice proofSolidity (i * frBytes) ((i + 1) * frBytes)) (seq 0 8);
  let startIdx0 := (8 * frBytes + 4)%nat in
  commitments ←
    mapM (fun i => let startIdx := (startIdx0 + i * frBytes)%nat in
                   slice proofSolidity startIdx (startIdx + frBytes))
         (seq 0 4);
  Some (mkProofData proof (firstn 2 commitments) (firstn 2 (skipn 2 commitments))).

(* ===================================================================== *)
(** ** The world of the host programs: files and the proving backend *)
(* ===================================================================== *)

(** [frontend.Compile] is a function of the circuit definition alone. *)
Inductive ConstraintSystem := CompiledCS (circuit : string).

(** [groth16.Setup] draws fresh randomness. *)
Inductive ProvingKey := PK (cs : ConstraintSystem) (seed : nat).
Inductive VerifyingKey := VK (cs : ConstraintSystem) (seed : nat).

Inductive file :=
| FileCCS (cs : ConstraintSystem)
| FilePK (pk : ProvingKey)
| FileVK (vk : VerifyingKey)
| FileJSON (d : ProofData)
| FileRaw (raw : list Z).

Inductive event :=
| EvCompile (circuit : string)
| EvSetup (cs : ConstraintSystem)
| EvRead (path : string)
| EvWrite (path : string).

Record World := mkWorld {
  files : gmap string file;          (* the files that exist *)
  creatable : string -> bool;        (* does [os.Create] succeed on a path *)
  seed : nat;                        (* randomness consumed so far *)
  trace : list event                 (* what the program did, latest first *)
}.

Definition log (e : event) (w : World) : World :=
  mkWorld (files w) (creatable w) (seed w) (e :: trace w).

(** How many times the program compiled a circuit. *)
Definition is_compile (e : event) : bool :=
  match e with EvCompile _ => true | _ => false end.

Definition compilations (w : World) : nat := length (List.filter is_compile (trace w)).

(** [os.Open]: fails on a missing file. *)
Definition os_Open (path : string) (w : World) : result file :=
  match files w !! path with
  | Some f => Ok f
  | None => Err ("open " +:+ path +:+ ": no such file or directory")
  end.

(** [os.Create] followed by [WriteTo]: [Err] when the file cannot be
    created (in that case Go hands a nil file to [WriteTo]). *)
Definition createAndWrite (path : string) (f : file) (w : World) : result World :=
  if creatable w path then
    Ok (mkWorld (<[path := f]> (files w)) (creatable w) (seed w) (EvWrite path :: trace w))
  else Err "invalid argument".

(** The same with both errors ignored: [f, _ = os.Create(..); _, _ = x.WriteTo(f)]. *)
Definition createAndWrite_ (path : string) (f : file) (w : World) : World :=
  match createAndWrite path f w with
  | Ok w' => w'
  | Err _ => w
  end.

Definition frontend_Compile (circuit : string) (w : World) : ConstraintSystem * World :=
  (CompiledCS circuit, log (EvCompile circuit) w).

Definition groth16_Setup (cs : ConstraintSystem) (w : World)
  : ProvingKey * VerifyingKey * World :=
  (PK cs (seed w), VK cs (seed w),
   mkWorld (files w) (creatable w) (S (seed w)) (EvSetup cs :: trace w)).

(** [ReadFrom] on an opened file: succeeds on a serialized object of the
    expected kind. *)
Definition CS_ReadFrom (path : string) (f : file) (w : World)
  : result (ConstraintSystem * World) :=
  match f with
  | FileCCS cs => Ok (cs, log (EvRead path) w)
  | _ => Err "unexpected EOF"
  end.

Definition PK_ReadFrom (path : string) (f : file) (w : World)
  : result (ProvingKey * World) :=
  match f with
  | FilePK pk => Ok (pk, log (EvRead path) w)
  | _ => Err "unexpected EOF"
  end.

Definition VK_ReadFrom (path : string) (f : file) (w : World)
  : result (VerifyingKey * World) :=
  match f with
  | FileVK vk => Ok (vk, log (EvRead path) w)
  | _ => Err "unexpected EOF"
  end.

Definition filepath_Join (dir rel : string) : string := dir +:+ "/" +:+ rel.

(** How a host entry point ends. *)
Inductive outcome (A : Type) :=
| Done (a : A)                  (* returned normally (with a nil error) *)
| Failed (e : string)           (* returned a non-nil error *)
| Panicked (e : string).        (* [panic] *)
Arguments Done {A} a.
Arguments Failed {A} e.
Arguments Panicked {A} e.

(* ===================================================================== *)
(** ** The three setup entry points *)
(* ===================================================================== *)

(** Package-level variables of the circuit tests. *)
Record TestGlobals := mkTestGlobals {
  blsVerifierCCS : option ConstraintSystem;
  blsVerifierPK : option ProvingKey;
  blsVerifierVK : option VerifyingKey
}.

(** Step 1 of [onceSetupCircuit]: compile the circuit, or load it when the
    file opens.  (The compilation of the fixed circuit definition is taken
    to succeed.) *)
Definition onceSetupCircuit_compile (ccsPath : string) (w : World)
  : outcome (ConstraintSystem * World) :=
  match os_Open ccsPath w with
  | Err _ =>
      let '(ccs, w) := frontend_Compile "Eth2ScUpdateCircuit" w in
      Done (ccs, createAndWrite_ ccsPath (FileCCS ccs) w)
  | Ok fCcs =>
      match CS_ReadFrom ccsPath fCcs w with
      | Err e => Panicked e
      | Ok (ccs, w) => Done (ccs, w)
      end
  end.

(** Step 2 of [onceSetupCircuit]: generate the keys, or load them when both
    files open. *)
Definition onceSetupCircuit_setup (pkPath vkPath : string) (ccs : ConstraintSystem)
    (w : World) : outcome (ProvingKey * VerifyingKey * World) :=
  match os_Open pkPath w, os_Open vkPath w with
  | Ok fpk, Ok fvk =>
      match PK_ReadFrom pkPath fpk w with
      | Err e => Panicked e
      | Ok (pk, w) =>
          match VK_ReadFrom vkPath fvk w with
          | Err e => Panicked e
          | Ok (vk, w) => Done (pk, vk, w)
          end
      end
  | _, _ =>
      let '(pk, vk, w) := groth16_Setup ccs w in
      let w := createAndWrite_ pkPath (FilePK pk) w in
      let w := createAndWrite_ vkPath (FileVK vk) w in
      Done (pk, vk, w)
  end.

(** The key files are absent or hold keys. *)
Definition key_files_usable (pkPath vkPath : string) (w : World) : Prop :=
  (files w !! pkPath = None \/ exists pk, files w !! pkPath = Some (FilePK pk))
  /\ (files w !! vkPath = None \/ exists vk, files w !! vkPath = Some (FileVK vk)).

(** [onceSetupCircuit] (circuit tests). *)
Definition onceSetupCircuit (rootDir : string) (g : TestGlobals) (w : World)
  : outcome (TestGlobals * World) :=
  match blsVerifierCCS g with
  | Some _ => Done (g, w)
  | None =>
    let ccsPath := filepath_Join rootDir ".build/Eth2ScUpdateCircuit.ccs" in
    let pkPath := filepath_Join rootDir ".build/Eth2ScUpdateCircuit.pk" in
    let vkPath := filepath_Join rootDir ".build/Eth2ScUpdateCircuit.vk" in
    match onceSetupCircuit_compile ccsPath w with
    | Panicked e => Panicked e
    | Failed e => Failed e
    | Done (ccs, w) =>
      match onceSetupCircuit_setup pkPath vkPath ccs w with
      | Panicked e => Panicked e
      | Failed e => Failed e
      | Done (pk, vk, w) => Done (mkTestGlobals (Some ccs) (Some pk) (Some vk), w)
      end
    end
  end.

(** [SetupCircuit] (the setup command). *)
Definition SetupCircuit (w : World)
  : outcome (ConstraintSystem * ProvingKey * VerifyingKey * World) :=
  let rootDir := "." in
  let ccsPath := filepath_Join rootDir ".build/ScUpdateVerifierCircuit.ccs" in
  let pkPath := filepath_Join rootDir ".build/ScUpdateVerifierCircuit.pk" in
  let vkPath := filepath_Join rootDir ".build/ScUpdateVerifierCircuit.vk" in
  (* Step 1: compile circuit and save to file *)
  let '(ccs, w) := frontend_Compile "ScUpdateVerifierCircuit" w in
  match createAndWrite ccsPath (FileCCS ccs) w with
  | Err e => Failed e
  | Ok w =>
    (* Step 2: setup *)
    let '(pk, vk, w) := groth16_Setup ccs w in
    match createAndWrite pkPath (FilePK pk) w with
    | Err e => Failed e
    | Ok w =>
      match createAndWrite vkPath (FileVK vk) w with
      | Err e => Failed e
      | Ok w => Done (ccs, pk, vk, w)
      end
    end
  end.

(* ===================================================================== *)
(** ** Package [relayer] *)
(* ===================================================================== *)

Record BeaconBlockHeader := mkHeader {
  hSlot : Z;
  hProposerIndex : Z;
  hParentRoot : list Z;
  hStateRoot : list Z;
  hBodyRoot : list Z
}.

(** The fields of [types.LightClientUpdate] the relayer reads. *)
Record LightClientUpdate := mkUpdate {
  AttestedHeader_Beacon : BeaconBlockHeader;
  NextSyncCommittee_Pubkeys : list (list Z);
  NextSyncCommittee_AggregatePubkey : list Z;
  NextSyncCommitteeBranch : list (list Z);
  SyncAggregate_SyncCommitteeBits : list Z;
  SyncAggregate_SyncCommitteeSignature : list Z
}.

(** [cfgtypes.Fetcher]; the first argument of [ScUpdate] counts the calls
    made before, since the answer of the network changes with time. *)
Class Fetcher := {
  ScUpdate : nat -> Z -> result LightClientUpdate
}.

(** What the relayer uses of gnark, gnark-crypto and zrnt. *)
Class Backend := {
  G1_SetBytes : list Z -> result bls12381.G1Affine;
  G2_SetBytes : list Z -> result sw_bls12381.G2Affine;
  SyncCommittee_HashTreeRoot : list (list Z) -> list Z -> list Z;
  frontend_NewWitness : Eth2ScUpdateCircuit -> result Eth2ScUpdateCircuit;
  groth16_Prove : option ConstraintSystem -> option ProvingKey ->
                  Eth2ScUpdateCircuit -> result (list Z);
  MarshalSolidity : list Z -> option (list Z)
}.

Record Config := mkConfig {
  RootDir : string;
  RPCEndpoint : string;
  InitPeriod : Z;
  cfgSlot : Z
}.

Record Relayer := mkRelayer {
  config : Config;
  ccs : option ConstraintSystem;
  pk : option ProvingKey;
  scPubKeysHash : list Z;
  currentScPubkeys : list bls12381.G1Affine
}.

#[global] Instance outcome_bind : MBind outcome :=
  fun A B k m => match m with
                 | Done a => k a
                 | Failed e => Failed e
                 | Panicked e => Panicked e
                 end.

(** [Relayer.setupCircuit]: loads the compiled circuit and the proving key. *)
Definition setupCircuit (r : Relayer) (w : World) : outcome (Relayer * World) :=
  match ccs r with
  | Some _ => Done (r, w)
  | None =>
    let ccsPath := filepath_Join (RootDir (config r)) "../.build/Eth2ScUpdateCircuit.ccs" in
    let pkPath := filepath_Join (RootDir (config r)) "../.build/Eth2ScUpdateCircuit.pk" in
    match os_Open ccsPath w with
    | Err e => Failed ("failed to open CCS file: " +:+ e)
    | Ok fCcs =>
      match CS_ReadFrom ccsPath fCcs w with
      | Err e => Failed ("failed to read CCS: " +:+ e)
      | Ok (cs, w) =>
        let r := mkRelayer (config r) (Some cs) (pk r) (scPubKeysHash r) (currentScPubkeys r) in
        match os_Open pkPath w with
        | Err e => Failed ("failed to open PK file: " +:+ e)
        | Ok fpk =>
          match PK_ReadFrom pkPath fpk w with
          | Err e => Failed ("failed to read PK: " +:+ e)
          | Ok (k, w) =>
            Done (mkRelayer (config r) (ccs r) (Some k) (scPubKeysHash r) (currentScPubkeys r), w)
          end
        end
      end
    end
  end.

Section RelayerRun.

Context `{Fetcher} `{Backend}.

(** [assignNextSyncCommitteeToWitness] *)
Definition assignNextSyncCommitteeToWitness
    (update : LightClientUpdate) (witness : Eth2ScUpdateCircuit) : Eth2ScUpdateCircuit :=
  let nextSCRoot := SyncCommittee_HashTreeRoot (NextSyncCommittee_Pubkeys update)
                                               (NextSyncCommittee_AggregatePubkey update) in
  mkCircuit (Slot witness) (ProposerIndex witness) (ParentRoot witness) (StateRoot witness)
            (BodyRoot witness) (ScPubKeys witness) (ScBits witness) (AggregatedSig witness)
            (firstn 6 (NextSyncCommitteeBranch update))
            (ScPubKeysHash witness)
            (firstn 32 nextSCRoot).

(** [Relayer.generateProof] *)
Definition generateProof (r : Relayer) (update : LightClientUpdate) : result (list Z) :=
  let bits := ParseSyncCommitteeBits (SyncAggregate_SyncCommitteeBits update) in
  let sigBytes := SyncAggregate_SyncCommitteeSignature update in
  match G2_SetBytes sigBytes with
  | Err e => Err ("failed to deserialize signature: " +:+ e)
  | Ok signature =>
    let hdr := AttestedHeader_Beacon update in
    let witness :=
      mkCircuit (hSlot hdr) (hProposerIndex hdr)
                (firstn 32 (hParentRoot hdr)) (firstn 32 (hStateRoot hdr)) (firstn 32 (hBodyRoot hdr))
                (map sw_bls12381.NewG1Affine (firstn 512 (currentScPubkeys r)))
                (map (fun b : bool => if b then 1 else 0) (firstn 512 bits))
                signature
                []
                (firstn 32 (scPubKeysHash r))
                [] in
    let witness := assignNextSyncCommitteeToWitness update witness in
    match frontend_NewWitness witness with
    | Err e => Err ("failed to create witness: " +:+ e)
    | Ok fullWitness =>
      match groth16_Prove (ccs r) (pk r) fullWitness with
      | Err e => Err ("proof generation failed: " +:+ e)
      | Ok proof =>
        match MarshalSolidity proof with
        | None => Err "proof does not implement MarshalSolidity()"
        | Some proofSolidity => Ok proofSolidity
        end
      end
    end
  end.

(** The loop that stores the 512 keys of an update in [r.currentScPubkeys];
    an update with fewer keys makes the index expression panic. *)
Definition storePubkeys (pubkeys : list (list Z)) (cur : list bls12381.G1Affine)
  : outcome (list bls12381.G1Affine) :=
  fold_left
    (fun (st : outcome (list bls12381.G1Affine)) (i : nat) =>
       cur ← st;
       match pubkeys !! i with
       | None => Panicked "index out of range"
       | Some pubkeyBytes =>
         match G1_SetBytes pubkeyBytes with
         | Err e => Failed ("failed to parse pubkey: " +:+ e)
         | Ok P => Done (<[i := P]> cur)
         end
       end)
    (seq 0 512) (Done cur).

(** How far [Run] got: it returned an error, it panicked, or it is still
    in its loop. *)
Inductive run_outcome :=
| Returned (e : string)
| Crashed (e : string)
| Looping (r : Relayer) (period : Z) (calls : nat) (w : World).

(** One iteration of the main loop of [Run]: [inl] to go on, [inr] when
    [Run] ends. *)
Definition Run_iteration (r : Relayer) (period : Z) (calls : nat) (w : World)
  : (Relayer * Z * nat * World) + run_outcome :=
  match ScUpdate calls period with
  | Err _ =>
      (* log, sleep, continue *)
      inl (r, period, S calls, w)
  | Ok update =>
    match generateProof r update with
    | Err e => inr (Returned ("failed to generate proof: " +:+ e))
    | Ok proofSolidity =>
      let outputPath := "output/proof-period-" +:+ pretty period +:+ ".json" in
      match CreateProofData proofSolidity with
      | None => inr (Crashed "slice bounds out of range")
      | Some proofData =>
        match createAndWrite outputPath (FileJSON proofData) w with
        | Err e => inr (Returned ("failed to write proof file: " +:+ e))
        | Ok w =>
          match storePubkeys (NextSyncCommittee_Pubkeys update) (currentScPubkeys r) with
          | Panicked e => inr (Crashed e)
          | Failed e => inr (Returned e)
          | Done keys =>
            let r := mkRelayer (config r) (ccs r) (pk r) (ComputeScPubKeysHash keys) keys in
            inl (r, period + 1, S calls, w)
          end
        end
      end
    end
  end.

(** The main loop, cut after [fuel] iterations. *)
Fixpoint Run_loop (fuel : nat) (r : Relayer) (period : Z) (calls : nat) (w : World)
  : run_outcome :=
  match fuel with
  | O => Looping r period calls w
  | S fuel =>
    match Run_iteration r period calls w with
    | inl (r, period, calls, w) => Run_loop fuel r period calls w
    | inr out => out
    end
  end.

(** [Relayer.Run] *)
Definition Run (fuel : nat) (r : Relayer) (w : World) : run_outcome :=
  let period := InitPeriod (config r) in
  match ScUpdate 0 period with
  | Err e => Returned ("failed to fetch initial update: " +:+ e)
  | Ok initialUpdate =>
    match storePubkeys (NextSyncCommittee_Pubkeys initialUpdate) (currentScPubkeys r) with
    | Panicked e => Crashed e
    | Failed e => Returned e
    | Done keys =>
      let r := mkRelayer (config r) (ccs r) (pk r) (ComputeScPubKeysHash keys) keys in
      Run_loop fuel r (period + 1) 1 w
    end
  end.

End RelayerRun.

(* ===================================================================== *)
(** ** Reference definitions, written after the specification *)
(* ===================================================================== *)

(** *** SSZ merkleization *)

(** The 64-byte inputs of one level of pairwise 2-to-1 compressions. *)
Fixpoint layer_inputs (nodes : list (list Z)) : list (list Z) :=
  match nodes with
  | l :: r :: rest => (l ++ r) :: layer_inputs rest
  | _ => []
  end.

(** One level of pairwise 2-to-1 compressions. *)
Definition hash_layer (nodes : list (list Z)) : list (list Z) :=
  map sha256 (layer_inputs nodes).

(** The root of the tree of the given depth over [2 ^ depth] leaves. *)
Fixpoint merkle_root (depth : nat) (leaves : list (list Z)) : list Z :=
  match depth with
  | O => hd [] leaves
  | S d => merkle_root d (hash_layer leaves)
  end.

(** All the inputs compressed on the way to the root. *)
Fixpoint merkle_inputs (depth : nat) (leaves : list (list Z)) : list (list Z) :=
  match depth with
  | O => []
  | S d => layer_inputs leaves ++ merkle_inputs d (hash_layer leaves)
  end.

(** A [uint64] as an SSZ chunk: little-endian, padded to 32 bytes. *)
Definition ssz_uint64_chunk (v : Z) : list Z := le_bytes 8 v ++ repeat 0 24.

Definition ssz_zero_chunk : list Z := repeat 0 32.

(** The leaves of a beacon block header: five fields and three zero
    leaves. *)
Definition header_leaves (slot proposerIndex : Z)
    (parentRoot stateRoot bodyRoot : list Z) : list (list Z) :=
  [ ssz_uint64_chunk slot; ssz_uint64_chunk proposerIndex;
    parentRoot; stateRoot; bodyRoot;
    ssz_zero_chunk; ssz_zero_chunk; ssz_zero_chunk ].

(** The hash-tree-root of a beacon block header: three levels over the
    eight leaves. *)
Definition header_hash_tree_root (slot proposerIndex : Z)
    (parentRoot stateRoot bodyRoot : list Z) : list Z :=
  merkle_root 3 (header_leaves slot proposerIndex parentRoot stateRoot bodyRoot).

(** *** Merkle branches *)

(** The path of a generalized index: the bits of its position, least
    significant first. *)
Definition gindex_path (gindex : Z) (depth : nat) : list Z :=
  map (fun i => Z.b2z (Z.testbit gindex (Z.of_nat i))) (seq 0 depth).

(** One level: the running node is the right child when the bit is 1. *)
Definition merkle_step (bit : Z) (sibling current : list Z) : list Z :=
  if bit =? 1 then sha256 (sibling ++ current) else sha256 (current ++ sibling).

(** The pair of children hashed at that level. *)
Definition merkle_children (bit : Z) (sibling current : list Z) : list Z * list Z :=
  if bit =? 1 then (sibling, current) else (current, sibling).

(** The root reached from a leaf along a path. *)
Fixpoint merkle_walk (bits : list Z) (branch : list (list Z)) (current : list Z) : list Z :=
  match bits, branch with
  | bit :: bits', sibling :: branch' =>
      merkle_walk bits' branch' (merkle_step bit sibling current)
  | _, _ => current
  end.

(** The running node below level [i]. *)
Fixpoint merkle_node (bits : list Z) (branch : list (list Z)) (leaf : list Z) (i : nat)
  : list Z :=
  match i with
  | O => leaf
  | S j => merkle_step (nth j bits 0) (nth j branch []) (merkle_node bits branch leaf j)
  end.

(** The two walks of a branch along [bits1] and [bits2] meet no SHA-256
    collision: wherever they hash different pairs of children, the
    digests differ. *)
Definition no_collision (bits1 bits2 : list Z) (branch : list (list Z)) (leaf : list Z)
  : Prop :=
  forall i, (i < 6)%nat ->
    let c1 := merkle_children (nth i bits1 0) (nth i branch []) (merkle_node bits1 branch leaf i) in
    let c2 := merkle_children (nth i bits2 0) (nth i branch []) (merkle_node bits2 branch leaf i) in
    sha256 (fst c1 ++ snd c1) = sha256 (fst c2 ++ snd c2) -> c1 = c2.

(** *** RFC 9380, section 5.3.1: [expand_message_xmd] with SHA-256 *)

Module RFC9380.

Definition b_in_bytes : Z := 32.
Definition s_in_bytes : nat := 64.

(** [I2OSP(x, n)] fails when [x] does not fit on [n] bytes. *)
Definition I2OSP (x : Z) (n : nat) : option (list Z) :=
  if (0 <=? x) && (x <? 256 ^ Z.of_nat n) then Some (be_bytes n x) else None.

Fixpoint strxor (a b : list Z) : list Z :=
  match a, b with
  | x :: a', y :: b' => Z.lxor x y :: strxor a' b'
  | _, _ => []
  end.

Definition b_0 (msg DST_prime : list Z) (len_in_bytes : Z) : list Z :=
  let Z_pad := repeat 0 s_in_bytes in
  let l_i_b_str := be_bytes 2 len_in_bytes in
  sha256 (Z_pad ++ msg ++ l_i_b_str ++ be_bytes 1 0 ++ DST_prime).

(** [b_i] for [i >= 1]. *)
Fixpoint b_ (b0 DST_prime : list Z) (i : nat) : list Z :=
  match i with
  | O => b0
  | S O => sha256 (b0 ++ be_bytes 1 1 ++ DST_prime)
  | S j => sha256 (strxor b0 (b_ b0 DST_prime j) ++ be_bytes 1 (Z.of_nat i) ++ DST_prime)
  end.

Definition expand_message_xmd (msg DST : list Z) (len_in_bytes : Z) : option (list Z) :=
  let ell := (len_in_bytes + b_in_bytes - 1) / b_in_bytes in
  if (255 <? ell) || (65535 <? len_in_bytes) || (255 <? Z.of_nat (length DST)) then None
  else
    len_DST ← I2OSP (Z.of_nat (length DST)) 1;
    let DST_prime := DST ++ len_DST in
    let b0 := b_0 msg DST_prime len_in_bytes in
    let uniform_bytes := concat (map (b_ b0 DST_prime) (seq 1 (Z.to_nat ell))) in
    Some (firstn (Z.to_nat len_in_bytes) uniform_bytes).

End RFC9380.

(** *** The commitment to the committee keys *)

(** The [i]-th 64-bit limb of an x-coordinate. *)
Definition limb64 (x : Z) (i : Z) : Z := (x / 2 ^ (64 * i)) mod 2 ^ 64.

(** The truncation the code hashes: limbs 1 and 0, the two least
    significant ones. *)
Definition truncation_low (x : Z) : list Z :=
  be_bytes 8 (limb64 x 1) ++ be_bytes 8 (limb64 x 0).

(** The truncation the specification describes: limbs 5 and 4, the two
    most significant ones. *)
Definition truncation_high (x : Z) : list Z :=
  be_bytes 8 (limb64 x 5) ++ be_bytes 8 (limb64 x 4).

Definition commitment (truncation : Z -> list Z) (keys : list bls12381.G1Affine) : list Z :=
  sha256 (concat (map (fun k => truncation (bls12381.X k)) keys)).

(** *** Sums of selected keys *)

(** The keys whose participation bit is 1, in index order. *)
Fixpoint selected {A} (keys : list A) (bits : list Z) : list A :=
  match keys, bits with
  | k :: keys', b :: bits' => if b =? 1 then k :: selected keys' bits' else selected keys' bits'
  | _, _ => []
  end.

(** Their sum, from the point at infinity. *)
Definition g1_sum (keys : list bls12381.G1Affine) : bls12381.G1Affine :=
  fold_left bls12381.Add keys bls12381.infinity.

(** The accumulator and the flag of the aggregation after round [n],
    computed on the host with the complete addition. *)
Fixpoint running_sum (keys : list bls12381.G1Affine) (bits : list Z) (n : nat)
  : bls12381.G1Affine * Z :=
  match n with
  | O => (nth 0 keys bls12381.infinity, nth 0 bits 0)
  | S m =>
      let '(acc, h) := running_sum keys bits m in
      let key := nth n keys bls12381.infinity in
      let bit := nth n bits 0 in
      (if bit =? 1 then (if h =? 1 then bls12381.Add acc key else key) else acc,
       if (h =? 1) || (bit =? 1) then 1 else 0)
  end.

(** A point with reduced coordinates that is not the point at infinity. *)
Definition affine_point (P : bls12381.G1Affine) : Prop :=
  0 <= bls12381.X P < bls12381.p /\ 0 <= bls12381.Y P < bls12381.p
  /\ bls12381.IsInfinity P = false.

(** No round meets the exceptional cases of the incomplete addition: the
    accumulator is a point, and its x-coordinate differs from the one of the
    key the round adds to it, whether or not that key is selected. *)
Definition regular (keys : list bls12381.G1Affine) (bits : list Z) : Prop :=
  forall n, (n < 511)%nat ->
    bls12381.IsInfinity (fst (running_sum keys bits n)) = false
    /\ bls12381.X (fst (running_sum keys bits n))
       <> bls12381.X (nth (S n) keys bls12381.infinity).

(* ===================================================================== *)
(** ** Sample data *)
(* ===================================================================== *)

Definition sampleG2 : sw_bls12381.G2Affine :=
  sw_bls12381.mkG2Affine (sw_bls12381.mkE2 fp.Zero fp.Zero) (sw_bls12381.mkE2 fp.Zero fp.Zero).

(** A header at slot 9000000. *)
Definition sampleHeader : BeaconBlockHeader :=
  mkHeader 9000000 1234 (repeat 0x11 32) (repeat 0x22 32) (repeat 0x33 32).

(** A witness carrying a header, keys, bits, a branch and the public
    inputs. *)
Definition sampleWitness (hdr : BeaconBlockHeader) (keys : list bls12381.G1Affine)
    (bits : list Z) (branch : list (list Z)) (scPubKeysHash nextScRoot : list Z)
  : Eth2ScUpdateCircuit :=
  mkCircuit (hSlot hdr) (hProposerIndex hdr) (hParentRoot hdr) (hStateRoot hdr) (hBodyRoot hdr)
            (map sw_bls12381.NewG1Affine keys) bits sampleG2 branch scPubKeysHash nextScRoot.

Definition sampleBlockRootWitness : Eth2ScUpdateCircuit :=
  sampleWitness sampleHeader [] [] [] [] [].

(** 512 copies of the generator: a committee whose members all hold the
    same key. *)
Definition sampleKeys : list bls12381.G1Affine := repeat bls12381.g1Gen 512.

(** The two truncations of the generator's x-coordinate. *)
Definition sampleLow : list Z :=
  Eval vm_compute in truncation_low (bls12381.X bls12381.g1Gen).
Definition sampleHigh : list Z :=
  Eval vm_compute in truncation_high (bls12381.X bls12381.g1Gen).

(** A witness whose public input is the commitment the host computes. *)
Definition sampleCommitmentWitness : Eth2ScUpdateCircuit :=
  sampleWitness sampleHeader sampleKeys [] [] (ComputeScPubKeysHash sampleKeys) [].

(** The same with the commitment the specification describes. *)
Definition sampleHighCommitmentWitness : Eth2ScUpdateCircuit :=
  sampleWitness sampleHeader sampleKeys [] [] (commitment truncation_high sampleKeys) [].

(** The path of the next generalized index up the same branch: the path
    of index 87 shifted by one bit. *)
Definition shiftedPath : list Z := gindex_path (2 * 87) 6.

(** The roots of the all-zero subtrees. *)
Fixpoint zeroHash (n : nat) : list Z :=
  match n with
  | O => repeat 0 32
  | S k => let h := zeroHash k in sha256 (h ++ h)
  end.

(** A branch through an all-zero region of the state: at every level the
    sibling equals the running node. *)
Definition zeroBranch : list (list Z) := map zeroHash (seq 0 6).

Definition zeroBranchWitness : Eth2ScUpdateCircuit :=
  sampleWitness (mkHeader 9000000 1234 (repeat 0x11 32) (zeroHash 6) (repeat 0x33 32))
                [] [] zeroBranch [] (zeroHash 0).

(** A branch with six distinct siblings, and the state root it reaches
    along the shifted path. *)
Definition sampleLeaf : list Z := repeat 0xaa 32.

Definition sampleBranch : list (list Z) :=
  [repeat 1 32; repeat 2 32; repeat 3 32; repeat 4 32; repeat 5 32; repeat 6 32].

Definition shiftedRoot : list Z :=
  Eval vm_compute in merkle_walk shiftedPath sampleBranch sampleLeaf.

Definition shiftedBranchWitness : Eth2ScUpdateCircuit :=
  sampleWitness (mkHeader 9000000 1234 (repeat 0x11 32) shiftedRoot (repeat 0x33 32))
                [] [] sampleBranch [] sampleLeaf.

(** The same branch with the state root it reaches along the fixed path. *)
Definition fixedRoot : list Z :=
  Eval vm_compute in merkle_walk path sampleBranch sampleLeaf.

Definition fixedBranchWitness : Eth2ScUpdateCircuit :=
  sampleWitness (mkHeader 9000000 1234 (repeat 0x11 32) fixedRoot (repeat 0x33 32))
                [] [] sampleBranch [] sampleLeaf.

(** Twice the generator. *)
Definition g1Dbl : bls12381.G1Affine :=
  Eval vm_compute in bls12381.Add bls12381.g1Gen bls12381.g1Gen.

(** Two members of the committee hold the same key and both signed. *)
Definition duplicateKeysWitness : Eth2ScUpdateCircuit :=
  sampleWitness sampleHeader sampleKeys (1 :: 1 :: repeat 0 510) [] [] [].

(** The keys of the committee differ from the first one, and only the
    first member signed. *)
Definition oneSignerKeys : list bls12381.G1Affine :=
  bls12381.g1Gen :: repeat g1Dbl 511.

Definition oneSignerWitness : Eth2ScUpdateCircuit :=
  sampleWitness sampleHeader oneSignerKeys (1 :: repeat 0 511) [] [] [].

(** Nobody signed. *)
Definition noSignerWitness : Eth2ScUpdateCircuit :=
  sampleWitness sampleHeader oneSignerKeys (repeat 0 512) [] [] [].

(** A fresh checkout with a writable build directory. *)
Definition emptyWorld : World := mkWorld ∅ (fun _ => true) 0 [].

(** The same after a first run of the setup command stored the compiled
    circuit. *)
Definition cachedWorld : World :=
  mkWorld {[ "./.build/ScUpdateVerifierCircuit.ccs" := FileCCS (CompiledCS "ScUpdateVerifierCircuit") ]}
          (fun _ => true) 0 [].

(** The test's cache present, with the keys. *)
Definition testCachedWorld : World :=
  mkWorld (<[ "repo/.build/Eth2ScUpdateCircuit.ccs" := FileCCS (CompiledCS "Eth2ScUpdateCircuit") ]>
           (<[ "repo/.build/Eth2ScUpdateCircuit.pk" := FilePK (PK (CompiledCS "Eth2ScUpdateCircuit") 7) ]>
            (<[ "repo/.build/Eth2ScUpdateCircuit.vk" := FileVK (VK (CompiledCS "Eth2ScUpdateCircuit") 7) ]>
             ∅)))
          (fun _ => true) 8 [].

Definition sampleConfig : Config := mkConfig "relayer" "http://localhost:5052" 1104 0.

Definition freshRelayer : Relayer :=
  mkRelayer sampleConfig None None [] (repeat bls12381.infinity 512).

(** A stand-in for the libraries: 48-byte keys deserialize, a signature
    deserializes when its compression flag is set, proofs succeed. *)
Definition sampleBackend : Backend :=
  {| G1_SetBytes := fun b => if (length b =? 48)%nat then Ok bls12381.g1Gen
                             else Err "short buffer";
     G2_SetBytes := fun b => match b with
                             | c :: _ => if 0x80 <=? c then Ok sampleG2
                                         else Err "invalid encoding"
                             | [] => Err "short buffer"
                             end;
     SyncCommittee_HashTreeRoot := fun _ _ => repeat 0 32;
     frontend_NewWitness := fun c => Ok c;
     groth16_Prove := fun _ _ _ => Ok [];
     MarshalSolidity := fun _ => Some (repeat 0 388) |}.

(** An update with a well-formed signature, and one whose 96 signature
    bytes are no point encoding. *)
Definition sampleUpdate : LightClientUpdate :=
  mkUpdate sampleHeader (repeat (repeat 0 48) 512) (repeat 0 48)
           (repeat (repeat 0 32) 6) (repeat 0xff 64) (0x80 :: repeat 0 95).

Definition malformedUpdate : LightClientUpdate :=
  mkUpdate sampleHeader (repeat (repeat 0 48) 512) (repeat 0 48)
           (repeat (repeat 0 32) 6) (repeat 0xff 64) (repeat 0 96).

(** The network answers the first call, fails the second, then serves the
    malformed update. *)
Definition sampleFetcher : Fetcher :=
  {| ScUpdate := fun calls _ =>
       match calls with
       | 0%nat => Ok sampleUpdate
       | 1%nat => Err "connection refused"
       | _ => Ok malformedUpdate
       end |}.

(* ===================================================================== *)
(** ** Package [types]: hexadecimal byte strings and the signing domain *)
(* ===================================================================== *)

(** A Go [string] is a [string]; [s[n:]] drops [n] bytes. *)
Fixpoint string_drop (n : nat) (s : string) : string :=
  match n, s with
  | O, _ => s
  | S k, String _ s' => string_drop k s'
  | S _, EmptyString => EmptyString
  end.

(** [strings.HasPrefix] and [strings.TrimPrefix] *)
Definition HasPrefix (s prefix : string) : bool := String.prefix prefix s.

Definition TrimPrefix (s prefix : string) : string :=
  if HasPrefix s prefix then string_drop (String.length prefix) s else s.

(** The byte of a character, and the double quote. *)
Definition byte_of (c : ascii) : Z := Z.of_nat (nat_of_ascii c).
Definition dquote : ascii := "034"%char.

(** *** Package [encoding/hex] *)

Module hex.

Definition hextable : list ascii := list_ascii_of_string "0123456789abcdef".

Definition ErrLength : string := "encoding/hex: odd length hex string".
Definition InvalidByteError (c : ascii) : string :=
  "encoding/hex: invalid byte: " +:+ String c EmptyString.

(** [EncodeToString]: two lower-case digits per byte, [v>>4] then [v&0x0f]. *)
Fixpoint EncodeToString (src : list Z) : string :=
  match src with
  | [] => EmptyString
  | v :: rest =>
      String (nth (Z.to_nat (Z.shiftr v 4)) hextable "0"%char)
        (String (nth (Z.to_nat (Z.land v 0x0f)) hextable "0"%char)
           (EncodeToString rest))
  end.

(** The value of a digit of either case. *)
Definition fromHexChar (c : ascii) : option Z :=
  let n := byte_of c in
  if (48 <=? n) && (n <=? 57) then Some (n - 48)
  else if (97 <=? n) && (n <=? 102) then Some (n - 97 + 10)
  else if (65 <=? n) && (n <=? 70) then Some (n - 65 + 10)
  else None.

(** [DecodeString]: the first invalid character is reported before an odd
    length. *)
Fixpoint DecodeString (s : string) : result (list Z) :=
  match s with
  | EmptyString => Ok []
  | String p EmptyString =>
      match fromHexChar p with
      | None => Err (InvalidByteError p)
      | Some _ => Err ErrLength
      end
  | String p (String q rest) =>
      match fromHexChar p with
      | None => Err (InvalidByteError p)
      | Some a =>
        match fromHexChar q with
        | None => Err (InvalidByteError q)
        | Some b =>
            bz ← DecodeString rest;
            Ok (Z.lor (Z.shiftl a 4) b :: bz)
        end
      end
  end.

End hex.

(** [HexToBytes] *)
Definition HexToBytes (hexStr : string) : result (list Z) :=
  let hexStr := if HasPrefix hexStr "0x" then string_drop 2 hexStr else hexStr in
  hex.DecodeString hexStr.

(** [isHex] *)
Definition isHex (s : string) : bool :=
  let v := s in
  if negb (String.length v mod 2 =? 0)%nat then false
  else
    let v := if HasPrefix v "0x" then string_drop 2 v else v in
    forallb (fun c => let b := byte_of c in
                      (48 <=? b) && (b <=? 57) || (97 <=? b) && (b <=? 102)
                      || (65 <=? b) && (b <=? 70))
            (list_ascii_of_string v).

(** *** [HexBytes] *)

Section HexBytes.

(** [base64.StdEncoding.DecodeString] *)
Variable base64_DecodeString : string -> result (list Z).

(** [HexBytes.String] *)
Definition HexBytes_String (b : list Z) : string := hex.EncodeToString b.

(** [HexBytes.MarshalJSON]: the quoted, [0x]-prefixed digits. *)
Definition MarshalJSON (hb : list Z) : string :=
  let s := "0x" +:+ hex.EncodeToString hb in
  String dquote (s +:+ String dquote EmptyString).

(** [HexBytes.UnmarshalJSON]: the bytes stored in the receiver, or the
    error returned (the receiver is then left as it was). *)
Definition UnmarshalJSON (data : string) : result (list Z) :=
  if (String.length data <? 2)%nat
     || negb (bool_decide (String.get 0 data = Some dquote))
     || negb (bool_decide (String.get (String.length data - 1) data = Some dquote))
  then Err ("invalid hex string: " +:+ data)
  else
    let val := String.substring 1 (String.length data - 2) data in
    if isHex val then
      let str := TrimPrefix val "0x" in
      hex.DecodeString str
    else
      base64_DecodeString val.

End HexBytes.

(** *** [ComputeDomain] *)

(** [copy(dst[off:], src)] on a fixed-size array. *)
Definition copy_at (dst : list Z) (off : nat) (src : list Z) : list Z :=
  firstn off dst
  ++ firstn (length dst - off) src
  ++ skipn (off + length src) dst.

(** [ComputeDomain]: the domain type followed by the first 28 bytes of the
    root of the fork data. *)
Definition ComputeDomain (domainType forkVersion genesisValidatorsRoot : list Z)
  : result (list Z) :=
  let domain := repeat 0 32 in
  if negb (length domainType =? 4)%nat then
    Err ("domainType must be 4 bytes, got " +:+ pretty (length domainType))
  else if negb (length forkVersion =? 4)%nat then
    Err ("forkVersion must be 4 bytes, got " +:+ pretty (length forkVersion))
  else if negb (length genesisValidatorsRoot =? 32)%nat then
    Err ("genesisValidatorsRoot must be 32 bytes, got "
         +:+ pretty (length genesisValidatorsRoot))
  else
    (* Step 1: fork_data_root *)
    let forkVersionChunk := copy_at (repeat 0 32) 0 (firstn 4 forkVersion) in
    let hasher := forkVersionChunk ++ firstn 32 genesisValidatorsRoot in
    let forkDataRoot := sha256 hasher in
    (* Step 2: domain = domain_type || fork_data_root[:28] *)
    let domain := copy_at domain 0 (firstn 4 domainType) in
    let domain := copy_at domain 4 (firstn 28 forkDataRoot) in
    Ok domain.

(** The parameters the circuit's [DOMAIN] is documented to come from. *)
Definition DOMAIN_SYNC_COMMITTEE : list Z := [0x07; 0x00; 0x00; 0x00].
Definition fuluForkVersion : list Z := [0x90; 0x00; 0x00; 0x75].
Definition genesisValidatorsRoot : list Z :=
  be_bytes 32 0xd8ea171f3c94aea21ebc42a1ed61052acf3f9209c00e4efbaaddac09ed9b8078.

(* ===================================================================== *)
(** ** Package [provers/types]: the configuration *)
(* ===================================================================== *)

Module strconv.

Inductive NumError := ErrSyntax | ErrRange.

Definition maxUint64 : Z := 2 ^ 64 - 1.

(** [lower(c)]: [c | ('x' - 'X')] *)
Definition lower (c : Z) : Z := Z.lor c 0x20.

(** The loop of [ParseUint(s, 10, 64)] over the bytes of [s]. *)
Fixpoint ParseUint_loop (cs : list ascii) (n : Z) : Z * option NumError :=
  match cs with
  | [] => (n, None)
  | c :: cs' =>
      let base := 10 in
      let cutoff := maxUint64 / 10 + 1 in
      let maxVal := maxUint64 in
      let c := byte_of c in
      let d := if (48 <=? c) && (c <=? 57) then Some (c - 48)
               else if (97 <=? lower c) && (lower c <=? 122) then Some (lower c - 97 + 10)
               else None in
      match d with
      | None => (0, Some ErrSyntax)
      | Some d =>
          if base <=? d then (0, Some ErrSyntax)
          else if cutoff <=? n then (maxVal, Some ErrRange)       (* n*base overflows *)
          else
            let n := (n * base) mod 2 ^ 64 in
            let n1 := (n + d) mod 2 ^ 64 in
            if (n1 <? n) || (maxVal <? n1) then (maxVal, Some ErrRange)  (* n+d overflows *)
            else ParseUint_loop cs' n1
      end
  end.

(** [ParseUint(s, 10, 64)]: the value and the error. *)
Definition ParseUint (s : string) : Z * option NumError :=
  match s with
  | EmptyString => (0, Some ErrSyntax)
  | _ => ParseUint_loop (list_ascii_of_string s) 0
  end.

End strconv.

(** [getEnv]: the variable, or the default when it is unset or empty. *)
Definition getEnv (env : gmap string string) (key defaultValue : string) : string :=
  let value := default EmptyString (env !! key) in
  if negb (String.eqb value EmptyString) then value else defaultValue.

(** The loop of [NewConfig] from index [i]; a case that consumes its value
    skips one more index.  [fuel] bounds the number of iterations. *)
Fixpoint NewConfig_loop (fuel : nat) (args : list string) (i : nat) (config : Config)
  : outcome Config :=
  match fuel with
  | O => Done config
  | S fuel =>
    if negb (i <? length args)%nat then Done config
    else if (length args <=? i + 1)%nat then
      match i with
      | O => Panicked "runtime error: index out of range [-1]"
      | S j => Panicked ("missing argument for " +:+ nth j args EmptyString)
      end
    else
      let arg := nth i args EmptyString in
      let value := nth (i + 1) args EmptyString in
      if String.eqb arg "--slot" then
        NewConfig_loop fuel args (i + 2)
          (mkConfig (RootDir config) (RPCEndpoint config) (InitPeriod config)
                    (fst (strconv.ParseUint value)))
      else if String.eqb arg "--root" then
        NewConfig_loop fuel args (i + 2)
          (mkConfig value (RPCEndpoint config) (InitPeriod config) (cfgSlot config))
      else if String.eqb arg "--init-period" then
        NewConfig_loop fuel args (i + 2)
          (mkConfig (RootDir config) (RPCEndpoint config)
                    (fst (strconv.ParseUint value)) (cfgSlot config))
      else if String.eqb arg "--rpc" then
        NewConfig_loop fuel args (i + 2)
          (mkConfig (RootDir config) value (InitPeriod config) (cfgSlot config))
      else
        NewConfig_loop fuel args (i + 1) config
  end.

(** [NewConfig(args...)] in the environment [env]; every iteration advances
    the index, so [len(args)] iterations are enough. *)
Definition NewConfig (env : gmap string string) (args : list string) : outcome Config :=
  let config :=
    mkConfig (getEnv env "ROOT" ".")
             (getEnv env "RPC_ENDPOINT" "https://lodestar-sepolia.chainsafe.io/")
             0 0 in
  NewConfig_loop (length args) args 0 config.

(** *** What the options mean *)

(** The configuration before any option is read. *)
Definition defaultConfig (env : gmap string string) : Config :=
  mkConfig (getEnv env "ROOT" ".")
           (getEnv env "RPC_ENDPOINT" "https://lodestar-sepolia.chainsafe.io/")
           0 0.

Definition is_option (arg : string) : bool :=
  String.eqb arg "--slot" || String.eqb arg "--root"
  || String.eqb arg "--init-period" || String.eqb arg "--rpc".

(** The decimal value of a string of digits. *)
Definition decimal_value (s : string) : Z :=
  fold_left (fun acc c => acc * 10 + (byte_of c - 48)) (list_ascii_of_string s) 0.

Definition is_digit (c : ascii) : bool := (48 <=? byte_of c) && (byte_of c <=? 57).

Definition is_decimal (s : string) : bool :=
  negb (String.eqb s EmptyString) && forallb is_digit (list_ascii_of_string s).

(** The effect of one option with its value. *)
Definition set_option (config : Config) (ov : string * string) : Config :=
  let '(opt, value) := ov in
  if String.eqb opt "--slot" then
    mkConfig (RootDir config) (RPCEndpoint config) (InitPeriod config) (fst (strconv.ParseUint value))
  else if String.eqb opt "--root" then
    mkConfig value (RPCEndpoint config) (InitPeriod config) (cfgSlot config)
  else if String.eqb opt "--init-period" then
    mkConfig (RootDir config) (RPCEndpoint config) (fst (strconv.ParseUint value)) (cfgSlot config)
  else if String.eqb opt "--rpc" then
    mkConfig (RootDir config) value (InitPeriod config) (cfgSlot config)
  else config.

(** The command line made of option/value pairs. *)
Definition option_args (opts : list (string * string)) : list string :=
  concat (map (fun ov : string * string => [fst ov; snd ov]) opts).

(* ===================================================================== *)
(** ** The contracts: EVM words and byte regions *)
(* ===================================================================== *)

(** A [uint256] is a [Z] in [0, 2^256); a [bytes32] is a list of 32
    bytes; a reverting call is [None]. *)
Module evm.

Definition uint256 (x : Z) : Z := x mod 2 ^ 256.

Definition addmod (a b n : Z) : Z := if n =? 0 then 0 else (a + b) mod n.
Definition mulmod (a b n : Z) : Z := if n =? 0 then 0 else (a * b) mod n.

(** [shl(shift, value)] and [shr(shift, value)]; [value << shift] and
    [value >> shift] of Solidity truncate alike. *)
Definition shl (shift value : Z) : Z :=
  if 256 <=? shift then 0 else uint256 (Z.shiftl value shift).
Definition shr (shift value : Z) : Z := Z.shiftr value shift.

(** The MODEXP precompile on 32-byte operands: [b ^ e mod m]. *)
Definition modexp (b e m : Z) : Z :=
  if m =? 0 then 0
  else match e with
       | Zpos p => fp.pow_mod_pos b p m
       | _ => 1 mod m
       end.

(** [mload] and [calldataload]: the 32-byte word at [off] of a byte region;
    past the end of the region the bytes read as zero. *)
Definition load (region : list Z) (off : Z) : Z :=
  OS2IP (firstn 32 (skipn (Z.to_nat off) region ++ repeat 0 32)).

(** [mstore]: the 32 bytes of a word written at [off] of a region (what
    falls past the end of the region is outside the model). *)
Definition store (region : list Z) (off : Z) (w : Z) : list Z :=
  firstn (Z.to_nat off) region
  ++ firstn (length region - Z.to_nat off) (be_bytes 32 w)
  ++ skipn (Z.to_nat off + 32) region.

(** A word as [bytes32], as [abi.encodePacked] lays it out. *)
Definition bytes32 (w : Z) : list Z := be_bytes 32 w.

End evm.

(* ===================================================================== *)
(** ** Contract [ScUpdateVerifier]: field arithmetic and point compression *)
(* ===================================================================== *)

Module ScUpdateVerifier.

Import evm.

(** Base field order of BN254. *)
Definition P : Z := 0x30644e72e131a029b85045b68181585d97816a916871ca8d3c208c16d87cfd47.

(** Constants in Fp *)
Definition FRACTION_1_2_FP : Z :=
  0x183227397098d014dc2822db40c0ac2ecbc0b548b438e5469e10460b6c3e7ea4.
Definition FRACTION_27_82_FP : Z :=
  0x2b149d40ceb8aaae81be18991be06ac3b5b4c5e559dbefa33267e6dc24a138e5.
Definition FRACTION_3_82_FP : Z :=
  0x2fcd3ac2a640a154eb23960892a85a68f031ca0c8344b23a577dcf1052b9e775.

(** Exponents for inversions and square roots mod P *)
Definition EXP_INVERSE_FP : Z :=
  0x30644E72E131A029B85045B68181585D97816A916871CA8D3C208C16D87CFD45.
Definition EXP_SQRT_FP : Z :=
  0xC19139CB84C680A6E14116DA060561765E05AA45A1C72A34F082305B61F3F52.

(** [negate]: a number [x] such that [a + x = 0] in Fp. *)
Definition negate (a : Z) : Z := (P - (a mod P)) mod P.

(** [exp]: the call of the precompile is taken to succeed. *)
Definition exp (a e : Z) : Z := modexp a e P.

(** [invert_Fp]: reverts if the inverse does not exist. *)
Definition invert_Fp (a : Z) : option Z :=
  let x := exp a EXP_INVERSE_FP in
  if negb (mulmod a x P =? 1) then None else Some x.

(** [sqrt_Fp]: reverts if the input is not a square or not reduced. *)
Definition sqrt_Fp (a : Z) : option Z :=
  let x := exp a EXP_SQRT_FP in
  if negb (mulmod x x P =? a) then None else Some x.

Definition isSquare_Fp (a : Z) : bool :=
  let x := exp a EXP_SQRT_FP in
  mulmod x x P =? a.

(** [sqrt_Fp2] *)
Definition sqrt_Fp2 (a0 a1 : Z) (hint : bool) : option (Z * Z) :=
  d ← sqrt_Fp (addmod (mulmod a0 a0 P) (mulmod a1 a1 P) P);
  let d := if hint then negate d else d in
  x0 ← sqrt_Fp (mulmod (addmod a0 d P) FRACTION_1_2_FP P);
  inv ← invert_Fp (mulmod x0 2 P);
  let x1 := mulmod a1 inv P in
  if negb (a0 =? addmod (mulmod x0 x0 P) (negate (mulmod x1 x1 P)) P)
     || negb (a1 =? mulmod 2 (mulmod x0 x1 P) P)
  then None
  else Some (x0, x1).

(** [compress_g1]: [x] with one sign bit. *)
Definition compress_g1 (x y : Z) : option Z :=
  if (P <=? x) || (P <=? y) then None
  else if (x =? 0) && (y =? 0) then Some 0
  else
    y_pos ← sqrt_Fp (addmod (mulmod (mulmod x x P) x P) 3 P);
    if y =? y_pos then Some (Z.lor (shl 1 x) 0)
    else if y =? negate y_pos then Some (Z.lor (shl 1 x) 1)
    else None.

(** [decompress_g1] *)
Definition decompress_g1 (c : Z) : option (Z * Z) :=
  if c =? 0 then Some (0, 0)
  else
    let negate_point := Z.land c 1 =? 1 in
    let x := shr 1 c in
    if P <=? x then None
    else
      y ← sqrt_Fp (addmod (mulmod (mulmod x x P) x P) 3 P);
      let y := if negate_point then negate y else y in
      Some (x, y).

(** The square of the ordinate of the G2 point of abscissa [x0 + x1 i]. *)
Definition g2_y_squared (x0 x1 : Z) : Z * Z :=
  let n3ab := mulmod (mulmod x0 x1 P) (P - 3) P in
  let a_3 := mulmod (mulmod x0 x0 P) x0 P in
  let b_3 := mulmod (mulmod x1 x1 P) x1 P in
  (addmod FRACTION_27_82_FP (addmod a_3 (mulmod n3ab x1 P) P) P,
   negate (addmod FRACTION_3_82_FP (addmod b_3 (mulmod n3ab x0 P) P) P)).

(** [compress_g2]: [x0] with two signal bits, and [x1]. *)
Definition compress_g2 (x0 x1 y0 y1 : Z) : option (Z * Z) :=
  if (P <=? x0) || (P <=? x1) || (P <=? y0) || (P <=? y1) then None
  else if Z.lor (Z.lor (Z.lor x0 x1) y0) y1 =? 0 then Some (0, 0)
  else
    let '(y0_pos, y1_pos) := g2_y_squared x0 x1 in
    d ← sqrt_Fp (addmod (mulmod y0_pos y0_pos P) (mulmod y1_pos y1_pos P) P);
    let hint := negb (isSquare_Fp (mulmod (addmod y0_pos d P) FRACTION_1_2_FP P)) in
    '(y0_pos, y1_pos) ← sqrt_Fp2 y0_pos y1_pos hint;
    if (y0 =? y0_pos) && (y1 =? y1_pos) then
      Some (Z.lor (Z.lor (shl 2 x0) (if hint then 2 else 0)) 0, x1)
    else if (y0 =? negate y0_pos) && (y1 =? negate y1_pos) then
      Some (Z.lor (Z.lor (shl 2 x0) (if hint then 2 else 0)) 1, x1)
    else None.

(** [decompress_g2] *)
Definition decompress_g2 (c0 c1 : Z) : option (Z * Z * Z * Z) :=
  if (c0 =? 0) && (c1 =? 0) then Some (0, 0, 0, 0)
  else
    let negate_point := Z.land c0 1 =? 1 in
    let hint := Z.land c0 2 =? 2 in
    let x0 := shr 2 c0 in
    let x1 := c1 in
    if (P <=? x0) || (P <=? x1) then None
    else
      let '(y0, y1) := g2_y_squared x0 x1 in
      '(y0, y1) ← sqrt_Fp2 y0 y1 hint;
      if negate_point then Some (x0, x1, negate y0, negate y1)
      else Some (x0, x1, y0, y1).

End ScUpdateVerifier.

(* ===================================================================== *)
(** ** Contract [LightClient] *)
(* ===================================================================== *)

Module LightClient.

(** The storage of the contract; a period without an entry in the mapping
    reads as the zero [bytes32]. *)
Record storage := mkStorage {
  lastPeriod : Z;
  scPubkeysHashes : gmap Z (list Z)
}.

Definition scPubkeysHashes_at (s : storage) (period : Z) : list Z :=
  default (repeat 0 32) (scPubkeysHashes s !! period).

(** What surrounds the data of a call, read by the assembly blocks without
    effect on the results: the calldata that follows [nextSc], the memory
    that follows the copy of [nextSc] and the memory that follows
    [allLimbs]. *)
Record surroundings := mkSurroundings {
  calldata_after : list Z;
  memory_after_data : list Z;
  memory_after_limbs : list Z
}.

(** The constructor: the initial period and its commitment. *)
Definition constructor (_initialPeriod : Z) (_initialScPubkeysHash : list Z) : storage :=
  let lastPeriod := _initialPeriod in
  mkStorage lastPeriod (<[lastPeriod := _initialScPubkeysHash]> ∅).

(** Beacon chain constants *)
Definition SLOTS_PER_EPOCH : Z := 32.
Definition EPOCHS_PER_SYNC_COMMITTEE_PERIOD : Z := 256.

Definition HIGH_16_BYTES : Z :=
  0xffffffffffffffffffffffffffffffff00000000000000000000000000000000.

(** One level of the tree of [_scRoot]:
    [next[i] = sha256(prev[i * 2] ++ prev[i * 2 + 1])] for [i < n]. *)
Definition hash_pairs (prev : list (list Z)) (n : nat) : list (list Z) :=
  map (fun i => sha256 (nth (i * 2) prev [] ++ nth (i * 2 + 1) prev [])) (seq 0 n).

(** [_scRoot]: the hash-tree-root of the serialized sync committee. *)
Definition _scRoot (syncCommitteeData memory_after : list Z) : option (list Z) :=
  if negb (Z.of_nat (length syncCommitteeData) =? 24624) then None
  else
    let mem := syncCommitteeData ++ memory_after in
    (* Part 1: pubkeys root *)
    let leaves :=
      map (fun i =>
             let offset := i * 48 in
             let chunk0 := evm.load mem offset in
             let data := evm.load mem (offset + 32) in
             let chunk1 := Z.land data HIGH_16_BYTES in
             sha256 (evm.bytes32 chunk0 ++ evm.bytes32 chunk1))
          (map Z.of_nat (seq 0 512)) in
    let level1 := hash_pairs leaves 256 in
    let level2 := hash_pairs level1 128 in
    let level3 := hash_pairs level2 64 in
    let level4 := hash_pairs level3 32 in
    let level5 := hash_pairs level4 16 in
    let level6 := hash_pairs level5 8 in
    let level7 := hash_pairs level6 4 in
    let level8 := hash_pairs level7 2 in
    let pubkeysRoot := sha256 (nth 0 level8 [] ++ nth 1 level8 []) in
    (* Part 2: aggregate_pubkey root *)
    let aggChunk0 := evm.load mem 24576 in
    let data := evm.load mem 24608 in
    let aggChunk1 := Z.land data HIGH_16_BYTES in
    let aggregatePubkeyRoot := sha256 (evm.bytes32 aggChunk0 ++ evm.bytes32 aggChunk1) in
    (* Part 3: container root *)
    Some (sha256 (pubkeysRoot ++ aggregatePubkeyRoot)).

(** [_pubKeysHash]: SHA-256 over bytes [32..48) of each of the 512 keys. *)
Definition _pubKeysHash (pubKeys calldata_after memory_after : list Z)
  : option (list Z) :=
  if negb (512 <=? Z.of_nat (length pubKeys)) then None
  else
    let numPubkeys := 512 in
    let calldata := pubKeys ++ calldata_after in
    let mem := repeat 0 (Z.to_nat (numPubkeys * 16)) ++ memory_after in
    let mem :=
      fold_left
        (fun mem i =>
           let offset := i * 48 in
           let allLimbsOffset := i * 16 in
           let lsb16 := evm.load calldata (offset + 32) in
           let lsb16 := evm.shl 128 (evm.shr 128 lsb16) in
           evm.store mem allLimbsOffset lsb16)
        (map Z.of_nat (seq 0 (Z.to_nat numPubkeys))) mem in
    let allLimbs := firstn (Z.to_nat (numPubkeys * 16)) mem in
    Some (sha256 allLimbs).

Section UpdateSyncCommittee.

(** [verifier.verifyProof]: [true] when the call returns, [false] when it
    reverts. *)
Variable verifyProof : list Z -> list Z -> list Z -> list Z -> bool.

(** [updateSyncCommittee]: the storage after the call, [None] when it
    reverts (the storage is then unchanged). *)
Definition updateSyncCommittee (s : storage)
    (proof commitments commitmentPok : list Z) (slot : Z) (nextSc : list Z)
    (around : surroundings) : option storage :=
  if negb (Z.of_nat (length nextSc) =? 24624) then None
  else
    let _period := slot / (SLOTS_PER_EPOCH * EPOCHS_PER_SYNC_COMMITTEE_PERIOD) in
    if negb (_period =? lastPeriod s) then None
    else
      nextScRoot ← _scRoot nextSc (memory_after_data around);
      let input := repeat 0 64 in
      let currScPubKeyHash := scPubkeysHashes_at s (lastPeriod s) in
      let input :=
        fold_left (fun (input : list Z) (i : nat) => <[i := nth i currScPubKeyHash 0]> input)
                  (seq 0 32) input in
      let input :=
        fold_left (fun (input : list Z) (i : nat) => <[(i + 32)%nat := nth i nextScRoot 0]> input)
                  (seq 0 32) input in
      if negb (verifyProof proof commitments commitmentPok input) then None
      else
        let lastPeriod' := _period + 1 in
        if 2 ^ 256 <=? lastPeriod' then None
        else
          h ← _pubKeysHash nextSc (calldata_after around) (memory_after_limbs around);
          Some (mkStorage lastPeriod' (<[lastPeriod' := h]> (scPubkeysHashes s))).

(** The states the contract reaches from [s] by calls of
    [updateSyncCommittee] that do not revert. *)
Inductive updates (s : storage) : storage -> Prop :=
| updates_none : updates s s
| updates_call (s' s'' : storage) (proof commitments commitmentPok : list Z) (slot : Z)
    (nextSc : list Z) (around : surroundings) :
    updates s s' ->
    updateSyncCommittee s' proof commitments commitmentPok slot nextSc around = Some s'' ->
    updates s s''.

End UpdateSyncCommittee.

(** *** The serialized sync committee *)

(** [pubkeys ++ aggregate_pubkey], 48 bytes each. *)
Definition serialize (pubkeys : list (list Z)) (aggregate_pubkey : list Z) : list Z :=
  concat pubkeys ++ aggregate_pubkey.

(** The hash-tree-root of a [BLSPubkey]: 48 bytes packed into two chunks. *)
Definition pubkey_root (pubkey : list Z) : list Z :=
  merkle_root 1 [firstn 32 pubkey; skipn 32 pubkey ++ repeat 0 16].

(** The hash-tree-root of the container [SyncCommittee]: the root of the
    vector of 512 keys and the root of the aggregate key. *)
Definition sync_committee_root (pubkeys : list (list Z)) (aggregate_pubkey : list Z)
  : list Z :=
  merkle_root 1 [merkle_root 9 (map pubkey_root pubkeys); pubkey_root aggregate_pubkey].

End LightClient.

(** *** A sample call *)

(** A verifier that accepts every proof. *)
Definition acceptAll : list Z -> list Z -> list Z -> list Z -> bool := fun _ _ _ _ => true.

Definition samplePubkeys : list (list Z) :=
  map (fun k => bls12381.Bytes (bls12381.X k)) sampleKeys.

Definition sampleNextSc : list Z := LightClient.serialize samplePubkeys (repeat 0 48).

Definition sampleAround : LightClient.surroundings := LightClient.mkSurroundings [] [] [].

Definition sampleStorage : LightClient.storage := LightClient.constructor 0 (repeat 0 32).

(** The storage after the sample call. *)
Definition sampleStorage' : LightClient.storage :=
  LightClient.mkStorage 1
    (<[1 := ComputeScPubKeysHash sampleKeys]> (LightClient.scPubkeysHashes sampleStorage)).

(* ===================================================================== *)
(** ** Across the components *)
(* ===================================================================== *)

(** RFC 9380, section 5.2, [hash_to_field] with [L = 64]: the element read
    at [elm_offset = L * k] of the uniform bytes, [OS2IP(tv) mod p]. *)
Definition hash_to_field_element (uniform_bytes : list Z) (k : nat) : fp.Element :=
  let elm_offset := (64 * k)%nat in
  let tv := firstn 64 (skipn elm_offset uniform_bytes) in
  fp.ValueOf (OS2IP tv mod fp.Modulus).


(** A deserializer that reads the abscissa of a 48-byte key: the value of
    the bytes without the three flag bits. *)
Definition decodingBackend : Backend :=
  {| G1_SetBytes := fun b => if (length b =? 48)%nat
                             then Ok (bls12381.mkG1 (OS2IP b mod 2 ^ 381) 0)
                             else Err "short buffer";
     G2_SetBytes := fun _ => Ok sampleG2;
     SyncCommittee_HashTreeRoot := LightClient.sync_committee_root;
     frontend_NewWitness := fun c => Ok c;
     groth16_Prove := fun _ _ _ => Ok [];
     MarshalSolidity := fun _ => Some (repeat 0 388) |}.

(** A network that always answers with the sample update. *)
Definition steadyFetcher : Fetcher := {| ScUpdate := fun _ _ => Ok sampleUpdate |}.

(** FIPS 180-4 test vectors. *)
Example sha256_abc :
  sha256 [0x61; 0x62; 0x63] =
  be_bytes 32 0xba7816bf8f01cfea414140de5dae2223b00361a396177a9cb410ff61f20015ad.
Proof. vm_compute. reflexivity. Qed.

Example sha256_empty :
  sha256 [] =
  be_bytes 32 0xe3b0c44298fc1c149afbf4c8996fb92427ae41e4649b934ca495991b7852b855.
Proof. vm_compute. reflexivity. Qed.

(* ===================================================================== *)
(** ** Basic facts on the encodings *)
(* ===================================================================== *)

Lemma be_bytes_length n v : length (be_bytes n v) = n.
Proof.
  revert v; induction n as [|n IH]; intros v; simpl; [reflexivity|].
  rewrite length_app, IH; simpl; lia.
Qed.

Lemma le_bytes_length n v : length (le_bytes n v) = n.
Proof.
  revert v; induction n as [|n IH]; intros v; simpl; [reflexivity|].
  now rewrite IH.
Qed.

Lemma be_bytes_rev_le n v : be_bytes n v = rev (le_bytes n v).
Proof.
  revert v; induction n as [|n IH]; intros v; simpl; [reflexivity|].
  now rewrite IH.
Qed.

Lemma be_bytes_is_byte n v : Forall is_byte (be_bytes n v).
Proof.
  revert v; induction n as [|n IH]; intros v; simpl; [constructor|].
  apply Forall_app; split; [apply IH|].
  constructor; [|constructor]. unfold is_byte. apply Z.mod_pos_bound; lia.
Qed.

Lemma sha256_length msg : length (sha256 msg) = 32%nat.
Proof.
  unfold sha256, SHA256.sha256, SHA256.digest.
  rewrite !length_app, !be_bytes_length. reflexivity.
Qed.

Lemma sha256_is_byte msg : Forall is_byte (sha256 msg).
Proof.
  unfold sha256, SHA256.sha256, SHA256.digest.
  generalize (fold_left SHA256.compress
                (chunks (length (SHA256.pad msg)) 64 (SHA256.pad msg)) SHA256.H0).
  intros s. rewrite !Forall_app. repeat split; apply be_bytes_is_byte.
Qed.

Example sha256_constants :
  nth 0 SHA256.K 0 = 0x428a2f98 /\ nth 63 SHA256.K 0 = 0xc67178f2
  /\ SHA256.sa SHA256.H0 = 0x6a09e667 /\ SHA256.sh SHA256.H0 = 0x5be0cd19.
Proof. repeat split; reflexivity. Qed.

(* ===================================================================== *)
(** ** Constraint folds *)
(* ===================================================================== *)

Lemma fold_left_None {A B} (f : A -> B -> option A) (l : list B) :
  fold_left (fun st x => a ← st; f a x) l None = None.
Proof. induction l as [|x l IH]; simpl; [reflexivity | exact IH]. Qed.

Lemma fold_left_fixpoint {A B} (f : A -> B -> A) (l : list B) (a : A) :
  (forall x, In x l -> f a x = a) -> fold_left f l a = a.
Proof.
  induction l as [|x l IH]; simpl; intros Hfix; [reflexivity|].
  rewrite Hfix by (now left). apply IH. intros y Hy. apply Hfix. now right.
Qed.

Lemma AssertIsEqual_Some a b : api.AssertIsEqual a b = Some tt <-> a = b.
Proof.
  unfold api.AssertIsEqual. destruct (Z.eqb_spec a b); split; intros; congruence.
Qed.

Lemma assert_fold_Some (a b : list Z) (l : list nat) :
  fold_left (fun (st : option unit) (i : nat) =>
               _ ← st; api.AssertIsEqual (nth i a 0) (nth i b 0)) l (Some tt) = Some tt
  <-> (forall i, In i l -> nth i a 0 = nth i b 0).
Proof.
  induction l as [|i l IH]; simpl.
  - split; [intros _ i [] | reflexivity].
  - destruct (api.AssertIsEqual (nth i a 0) (nth i b 0)) as [[]|] eqn:E.
    + apply AssertIsEqual_Some in E. rewrite IH. split.
      * intros Hl j [<-|Hj]; [exact E | now apply Hl].
      * intros Hl j Hj. apply Hl. now right.
    + rewrite fold_left_None. split; [discriminate|].
      intros Hl. assert (Heq : nth i a 0 = nth i b 0) by (apply Hl; now left).
      apply AssertIsEqual_Some in Heq. congruence.
Qed.

(** The 32 byte-wise assertions hold exactly when the arrays are equal. *)
Lemma assertBytes32Equal_Some (a b : list Z) :
  length a = 32%nat -> length b = 32%nat ->
  (assertBytes32Equal a b = Some tt <-> a = b).
Proof.
  intros Ha Hb. unfold assertBytes32Equal. rewrite assert_fold_Some. split.
  - intros Hnth. apply (nth_ext a b 0 0); [congruence|].
    intros i Hi. apply Hnth. apply in_seq. lia.
  - intros -> i _. reflexivity.
Qed.

Lemma assertBytes32Equal_cases (a b : list Z) :
  assertBytes32Equal a b = Some tt \/ assertBytes32Equal a b = None.
Proof. destruct (assertBytes32Equal a b) as [[]|]; auto. Qed.

(* ===================================================================== *)
(** ** Bit decomposition and byte packing *)
(* ===================================================================== *)

Lemma ToBinary_64 v :
  0 <= v < 2 ^ 64 ->
  api.ToBinary v 64 = Some (map (fun i => Z.b2z (Z.testbit v (Z.of_nat i))) (seq 0 64)).
Proof.
  intros Hv. unfold api.ToBinary.
  replace (Z.of_nat 64) with 64 by reflexivity.
  destruct (Z.leb_spec 0 v); [|lia]. destruct (Z.ltb_spec v (2 ^ 64)); [|lia].
  reflexivity.
Qed.

Lemma ToBinary_64_None v :
  ~ 0 <= v < 2 ^ 64 -> api.ToBinary v 64 = None.
Proof.
  intros Hv. unfold api.ToBinary.
  replace (Z.of_nat 64) with 64 by reflexivity.
  destruct (Z.leb_spec 0 v); destruct (Z.ltb_spec v (2 ^ 64)); simpl; try reflexivity; lia.
Qed.

Lemma nth_map_seq {A} (f : nat -> A) (d : A) (i n : nat) :
  (i < n)%nat -> nth i (map f (seq 0 n)) d = f i.
Proof.
  intros Hi. rewrite (nth_indep _ d (f 0%nat)) by (rewrite length_map, length_seq; exact Hi).
  rewrite map_nth, seq_nth by exact Hi. reflexivity.
Qed.

Lemma nth_bits v (i n : nat) :
  (i < n)%nat ->
  nth i (map (fun i => Z.b2z (Z.testbit v (Z.of_nat i))) (seq 0 n)) 0
  = Z.b2z (Z.testbit v (Z.of_nat i)).
Proof. intros Hi. now rewrite nth_map_seq. Qed.

Lemma div_div_pos a b c : 0 < b -> 0 < c -> a / b / c = a / (b * c).
Proof. intros Hb Hc. apply Z.div_div; lia. Qed.

Lemma pow2_le_128 (n : nat) : (n < 8)%nat -> 0 < 2 ^ Z.of_nat n <= 128.
Proof.
  intros Hn. split; [apply Z.pow_pos_nonneg; lia|].
  change 128 with (2 ^ 7). apply Z.pow_le_mono_r; lia.
Qed.

(** Packing the bits [off .. off+n) of [v], for [n <= 8]. *)
Lemma packByte_fold v (off n : nat) :
  (n <= 8)%nat -> (off + 8 <= 64)%nat ->
  fold_left (fun byteValue bitIdx =>
               api.Add byteValue
                 (api.Mul (nth (off + bitIdx)
                               (map (fun i => Z.b2z (Z.testbit v (Z.of_nat i))) (seq 0 64)) 0)
                          (Z.shiftl 1 (Z.of_nat bitIdx))))
            (seq 0 n) 0
  = (v / 2 ^ Z.of_nat off) mod 2 ^ Z.of_nat n.
Proof.
  intros Hn Hoff.
  set (bits := map (fun i => Z.b2z (Z.testbit v (Z.of_nat i))) (seq 0 64)).
  induction n as [|n IH].
  - simpl. now rewrite Z.mod_1_r.
  - rewrite seq_S, fold_left_app. cbn [fold_left Nat.add]. rewrite IH by lia. clear IH.
    unfold bits. rewrite nth_bits by lia. rewrite Z.shiftl_1_l.
    set (q := v / 2 ^ Z.of_nat off).
    assert (Hbit : Z.b2z (Z.testbit v (Z.of_nat (off + n))) = (q / 2 ^ Z.of_nat n) mod 2).
    { rewrite Z.testbit_spec' by lia. unfold q.
      rewrite div_div_pos by (apply Z.pow_pos_nonneg; lia).
      rewrite <- Z.pow_add_r by lia. now rewrite Nat2Z.inj_add. }
    rewrite Hbit.
    pose proof (pow2_le_128 n ltac:(lia)) as Hp.
    pose proof (Z.mod_pos_bound q (2 ^ Z.of_nat n) ltac:(lia)) as Hlo.
    pose proof (Z.mod_pos_bound (q / 2 ^ Z.of_nat n) 2 ltac:(lia)) as Hhi.
    unfold api.Add, api.Mul.
    rewrite (Z.mod_small (_ * _)) by (unfold api.modulus; nia).
    rewrite Z.mod_small by (unfold api.modulus; nia).
    rewrite Nat2Z.inj_succ, Z.pow_succ_r by lia.
    rewrite (Z.mul_comm 2), Z.rem_mul_r by lia. lia.
Qed.

Lemma packByte_spec v (byteIdx : nat) :
  (byteIdx < 8)%nat ->
  packByte (map (fun i => Z.b2z (Z.testbit v (Z.of_nat i))) (seq 0 64)) byteIdx
  = (v / 256 ^ Z.of_nat byteIdx) mod 256.
Proof.
  intros Hk. unfold packByte. cbv zeta.
  rewrite (packByte_fold v (byteIdx * 8) 8) by lia.
  replace (2 ^ Z.of_nat (byteIdx * 8)) with (256 ^ Z.of_nat byteIdx); [reflexivity|].
  change 256 with (2 ^ 8). rewrite <- Z.pow_mul_r by lia. f_equal. lia.
Qed.

Lemma le_bytes_map n v :
  le_bytes n v = map (fun k => (v / 256 ^ Z.of_nat k) mod 256) (seq 0 n).
Proof.
  revert v. induction n as [|n IH]; intros v; [reflexivity|].
  cbn [le_bytes seq map]. rewrite Z.pow_0_r, Z.div_1_r. f_equal.
  rewrite IH, <- seq_shift, map_map. apply map_ext. intros k.
  rewrite div_div_pos by (try apply Z.pow_pos_nonneg; lia).
  rewrite Nat2Z.inj_succ, Z.pow_succ_r by lia. reflexivity.
Qed.

(** [serializeUint64ToChunk] is the SSZ chunk of a [uint64]. *)
Lemma serializeUint64ToChunk_spec v :
  0 <= v < 2 ^ 64 -> serializeUint64ToChunk v = Some (ssz_uint64_chunk v).
Proof.
  intros Hv. unfold serializeUint64ToChunk. rewrite (ToBinary_64 v Hv).
  unfold ssz_uint64_chunk. rewrite le_bytes_map.
  pose proof (fun k => packByte_spec v k) as Hpack.
  set (bits := map _ (seq 0 64)) in *. clearbody bits.
  cbn [mbind option_bind fold_left seq repeat insert list_insert map app].
  rewrite !Hpack by lia. reflexivity.
Qed.

Lemma serializeUint64ToChunk_None v :
  ~ 0 <= v < 2 ^ 64 -> serializeUint64ToChunk v = None.
Proof.
  intros Hv. unfold serializeUint64ToChunk. now rewrite (ToBinary_64_None v Hv).
Qed.

(** [serializeLimbTo8Bytes] is the big-endian encoding on 8 bytes. *)
Lemma serializeLimbTo8Bytes_spec v :
  0 <= v < 2 ^ 64 -> serializeLimbTo8Bytes v = Some (be_bytes 8 v).
Proof.
  intros Hv. unfold serializeLimbTo8Bytes. rewrite (ToBinary_64 v Hv).
  rewrite be_bytes_rev_le, le_bytes_map.
  pose proof (fun k => packByte_spec v k) as Hpack.
  set (bits := map _ (seq 0 64)) in *. clearbody bits.
  cbn [mbind option_bind fold_left seq repeat insert list_insert map app rev Nat.sub].
  rewrite !Hpack by lia. reflexivity.
Qed.

Lemma zeroChunk_spec : zeroChunk = ssz_zero_chunk.
Proof. reflexivity. Qed.

(* ===================================================================== *)
(** ** The block root (computeBlockRoot) *)
(* ===================================================================== *)

Lemma ssz_uint64_chunk_length v : length (ssz_uint64_chunk v) = 32%nat.
Proof. unfold ssz_uint64_chunk. rewrite length_app, le_bytes_length. reflexivity. Qed.

(** C3. For a slot and a proposer index in [uint64] range, [computeBlockRoot]
    returns the SSZ hash-tree-root of the header: slot and proposer index
    serialized little-endian into 32-byte chunks, the five leaves padded
    with three zero leaves to eight, three levels of pairwise SHA-256
    compressions; the root has 32 bytes, and with 32-byte roots every
    compression reads 64 bytes. *)
Theorem computeBlockRoot_hash_tree_root (c : Eth2ScUpdateCircuit) :
  0 <= Slot c < 2 ^ 64 ->
  0 <= ProposerIndex c < 2 ^ 64 ->
  length (ParentRoot c) = 32%nat ->
  length (StateRoot c) = 32%nat ->
  length (BodyRoot c) = 32%nat ->
  let leaves :=
    [ le_bytes 8 (Slot c) ++ repeat 0 24; le_bytes 8 (ProposerIndex c) ++ repeat 0 24;
      ParentRoot c; StateRoot c; BodyRoot c;
      repeat 0 32; repeat 0 32; repeat 0 32 ] in
  computeBlockRoot c = Some (merkle_root 3 leaves)
  /\ merkle_root 3 leaves
     = header_hash_tree_root (Slot c) (ProposerIndex c) (ParentRoot c) (StateRoot c) (BodyRoot c)
  /\ length (merkle_root 3 leaves) = 32%nat
  /\ length (merkle_inputs 3 leaves) = 7%nat
  /\ Forall (fun input => length input = 64%nat) (merkle_inputs 3 leaves).
Proof.
  intros Hslot Hprop Hpr Hsr Hbr leaves. subst leaves.
  split; [|split; [|split; [|split]]].
  - unfold computeBlockRoot.
    rewrite (serializeUint64ToChunk_spec _ Hslot), (serializeUint64ToChunk_spec _ Hprop).
    rewrite zeroChunk_spec. reflexivity.
  - reflexivity.
  - cbn [merkle_root hash_layer layer_inputs map hd]. apply sha256_length.
  - reflexivity.
  - cbn [merkle_inputs merkle_root hash_layer layer_inputs map app].
    repeat constructor; rewrite length_app;
      rewrite ?sha256_length, ?length_app, ?le_bytes_length, ?repeat_length, ?Hpr, ?Hsr, ?Hbr;
      reflexivity.
Qed.

Lemma computeBlockRoot_hash_tree_root_witness :
  computeBlockRoot sampleBlockRootWitness
  = Some (header_hash_tree_root 9000000 1234 (repeat 0x11 32) (repeat 0x22 32) (repeat 0x33 32)).
Proof.
  destruct (computeBlockRoot_hash_tree_root sampleBlockRootWitness) as (H1 & H2 & _);
    [simpl; lia | simpl; lia | reflexivity | reflexivity | reflexivity |].
  rewrite H1. f_equal.
Defined.

(** Outside [uint64] range the bit decomposition has no solution. *)
Lemma computeBlockRoot_out_of_range (c : Eth2ScUpdateCircuit) :
  ~ 0 <= Slot c < 2 ^ 64 -> computeBlockRoot c = None.
Proof.
  intros H. unfold computeBlockRoot. now rewrite (serializeUint64ToChunk_None _ H).
Qed.

(* ===================================================================== *)
(** ** Participation bits (ParseSyncCommitteeBits) *)
(* ===================================================================== *)

Lemma fold_left_ext_in {A B} (f g : A -> B -> A) (l : list B) (a : A) :
  (forall a x, In x l -> f a x = g a x) -> fold_left f l a = fold_left g l a.
Proof.
  revert a. induction l as [|x l IH]; intros a Hfg; simpl; [reflexivity|].
  rewrite Hfg by (now left). apply IH. intros a' y Hy. apply Hfg. now right.
Qed.

(** A loop [for i := 0; i < n; i++] that stores [g i] at index [i] when it
    is defined. *)
Lemma fold_insert_length {A} (g : nat -> option A) (n : nat) (l0 : list A) :
  length (fold_left (fun (l : list A) i =>
                       match g i with Some x => <[i := x]> l | None => l end)
                    (seq 0 n) l0) = length l0.
Proof.
  induction n as [|n IH]; [reflexivity|].
  rewrite seq_S, fold_left_app. cbn [fold_left Nat.add].
  destruct (g n); [rewrite length_insert|]; exact IH.
Qed.

Lemma fold_insert_nth {A} (g : nat -> option A) (n : nat) (l0 : list A) (d : A) (j : nat) :
  (n <= length l0)%nat ->
  nth j (fold_left (fun (l : list A) i =>
                      match g i with Some x => <[i := x]> l | None => l end)
                   (seq 0 n) l0) d
  = if (j <? n)%nat then match g j with Some x => x | None => nth j l0 d end
    else nth j l0 d.
Proof.
  intros Hn. induction n as [|n IH]; [reflexivity|].
  rewrite seq_S, fold_left_app. cbn [fold_left Nat.add].
  specialize (IH ltac:(lia)).
  set (l := fold_left _ (seq 0 n) l0) in *.
  assert (Hlen : length l = length l0) by apply fold_insert_length.
  destruct (Nat.ltb_spec j (S n)) as [Hj|Hj].
  - destruct (Nat.eq_dec j n) as [->|Hne].
    + destruct (g n) as [x|].
      * rewrite nth_lookup, list_lookup_insert_eq by lia. reflexivity.
      * rewrite IH. destruct (Nat.ltb_spec n n); [lia | reflexivity].
    + assert (Hjn : (j <? n)%nat = true) by (apply Nat.ltb_lt; lia).
      rewrite Hjn in IH. rewrite <- IH.
      destruct (g n) as [x|]; [|reflexivity].
      rewrite !nth_lookup, list_lookup_insert_ne by lia. reflexivity.
  - assert (Hjn : (j <? n)%nat = false) by (apply Nat.ltb_ge; lia).
    rewrite Hjn in IH. rewrite <- IH.
    destruct (g n) as [x|]; [|reflexivity].
    rewrite !nth_lookup, list_lookup_insert_ne by lia. reflexivity.
Qed.

(** Masking with [1 << k] tests bit [k]. *)
Lemma land_bit_test (b : Z) (k : nat) :
  (k < 8)%nat ->
  negb (Z.land b (uint8 (Z.shiftl 1 (Z.of_nat k))) =? 0) = Z.testbit b (Z.of_nat k).
Proof.
  intros Hk. rewrite Z.shiftl_1_l. unfold uint8.
  pose proof (pow2_le_128 k Hk) as Hp.
  rewrite (Z.mod_small (2 ^ Z.of_nat k)) by lia.
  destruct (Z.testbit b (Z.of_nat k)) eqn:Hbit.
  - destruct (Z.eqb_spec (Z.land b (2 ^ Z.of_nat k)) 0) as [H0|]; [|reflexivity].
    exfalso. assert (Ht : Z.testbit (Z.land b (2 ^ Z.of_nat k)) (Z.of_nat k) = true).
    { rewrite Z.land_spec, Hbit, Z.pow2_bits_true by lia. reflexivity. }
    rewrite H0, Z.bits_0 in Ht. discriminate.
  - destruct (Z.eqb_spec (Z.land b (2 ^ Z.of_nat k)) 0) as [|Hne]; [reflexivity|].
    exfalso. apply Hne. apply Z.bits_inj'. intros m Hm.
    rewrite Z.land_spec, Z.bits_0.
    destruct (Z.eq_dec m (Z.of_nat k)) as [->|Hmk].
    + now rewrite Hbit.
    + rewrite Z.pow2_bits_false by lia. apply andb_false_r.
Qed.

Lemma ParseSyncCommitteeBits_length bitsBytes :
  length (ParseSyncCommitteeBits bitsBytes) = 512%nat.
Proof.
  unfold ParseSyncCommitteeBits.
  rewrite (fold_left_ext_in _
    (fun (l : list bool) i =>
       match (if (i / 8 <? length bitsBytes)%nat
              then Some (negb (Z.land (nth (i / 8) bitsBytes 0)
                                      (uint8 (Z.shiftl 1 (Z.of_nat (i mod 8)))) =? 0))
              else None) with
       | Some x => <[i := x]> l
       | None => l
       end)).
  - rewrite fold_insert_length. apply repeat_length.
  - intros a i _. cbv zeta. destruct (i / 8 <? length bitsBytes)%nat; reflexivity.
Qed.

Lemma ParseSyncCommitteeBits_nth bitsBytes (i : nat) :
  (i < 512)%nat ->
  nth i (ParseSyncCommitteeBits bitsBytes) false
  = if (i / 8 <? length bitsBytes)%nat
    then Z.testbit (nth (i / 8) bitsBytes 0) (Z.of_nat (i mod 8))
    else false.
Proof.
  intros Hi. unfold ParseSyncCommitteeBits.
  rewrite (fold_left_ext_in _
    (fun (l : list bool) i =>
       match (if (i / 8 <? length bitsBytes)%nat
              then Some (negb (Z.land (nth (i / 8) bitsBytes 0)
                                      (uint8 (Z.shiftl 1 (Z.of_nat (i mod 8)))) =? 0))
              else None) with
       | Some x => <[i := x]> l
       | None => l
       end)).
  - rewrite fold_insert_nth by (rewrite repeat_length; lia).
    assert (Hlt : (i <? 512)%nat = true) by (apply Nat.ltb_lt; exact Hi).
    rewrite Hlt.
    destruct (i / 8 <? length bitsBytes)%nat.
    + apply land_bit_test. apply Nat.mod_upper_bound. lia.
    + destruct (nth_in_or_default i (repeat false 512) false) as [Hin | ->]; [|reflexivity].
      now apply repeat_spec in Hin.
  - intros a j _. cbv zeta. destruct (j / 8 <? length bitsBytes)%nat; reflexivity.
Qed.

(** C10. For every input, whatever its length, [ParseSyncCommitteeBits]
    returns exactly 512 booleans; bit [i] is true exactly when [i / 8] is an
    index of the input and bit [i mod 8] of that byte is set.  Bits past the
    end of a short input are false, bytes after the first 64 are ignored. *)
Theorem ParseSyncCommitteeBits_spec (bitsBytes : list Z) :
  length (ParseSyncCommitteeBits bitsBytes) = 512%nat
  /\ (forall i : nat, (i < 512)%nat ->
        (nth i (ParseSyncCommitteeBits bitsBytes) false = true
         <-> ((i / 8 < length bitsBytes)%nat
              /\ Z.testbit (nth (i / 8) bitsBytes 0) (Z.of_nat (i mod 8)) = true)))
  /\ (forall i : nat, (i < 512)%nat -> (length bitsBytes <= i / 8)%nat ->
        nth i (ParseSyncCommitteeBits bitsBytes) false = false)
  /\ ParseSyncCommitteeBits bitsBytes = ParseSyncCommitteeBits (firstn 64 bitsBytes).
Proof.
  split; [apply ParseSyncCommitteeBits_length|]. split; [|split].
  - intros i Hi. rewrite ParseSyncCommitteeBits_nth by exact Hi.
    destruct (Nat.ltb_spec (i / 8) (length bitsBytes)); split.
    + intros Ht. split; assumption.
    + intros [_ Ht]. exact Ht.
    + discriminate.
    + intros [Hlt _]. lia.
  - intros i Hi Hge. rewrite ParseSyncCommitteeBits_nth by exact Hi.
    destruct (Nat.ltb_spec (i / 8) (length bitsBytes)); [lia | reflexivity].
  - apply (nth_ext _ _ false false).
    + now rewrite !ParseSyncCommitteeBits_length.
    + intros i Hi. rewrite ParseSyncCommitteeBits_length in Hi.
      rewrite !ParseSyncCommitteeBits_nth by exact Hi.
      assert (Hi8 : (i / 8 < 64)%nat) by (apply Nat.Div0.div_lt_upper_bound; lia).
      rewrite length_firstn.
      destruct (Nat.ltb_spec (i / 8) (length bitsBytes)) as [Hlt|Hge];
        destruct (Nat.ltb_spec (i / 8) (Nat.min 64 (length bitsBytes))) as [Hlt'|Hge'];
        try lia; try reflexivity.
      rewrite nth_firstn.
      destruct (Nat.ltb_spec (i / 8) 64); [reflexivity | lia].
Qed.

(* ===================================================================== *)
(** ** The emulated field: limbs and values *)
(* ===================================================================== *)

Lemma Modulus_bounds : 0 < fp.Modulus < 2 ^ 384.
Proof. unfold fp.Modulus. split; reflexivity. Qed.

Lemma limbs_value_app l a :
  fp.limbs_value (l ++ [a]) = fp.limbs_value l + 2 ^ (64 * Z.of_nat (length l)) * a.
Proof.
  unfold fp.limbs_value, fp.limbBits. induction l as [|x l IH].
  - simpl. lia.
  - cbn [app fold_right length]. rewrite IH.
    replace (64 * Z.of_nat (S (length l))) with (64 + 64 * Z.of_nat (length l)) by lia.
    rewrite Z.pow_add_r by lia. ring.
Qed.

(** The first [n] limbs of [v] carry [v mod 2^(64 n)]. *)
Lemma limbs_value_limbs v (n : nat) :
  fp.limbs_value (map (fun i => (v / 2 ^ (fp.limbBits * Z.of_nat i)) mod 2 ^ fp.limbBits)
                      (seq 0 n))
  = v mod 2 ^ (64 * Z.of_nat n).
Proof.
  unfold fp.limbBits. induction n as [|n IH].
  - simpl. now rewrite Z.mod_1_r.
  - rewrite seq_S, map_app. cbn [map Nat.add]. rewrite limbs_value_app, IH.
    rewrite length_map, length_seq.
    replace (64 * Z.of_nat (S n)) with (64 * Z.of_nat n + 64) by lia.
    rewrite (Z.pow_add_r 2 (64 * Z.of_nat n) 64) by lia.
    rewrite Z.rem_mul_r by (try apply Z.pow_nonzero; try apply Z.pow_pos_nonneg; lia).
    reflexivity.
Qed.

Lemma value_ValueOf v : 0 <= v < 2 ^ 384 -> fp.value (fp.ValueOf v) = v.
Proof.
  intros Hv. unfold fp.value, fp.ValueOf. cbn [fp.Limbs].
  rewrite limbs_value_limbs. apply Z.mod_small. exact Hv.
Qed.

Lemma value_ValueOf_mod v : fp.value (fp.ValueOf (v mod fp.Modulus)) = v mod fp.Modulus.
Proof.
  apply value_ValueOf. pose proof Modulus_bounds.
  pose proof (Z.mod_pos_bound v fp.Modulus ltac:(lia)). lia.
Qed.

Lemma ValueOf_limb v (i : nat) :
  (i < 6)%nat -> nth i (fp.Limbs (fp.ValueOf v)) 0 = limb64 v (Z.of_nat i).
Proof.
  intros Hi. unfold fp.ValueOf, fp.nbLimbs, limb64, fp.limbBits. cbn [fp.Limbs].
  now rewrite nth_map_seq.
Qed.

Lemma limb64_bounds v i : 0 <= limb64 v i < 2 ^ 64.
Proof. unfold limb64. apply Z.mod_pos_bound. reflexivity. Qed.

(* ===================================================================== *)
(** ** OS2IP modulo p (bytesToBLS12381FpMod) *)
(* ===================================================================== *)

Lemma OS2IP_app b x : OS2IP (b ++ [x]) = OS2IP b * 256 + x.
Proof. unfold OS2IP. now rewrite fold_left_app. Qed.

(** The digit built in the loop: the byte in limb 0, the other limbs 0. *)
Lemma digit_value (by_ : Z) :
  fp.value (fp.NewElement
              (<[0%nat := by_]>
                 (fold_left (fun (buf : list Z) i => <[i := 0]> buf)
                            (seq 0 6) (repeat 0 6)))) = by_.
Proof.
  cbn [fold_left seq repeat insert list_insert].
  unfold fp.value, fp.NewElement, fp.limbs_value. cbn [fp.Limbs fold_right].
  rewrite !Z.mul_0_r, !Z.add_0_r. ring.
Qed.

Lemma nbLimbs_Modulus : length (fp.Limbs (fp.ValueOf fp.Modulus)) = 6%nat.
Proof. unfold fp.ValueOf. cbn [fp.Limbs]. now rewrite length_map, length_seq. Qed.

(** The Horner loop on a value that already denotes [acc mod p]. *)
Lemma horner_fold (b : list Z) (res : fp.Element) (acc : Z) :
  fp.value res = acc mod fp.Modulus ->
  fp.value
    (fold_left
       (fun res by_ =>
          fp.Add (fp.MulConst res 256)
                 (fp.NewElement
                    (<[0%nat := by_]>
                       (fold_left (fun (buf : list Z) i => <[i := 0]> buf)
                                  (seq 0 6) (repeat 0 6)))))
       b res)
  = fold_left (fun acc x => acc * 256 + x) b acc mod fp.Modulus.
Proof.
  revert res acc. induction b as [|x b IH]; intros res acc Hres; [exact Hres|].
  cbn [fold_left]. apply IH.
  unfold fp.Add, fp.MulConst. rewrite digit_value.
  rewrite !value_ValueOf_mod, Hres.
  rewrite Z.mul_mod_idemp_l, Z.add_mod_idemp_l by (pose proof Modulus_bounds; lia).
  reflexivity.
Qed.

(** C6. For every byte slice [b] (in particular a 64-byte block of the
    expanded message), [bytesToBLS12381FpMod] returns the element of the
    BLS12-381 base field equal to [OS2IP(b) mod p]: the big-endian value of
    [b], accumulated by Horner steps (multiply by 256, add the byte) and
    normalized at the end. *)
Theorem bytesToBLS12381FpMod_OS2IP (b : list Z) :
  fp.value (bytesToBLS12381FpMod b) = OS2IP b mod fp.Modulus
  /\ bytesToBLS12381FpMod b = fp.ValueOf (OS2IP b mod fp.Modulus)
  /\ 0 <= fp.value (bytesToBLS12381FpMod b) < fp.Modulus.
Proof.
  assert (Hfold : fp.value
            (fold_left
               (fun res by_ =>
                  fp.Add (fp.MulConst res 256)
                         (fp.NewElement
                            (<[0%nat := by_]>
                               (fold_left (fun (buf : list Z) i => <[i := 0]> buf)
                                          (seq 0 6) (repeat 0 6)))))
               b fp.Zero)
          = OS2IP b mod fp.Modulus).
  { apply horner_fold. unfold fp.Zero. rewrite value_ValueOf by (split; reflexivity).
    reflexivity. }
  assert (Heq : bytesToBLS12381FpMod b = fp.ValueOf (OS2IP b mod fp.Modulus)).
  { unfold bytesToBLS12381FpMod. cbv zeta. rewrite nbLimbs_Modulus.
    unfold fp.Reduce. rewrite Hfold.
    rewrite Z.mod_mod by (pose proof Modulus_bounds; lia). reflexivity. }
  split; [|split].
  - rewrite Heq. apply value_ValueOf_mod.
  - exact Heq.
  - rewrite Heq, value_ValueOf_mod. apply Z.mod_pos_bound. apply Modulus_bounds.
Qed.

Example bytesToBLS12381FpMod_three_bytes :
  fp.value (bytesToBLS12381FpMod [1; 2; 3]) = 0x010203.
Proof. vm_compute. reflexivity. Qed.

(* ===================================================================== *)
(** ** expand_message_xmd (expandMessageXMD_SHA256) *)
(* ===================================================================== *)

Lemma Xor32_strxor (a b : list Z) :
  length a = length b -> Xor32 a b = RFC9380.strxor a b.
Proof.
  unfold Xor32. revert b. induction a as [|x a IH]; intros [|y b] Hlen;
    try discriminate; [reflexivity|].
  cbn [length seq map nth RFC9380.strxor]. f_equal.
  rewrite <- seq_shift, map_map. cbn [nth]. apply IH. now injection Hlen.
Qed.

Lemma b_length b0 DST_prime (i : nat) :
  (1 <= i)%nat -> length (RFC9380.b_ b0 DST_prime i) = 32%nat.
Proof.
  destruct i as [|[|j]]; [lia | |]; intros _; apply sha256_length.
Qed.

Lemma uniform_length b0 DST_prime (n : nat) :
  length (concat (map (RFC9380.b_ b0 DST_prime) (seq 1 n))) = (32 * n)%nat.
Proof.
  induction n as [|n IH]; [reflexivity|].
  rewrite seq_S, map_app, concat_app, length_app, IH. cbn [map concat].
  rewrite app_nil_r, b_length by lia. lia.
Qed.

(** The loop of the code after [n] rounds holds [b_1 || ... || b_(n+1)]
    and [b_(n+1)]. *)
Lemma xmd_loop (b0 dstPrime : list Z) (n : nat) :
  length b0 = 32%nat ->
  fold_left
    (fun (st : result (list Z * list Z)) (i : Z) =>
       '(uniform, prev) ← st;
       if negb (length b0 =? length prev)%nat then
         Err "b0 and prev length mismatch"
       else
         let t := Xor32 b0 prev in
         let bi := sha256 (t ++ [uint8 i] ++ dstPrime) in
         Ok (uniform ++ bi, bi))
    (map Z.of_nat (seq 2 n))
    (Ok (sha256 (b0 ++ [0x01] ++ dstPrime), sha256 (b0 ++ [0x01] ++ dstPrime)))
  = Ok (concat (map (RFC9380.b_ b0 dstPrime) (seq 1 (S n))),
        RFC9380.b_ b0 dstPrime (S n)).
Proof.
  intros Hb0. induction n as [|n IH].
  - cbn [seq map fold_left concat RFC9380.b_]. now rewrite app_nil_r.
  - rewrite seq_S, map_app, fold_left_app, IH. cbn [map fold_left].
    cbn [mbind result_bind rbind].
    rewrite Hb0, b_length by lia. cbn [Nat.eqb negb].
    rewrite Xor32_strxor by (rewrite b_length by lia; exact Hb0).
    rewrite (seq_S (S n) 1), map_app, concat_app. cbn [map concat].
    rewrite app_nil_r.
    replace (sha256 (RFC9380.strxor b0 (RFC9380.b_ b0 dstPrime (S n))
                     ++ [uint8 (Z.of_nat (2 + n))] ++ dstPrime))
      with (RFC9380.b_ b0 dstPrime (1 + S n)); [reflexivity|].
    reflexivity.
Qed.

Lemma lIB_I2OSP (lenInBytes : Z) :
  [uint8 (Z.shiftr lenInBytes 8); uint8 (Z.land lenInBytes 0xff)] = be_bytes 2 lenInBytes.
Proof.
  unfold uint8. cbn [be_bytes app].
  rewrite Z.shiftr_div_pow2 by lia. change 0xff with (Z.ones 8).
  rewrite Z.land_ones by lia. change (2 ^ 8) with 256.
  rewrite Z.mod_mod by lia. reflexivity.
Qed.

(** C5 (amended). For every message, every domain-separation tag of at
    most 255 bytes and every requested length between 1 and [255 * 32],
    [expandMessageXMD_SHA256] returns exactly [len_in_bytes] bytes, those
    of RFC 9380 [expand_message_xmd] with SHA-256; for every requested
    length that is not positive or exceeds [255 * 32] it returns the
    error. *)
Theorem expandMessageXMD_SHA256_rfc9380 (msg dst : list Z) (lenInBytes : Z) :
  (length dst <= 255)%nat ->
  (1 <= lenInBytes <= 255 * 32 ->
     exists uniform,
       expandMessageXMD_SHA256 msg dst lenInBytes = Ok uniform
       /\ RFC9380.expand_message_xmd msg dst lenInBytes = Some uniform
       /\ Z.of_nat (length uniform) = lenInBytes)
  /\ (lenInBytes <= 0 \/ 255 * 32 < lenInBytes ->
     expandMessageXMD_SHA256 msg dst lenInBytes = Err "len_in_bytes out of range").
Proof.
  intros Hdst. split.
  - intros Hlen.
    set (ell := (lenInBytes + 32 - 1) / 32).
    assert (Hell : 1 <= ell <= 255).
    { unfold ell. split.
      - apply Z.div_le_lower_bound; lia.
      - assert ((lenInBytes + 32 - 1) / 32 < 256); [|lia].
        apply Z.div_lt_upper_bound; lia. }
    set (dstPrime := dst ++ [uint8 (Z.of_nat (length dst))]).
    set (b0 := RFC9380.b_0 msg dstPrime lenInBytes).
    exists (firstn (Z.to_nat lenInBytes)
                   (concat (map (RFC9380.b_ b0 dstPrime) (seq 1 (Z.to_nat ell))))).
    split; [|split].
    + unfold expandMessageXMD_SHA256. cbv zeta.
      destruct (Z.leb_spec lenInBytes 0); [lia|].
      destruct (Z.ltb_spec (255 * 32) lenInBytes); [lia|].
      cbn [orb]. fold ell. fold dstPrime.
      rewrite lIB_I2OSP.
      change (sha256 (repeat 0 64 ++ msg ++ be_bytes 2 lenInBytes ++ [0] ++ dstPrime))
        with b0.
      pose proof (xmd_loop b0 dstPrime (Z.to_nat ell - 1) (sha256_length _)) as Hloop.
      cbv zeta in Hloop. rewrite Hloop.
      cbn [mbind result_bind rbind].
      replace (S (Z.to_nat ell - 1)) with (Z.to_nat ell) by lia.
      reflexivity.
    + unfold RFC9380.expand_message_xmd, RFC9380.b_in_bytes. cbv zeta. fold ell.
      destruct (Z.ltb_spec 255 ell); [lia|].
      destruct (Z.ltb_spec 65535 lenInBytes); [lia|].
      destruct (Z.ltb_spec 255 (Z.of_nat (length dst))); [lia|].
      cbn [orb]. unfold RFC9380.I2OSP.
      destruct (Z.leb_spec 0 (Z.of_nat (length dst))); [|lia].
      destruct (Z.ltb_spec (Z.of_nat (length dst)) (256 ^ Z.of_nat 1)); [|simpl in *; lia].
      cbn [andb mbind option_bind]. reflexivity.
    + rewrite length_firstn, uniform_length.
      assert (lenInBytes <= 32 * ell).
      { unfold ell. pose proof (Z.mul_div_le (lenInBytes + 32 - 1) 32 ltac:(lia)).
        pose proof (Z.mod_pos_bound (lenInBytes + 32 - 1) 32 ltac:(lia)).
        pose proof (Z.div_mod (lenInBytes + 32 - 1) 32 ltac:(lia)). lia. }
      lia.
  - intros Hlen. unfold expandMessageXMD_SHA256. cbv zeta.
    destruct Hlen as [Hlen|Hlen].
    + destruct (Z.leb_spec lenInBytes 0); [reflexivity | lia].
    + destruct (Z.ltb_spec (255 * 32) lenInBytes); [|lia].
      now rewrite orb_true_r.
Qed.

Lemma expandMessageXMD_SHA256_rfc9380_witness :
  exists uniform,
    expandMessageXMD_SHA256 (repeat 0 32) dstBytes 256 = Ok uniform
    /\ RFC9380.expand_message_xmd (repeat 0 32) dstBytes 256 = Some uniform
    /\ Z.of_nat (length uniform) = 256.
Proof.
  apply (expandMessageXMD_SHA256_rfc9380 (repeat 0 32) dstBytes 256).
  - vm_compute. lia.
  - lia.
Defined.

(** The claim without the bound on the tag: with a tag of 256 bytes RFC 9380
    aborts ([I2OSP(256, 1)] does not exist), and the code goes on with the
    length byte wrapped to 0. *)
Lemma expandMessageXMD_SHA256_long_dst :
  (exists uniform, expandMessageXMD_SHA256 [] (repeat 0 256) 32 = Ok uniform)
  /\ RFC9380.expand_message_xmd [] (repeat 0 256) 32 = None.
Proof.
  split; [eexists; vm_compute; reflexivity | vm_compute; reflexivity].
Qed.

(* ===================================================================== *)
(** ** The commitment to the committee keys (verifyScPubKeysHash) *)
(* ===================================================================== *)

Lemma be_bytes_split (n m : nat) x :
  be_bytes (n + m) x = be_bytes n (x / 256 ^ Z.of_nat m) ++ be_bytes m x.
Proof.
  revert x. induction m as [|m IH]; intros x.
  - rewrite Nat.add_0_r. cbn [be_bytes Z.of_nat]. now rewrite Z.pow_0_r, Z.div_1_r, app_nil_r.
  - rewrite Nat.add_succ_r. cbn [be_bytes]. rewrite IH, <- app_assoc.
    rewrite div_div_pos by (try apply Z.pow_pos_nonneg; lia).
    rewrite Nat2Z.inj_succ, Z.pow_succ_r by lia. reflexivity.
Qed.

Lemma be_bytes_mod (n : nat) x : be_bytes n (x mod 256 ^ Z.of_nat n) = be_bytes n x.
Proof.
  revert x. induction n as [|n IH]; intros x; [reflexivity|].
  cbn [be_bytes]. rewrite Nat2Z.inj_succ, Z.pow_succ_r by lia.
  assert (Hp : 0 < 256 ^ Z.of_nat n) by (apply Z.pow_pos_nonneg; lia).
  rewrite Z.rem_mul_r by lia.
  pose proof (Z.mod_pos_bound x 256 ltac:(lia)) as Hb.
  replace ((x mod 256 + 256 * ((x / 256) mod 256 ^ Z.of_nat n)) / 256)
    with ((x / 256) mod 256 ^ Z.of_nat n).
  2:{ rewrite (Z.mul_comm 256), Z.div_add by lia. rewrite (Z.div_small (x mod 256) 256) by lia. lia. }
  rewrite IH. f_equal.
  rewrite (Z.mul_comm 256), Z.mod_add by lia. now rewrite Z.mod_mod by lia.
Qed.

(** Bytes [32..48) of the 48-byte big-endian x-coordinate are limbs 1 and 0,
    the low-order 128 bits. *)
Lemma skipn_32_Bytes x : skipn 32 (bls12381.Bytes x) = truncation_low x.
Proof.
  unfold bls12381.Bytes, truncation_low, limb64.
  change 48%nat with (32 + 16)%nat. rewrite be_bytes_split.
  rewrite skipn_app, be_bytes_length, Nat.sub_diag.
  rewrite skipn_all2 by (rewrite be_bytes_length; lia). cbn [skipn app].
  change 16%nat with (8 + 8)%nat. rewrite be_bytes_split.
  change (64 * 1) with 64. change (64 * 0) with 0.
  change (2 ^ 64) with (256 ^ Z.of_nat 8). rewrite !be_bytes_mod.
  rewrite Z.pow_0_r, Z.div_1_r. reflexivity.
Qed.

Lemma truncation_low_low_bits x : truncation_low x = be_bytes 16 (x mod 2 ^ 128).
Proof.
  change (2 ^ 128) with (256 ^ Z.of_nat 16). rewrite be_bytes_mod.
  unfold truncation_low, limb64.
  change 16%nat with (8 + 8)%nat. rewrite be_bytes_split.
  change (64 * 1) with 64. change (64 * 0) with 0.
  change (2 ^ 64) with (256 ^ Z.of_nat 8). rewrite !be_bytes_mod.
  rewrite Z.pow_0_r, Z.div_1_r. reflexivity.
Qed.

Lemma firstn_S_nth {A} (l : list A) (d : A) (n : nat) :
  (n < length l)%nat -> firstn (S n) l = firstn n l ++ [nth n l d].
Proof.
  revert n. induction l as [|x l IH]; intros n Hn; [simpl in Hn; lia|].
  destruct n as [|n]; [reflexivity|].
  cbn [firstn nth app]. f_equal. apply IH. simpl in Hn. lia.
Qed.

(** What the hasher of the host has absorbed after [n] keys. *)
Lemma host_hasher_fold (pubkeys : list bls12381.G1Affine) (n : nat) :
  (n <= length pubkeys)%nat ->
  fold_left
    (fun (hasher : list Z) (i : nat) =>
       hasher ++ skipn 32 (bls12381.Bytes (bls12381.X (nth i pubkeys bls12381.infinity))))
    (seq 0 n) []
  = concat (map (fun k => truncation_low (bls12381.X k)) (firstn n pubkeys)).
Proof.
  induction n as [|n IH]; intros Hn; [reflexivity|].
  rewrite seq_S, fold_left_app, IH by lia. cbn [fold_left Nat.add].
  rewrite (firstn_S_nth _ bls12381.infinity) by lia.
  rewrite map_app, concat_app. cbn [map concat]. now rewrite app_nil_r, skipn_32_Bytes.
Qed.

Lemma ComputeScPubKeysHash_commitment (pubkeys : list bls12381.G1Affine) :
  ComputeScPubKeysHash pubkeys = commitment truncation_low pubkeys.
Proof.
  unfold ComputeScPubKeysHash, commitment. cbv zeta.
  rewrite host_hasher_fold by lia. now rewrite firstn_all.
Qed.

(** What the hasher of the circuit has absorbed after [n] keys. *)
Lemma circuit_hasher_fold (keys : list bls12381.G1Affine) (n : nat) :
  (n <= length keys)%nat ->
  fold_left
    (fun (hasher : option (list Z)) (i : nat) =>
       buf ← hasher;
       xbytes ← serializeLimbTo8Bytes
                  (nth 1 (fp.Limbs (sw_bls12381.X
                     (nth i (map sw_bls12381.NewG1Affine keys) zeroG1))) 0);
       xbytes0 ← serializeLimbTo8Bytes
                  (nth 0 (fp.Limbs (sw_bls12381.X
                     (nth i (map sw_bls12381.NewG1Affine keys) zeroG1))) 0);
       Some ((buf ++ xbytes) ++ xbytes0))
    (seq 0 n) (Some [])
  = Some (concat (map (fun k => truncation_low (bls12381.X k)) (firstn n keys))).
Proof.
  induction n as [|n IH]; intros Hn; [reflexivity|].
  rewrite seq_S, fold_left_app, IH by lia. cbn [fold_left Nat.add mbind option_bind].
  rewrite (nth_indep _ zeroG1 (sw_bls12381.NewG1Affine bls12381.infinity))
    by (rewrite length_map; lia).
  rewrite map_nth. unfold sw_bls12381.NewG1Affine at 1 2. cbn [sw_bls12381.X].
  rewrite (ValueOf_limb _ 1), (ValueOf_limb _ 0) by lia.
  rewrite !serializeLimbTo8Bytes_spec by apply limb64_bounds.
  cbn [option_bind]. f_equal.
  rewrite (firstn_S_nth _ bls12381.infinity) by lia.
  rewrite map_app, concat_app. cbn [map concat]. rewrite app_nil_r.
  unfold truncation_low. now rewrite app_assoc.
Qed.

(** C2 (amended). For every assignment of 512 public keys, the commitment
    [verifyScPubKeysHash] checks, and the host's [ComputeScPubKeysHash], is
    the SHA-256 hash of, for each key in index order, limbs 1 and 0 of the
    x-coordinate, each on 8 bytes big-endian: the two least significant
    64-bit limbs, that is the low-order 128 bits, bytes [32..48) of the
    48-byte coordinate.  The circuit asserts that this hash equals the
    public input [ScPubKeysHash] byte for byte. *)
Theorem verifyScPubKeysHash_commitment
    (c : Eth2ScUpdateCircuit) (keys : list bls12381.G1Affine) :
  length keys = 512%nat ->
  ScPubKeys c = map sw_bls12381.NewG1Affine keys ->
  length (ScPubKeysHash c) = 32%nat ->
  ComputeScPubKeysHash keys
    = sha256 (concat (map (fun k => be_bytes 8 (limb64 (bls12381.X k) 1)
                                    ++ be_bytes 8 (limb64 (bls12381.X k) 0)) keys))
  /\ (forall k, be_bytes 8 (limb64 (bls12381.X k) 1) ++ be_bytes 8 (limb64 (bls12381.X k) 0)
                = skipn 32 (bls12381.Bytes (bls12381.X k))
                /\ skipn 32 (bls12381.Bytes (bls12381.X k))
                   = be_bytes 16 (bls12381.X k mod 2 ^ 128))
  /\ (verifyScPubKeysHash c = Some tt <-> ScPubKeysHash c = ComputeScPubKeysHash keys)
  /\ (verifyScPubKeysHash c = None <-> ScPubKeysHash c <> ComputeScPubKeysHash keys).
Proof.
  intros Hlen Hkeys Hhash.
  assert (Hverify : verifyScPubKeysHash c
                    = assertBytes32Equal (ComputeScPubKeysHash keys) (ScPubKeysHash c)).
  { unfold verifyScPubKeysHash. rewrite Hkeys. cbv zeta.
    pose proof (circuit_hasher_fold keys 512 ltac:(lia)) as Hfold.
    rewrite Hfold. cbn [mbind option_bind].
    rewrite <- Hlen, firstn_all, ComputeScPubKeysHash_commitment. reflexivity. }
  assert (Hiff : verifyScPubKeysHash c = Some tt
                 <-> ScPubKeysHash c = ComputeScPubKeysHash keys).
  { rewrite Hverify, assertBytes32Equal_Some; [split; congruence | | exact Hhash].
    unfold ComputeScPubKeysHash. apply sha256_length. }
  split; [|split; [|split]].
  - apply ComputeScPubKeysHash_commitment.
  - intros k. fold (truncation_low (bls12381.X k)).
    rewrite skipn_32_Bytes. split; [reflexivity | apply truncation_low_low_bits].
  - exact Hiff.
  - rewrite <- Hiff. destruct (verifyScPubKeysHash c) as [[]|]; split; congruence.
Qed.

Lemma verifyScPubKeysHash_commitment_witness :
  verifyScPubKeysHash sampleCommitmentWitness = Some tt.
Proof.
  apply (verifyScPubKeysHash_commitment sampleCommitmentWitness sampleKeys).
  - reflexivity.
  - reflexivity.
  - apply sha256_length.
  - reflexivity.
Defined.

Lemma sampleLow_spec : truncation_low (bls12381.X bls12381.g1Gen) = sampleLow.
Proof. vm_compute. reflexivity. Qed.

Lemma sampleHigh_spec : truncation_high (bls12381.X bls12381.g1Gen) = sampleHigh.
Proof. vm_compute. reflexivity. Qed.

Lemma sample_commitments_differ :
  ComputeScPubKeysHash sampleKeys <> commitment truncation_high sampleKeys.
Proof.
  rewrite ComputeScPubKeysHash_commitment. unfold commitment, sampleKeys.
  rewrite !map_repeat, sampleLow_spec, sampleHigh_spec.
  vm_compute. intros H. discriminate H.
Qed.

(** The claim with the two most significant limbs: on a committee of 512
    generators the circuit accepts the host's commitment, which is not the
    hash of limbs 5 and 4, and it rejects the hash of limbs 5 and 4. *)
Lemma verifyScPubKeysHash_not_most_significant :
  verifyScPubKeysHash sampleCommitmentWitness = Some tt
  /\ ScPubKeysHash sampleCommitmentWitness <> commitment truncation_high sampleKeys
  /\ verifyScPubKeysHash sampleHighCommitmentWitness = None.
Proof.
  split; [|split].
  - apply (verifyScPubKeysHash_commitment sampleCommitmentWitness sampleKeys);
      [reflexivity | reflexivity | apply sha256_length | reflexivity].
  - exact sample_commitments_differ.
  - apply (verifyScPubKeysHash_commitment sampleHighCommitmentWitness sampleKeys);
      [reflexivity | reflexivity | apply sha256_length |].
    intros H. apply sample_commitments_differ. symmetry. exact H.
Qed.

(* ===================================================================== *)
(** ** The Merkle branch of the next sync committee *)
(* ===================================================================== *)

Lemma path_gindex_87 : path = gindex_path 87 6.
Proof. reflexivity. Qed.

Lemma shiftedPath_bits : shiftedPath = [0; 1; 1; 1; 0; 1].
Proof. reflexivity. Qed.

Lemma merkle_step_children bit sibling current :
  merkle_step bit sibling current
  = sha256 (fst (merkle_children bit sibling current)
            ++ snd (merkle_children bit sibling current)).
Proof. unfold merkle_step, merkle_children. destruct (bit =? 1); reflexivity. Qed.

(** The loop of the circuit computes the running nodes. *)
Lemma circuit_walk_node (branch : list (list Z)) (leaf : list Z) (n : nat) :
  fold_left
    (fun current i =>
       let sibling := nth i branch [] in
       if nth i path 0 =? 1 then hashPair sibling current
       else hashPair current sibling)
    (seq 0 n) leaf
  = merkle_node path branch leaf n.
Proof.
  induction n as [|n IH]; [reflexivity|].
  rewrite seq_S, fold_left_app, IH. reflexivity.
Qed.

Lemma merkle_node_cons bit bits sibling branch leaf (n : nat) :
  merkle_node (bit :: bits) (sibling :: branch) leaf (S n)
  = merkle_node bits branch (merkle_step bit sibling leaf) n.
Proof.
  induction n as [|n IH]; [reflexivity|].
  change (merkle_node (bit :: bits) (sibling :: branch) leaf (S (S n)))
    with (merkle_step (nth n bits 0) (nth n branch [])
                      (merkle_node (bit :: bits) (sibling :: branch) leaf (S n))).
  now rewrite IH.
Qed.

Lemma merkle_walk_node bits branch leaf :
  length bits = length branch ->
  merkle_walk bits branch leaf = merkle_node bits branch leaf (length bits).
Proof.
  revert branch leaf. induction bits as [|bit bits IH]; intros [|sibling branch] leaf Hlen;
    try discriminate; [reflexivity|].
  cbn [merkle_walk length]. rewrite merkle_node_cons. apply IH. now injection Hlen.
Qed.

(** Two walks of one branch that end on the same root hash the same pairs
    of children at every level, unless SHA-256 collides. *)
Lemma walks_agree (bits1 bits2 : list Z) (branch : list (list Z)) (leaf : list Z) (n : nat) :
  (forall i, (i < n)%nat ->
     let c1 := merkle_children (nth i bits1 0) (nth i branch []) (merkle_node bits1 branch leaf i) in
     let c2 := merkle_children (nth i bits2 0) (nth i branch []) (merkle_node bits2 branch leaf i) in
     sha256 (fst c1 ++ snd c1) = sha256 (fst c2 ++ snd c2) -> c1 = c2) ->
  merkle_node bits1 branch leaf n = merkle_node bits2 branch leaf n ->
  forall i, (i < n)%nat ->
    merkle_children (nth i bits1 0) (nth i branch []) (merkle_node bits1 branch leaf i)
    = merkle_children (nth i bits2 0) (nth i branch []) (merkle_node bits2 branch leaf i).
Proof.
  induction n as [|n IH]; intros Hfree Hroot i Hi; [lia|].
  assert (Hn : merkle_children (nth n bits1 0) (nth n branch []) (merkle_node bits1 branch leaf n)
               = merkle_children (nth n bits2 0) (nth n branch []) (merkle_node bits2 branch leaf n)).
  { apply (Hfree n); [lia|]. cbn [merkle_node] in Hroot.
    now rewrite !merkle_step_children in Hroot. }
  destruct (Nat.eq_dec i n) as [->|Hne]; [exact Hn|].
  apply IH; [intros j Hj; apply Hfree; lia | | lia].
  unfold merkle_children in Hn.
  destruct (nth n bits1 0 =? 1), (nth n bits2 0 =? 1); congruence.
Qed.

(** C4 (amended). For every witness, [verifyNextSyncCommitteeMerkleProof]
    starts from the leaf [NextScRoot] and walks exactly 6 levels along the
    compile-time path [1,1,1,0,1,0] (the bits of generalized index 87, least
    significant first): at level [i] it computes SHA-256(sibling || current)
    when the bit is 1 and SHA-256(current || sibling) when it is 0, with
    sibling [NextScBranch[i]], and it asserts that the result equals
    [StateRoot] byte for byte.  A branch that is valid for another path is
    rejected whenever, at a level where the two paths differ, its sibling
    is not the running node, unless the two walks meet a SHA-256
    collision. *)
Theorem verifyNextSyncCommitteeMerkleProof_spec (c : Eth2ScUpdateCircuit) :
  length (NextScBranch c) = 6%nat ->
  length (StateRoot c) = 32%nat ->
  path = gindex_path 87 6
  /\ (forall i, (i < 6)%nat ->
        merkle_node path (NextScBranch c) (NextScRoot c) (S i)
        = if nth i [1; 1; 1; 0; 1; 0] 0 =? 1
          then sha256 (nth i (NextScBranch c) []
                       ++ merkle_node path (NextScBranch c) (NextScRoot c) i)
          else sha256 (merkle_node path (NextScBranch c) (NextScRoot c) i
                       ++ nth i (NextScBranch c) []))
  /\ merkle_walk [1; 1; 1; 0; 1; 0] (NextScBranch c) (NextScRoot c)
     = merkle_node path (NextScBranch c) (NextScRoot c) 6
  /\ (verifyNextSyncCommitteeMerkleProof c = Some tt
      <-> merkle_walk [1; 1; 1; 0; 1; 0] (NextScBranch c) (NextScRoot c) = StateRoot c)
  /\ (verifyNextSyncCommitteeMerkleProof c = None
      <-> merkle_walk [1; 1; 1; 0; 1; 0] (NextScBranch c) (NextScRoot c) <> StateRoot c)
  /\ (forall bits' : list Z,
        length bits' = 6%nat ->
        no_collision path bits' (NextScBranch c) (NextScRoot c) ->
        merkle_walk bits' (NextScBranch c) (NextScRoot c) = StateRoot c ->
        (exists i, (i < 6)%nat
                   /\ (nth i bits' 0 =? 1) <> (nth i path 0 =? 1)
                   /\ nth i (NextScBranch c) []
                      <> merkle_node bits' (NextScBranch c) (NextScRoot c) i) ->
        verifyNextSyncCommitteeMerkleProof c = None).
Proof.
  intros Hbranch Hroot.
  assert (Hwalk : merkle_walk [1; 1; 1; 0; 1; 0] (NextScBranch c) (NextScRoot c)
                  = merkle_node path (NextScBranch c) (NextScRoot c) 6).
  { apply (merkle_walk_node path). now rewrite Hbranch. }
  assert (Hverify : verifyNextSyncCommitteeMerkleProof c
                    = assertBytes32Equal (merkle_node path (NextScBranch c) (NextScRoot c) 6)
                                         (StateRoot c)).
  { unfold verifyNextSyncCommitteeMerkleProof. cbv zeta.
    pose proof (circuit_walk_node (NextScBranch c) (NextScRoot c) 6) as Hfold.
    cbv zeta in Hfold. now rewrite Hfold. }
  assert (Hiff : verifyNextSyncCommitteeMerkleProof c = Some tt
                 <-> merkle_walk [1; 1; 1; 0; 1; 0] (NextScBranch c) (NextScRoot c)
                     = StateRoot c).
  { rewrite Hverify, Hwalk. apply assertBytes32Equal_Some; [|exact Hroot].
    cbn [merkle_node]. rewrite merkle_step_children. apply sha256_length. }
  assert (Hnone : verifyNextSyncCommitteeMerkleProof c = None
                  <-> merkle_walk [1; 1; 1; 0; 1; 0] (NextScBranch c) (NextScRoot c)
                      <> StateRoot c).
  { rewrite <- Hiff.
    destruct (verifyNextSyncCommitteeMerkleProof c) as [[]|]; split; congruence. }
  split; [apply path_gindex_87|]. split; [|split; [exact Hwalk|split; [exact Hiff|split]]].
  - intros i Hi. cbn [merkle_node]. unfold merkle_step. reflexivity.
  - exact Hnone.
  - intros bits' Hlen Hfree Hvalid (i & Hi & Hbits & Hsib).
    apply Hnone. intros Hfixed. apply Hsib.
    rewrite (merkle_walk_node bits') in Hvalid by congruence. rewrite Hlen in Hvalid.
    rewrite Hwalk, <- Hvalid in Hfixed.
    pose proof (walks_agree path bits' (NextScBranch c) (NextScRoot c) 6 Hfree Hfixed i Hi)
      as Hch.
    unfold merkle_children in Hch.
    destruct (nth i path 0 =? 1), (nth i bits' 0 =? 1); congruence.
Qed.

Lemma sample_no_collision : no_collision path shiftedPath sampleBranch sampleLeaf.
Proof.
  intros i Hi.
  do 6 (destruct i as [|i];
        [vm_compute; intros H; first [reflexivity | discriminate H]|]).
  lia.
Qed.

Lemma sample_shifted_valid :
  merkle_walk shiftedPath sampleBranch sampleLeaf = shiftedRoot.
Proof. vm_compute. reflexivity. Qed.

Lemma verifyNextSyncCommitteeMerkleProof_spec_witness :
  verifyNextSyncCommitteeMerkleProof shiftedBranchWitness = None.
Proof.
  apply (verifyNextSyncCommitteeMerkleProof_spec shiftedBranchWitness
           ltac:(reflexivity) ltac:(reflexivity)) with (bits' := shiftedPath).
  - reflexivity.
  - exact sample_no_collision.
  - exact sample_shifted_valid.
  - exists 0%nat. split; [lia|]. split; [discriminate|]. discriminate.
Defined.

Example verifyNextSyncCommitteeMerkleProof_fixed_path :
  verifyNextSyncCommitteeMerkleProof fixedBranchWitness = Some tt.
Proof. vm_compute. reflexivity. Qed.

(** The last clause of the claim as it stands: a branch through an
    all-zero region, whose siblings are the zero hashes, is valid for the
    path shifted by one bit and satisfies the constraints all the same. *)
Lemma zero_branch_valid_for_shifted_path :
  merkle_walk shiftedPath (NextScBranch zeroBranchWitness) (NextScRoot zeroBranchWitness)
  = StateRoot zeroBranchWitness
  /\ shiftedPath <> path
  /\ verifyNextSyncCommitteeMerkleProof zeroBranchWitness = Some tt.
Proof.
  split; [vm_compute; reflexivity|].
  split; [discriminate | vm_compute; reflexivity].
Qed.

(* ===================================================================== *)
(** ** Key aggregation (aggregatePubKeys) *)
(* ===================================================================== *)

Lemma aggregateStep_None c i : aggregateStep c None i = None.
Proof. reflexivity. Qed.

Lemma aggregate_fold_None c (l : list nat) : fold_left (aggregateStep c) l None = None.
Proof. induction l as [|i l IH]; [reflexivity | exact IH]. Qed.

(** One round on boolean operands: the addition gate is evaluated whatever
    the bit, then the selects pick the new accumulator. *)
Lemma aggregateStep_boolean c acc h (i : nat) :
  (h = 0 \/ h = 1) ->
  (nth i (ScBits c) 0 = 0 \/ nth i (ScBits c) 0 = 1) ->
  aggregateStep c (Some (acc, h)) i
  = match curve.Add acc (nth i (ScPubKeys c) zeroG1) with
    | None => None
    | Some sum =>
        Some (if nth i (ScBits c) 0 =? 1
              then (if h =? 1 then sum else nth i (ScPubKeys c) zeroG1)
              else acc,
              if (h =? 1) || (nth i (ScBits c) 0 =? 1) then 1 else 0)
    end.
Proof.
  intros Hh Hbit. unfold aggregateStep. cbn [mbind option_bind]. cbv zeta.
  destruct (curve.Add acc (nth i (ScPubKeys c) zeroG1)) as [sum|];
    destruct Hh as [-> | ->]; destruct Hbit as [-> | ->]; reflexivity.
Qed.

Lemma AssertIsBoolean_None a : a <> 0 -> a <> 1 -> api.AssertIsBoolean a = None.
Proof.
  intros H0 H1. unfold api.AssertIsBoolean.
  destruct (Z.eqb_spec a 0); [contradiction|]. destruct (Z.eqb_spec a 1); [contradiction|].
  reflexivity.
Qed.

Lemma And_None_l a b : a <> 0 -> a <> 1 -> api.And a b = None.
Proof. intros H0 H1. unfold api.And. now rewrite (AssertIsBoolean_None a). Qed.

Lemma And_None_r a b : b <> 0 -> b <> 1 -> api.And a b = None.
Proof.
  intros H0 H1. unfold api.And. rewrite (AssertIsBoolean_None b) by assumption.
  destruct (api.AssertIsBoolean a); reflexivity.
Qed.

(** A round that goes through had boolean operands. *)
Lemma aggregateStep_Some_boolean c acc h (i : nat) st :
  aggregateStep c (Some (acc, h)) i = Some st ->
  (h = 0 \/ h = 1) /\ (nth i (ScBits c) 0 = 0 \/ nth i (ScBits c) 0 = 1).
Proof.
  unfold aggregateStep. cbn [mbind option_bind]. cbv zeta.
  destruct (Z.eq_dec (nth i (ScBits c) 0) 0) as [Hb0|Hb0];
    [|destruct (Z.eq_dec (nth i (ScBits c) 0) 1) as [Hb1|Hb1]].
  3:{ rewrite (And_None_r (api.IsZero h)) by assumption. discriminate. }
  all: destruct (Z.eq_dec h 0) as [Hh0|Hh0];
    [|destruct (Z.eq_dec h 1) as [Hh1|Hh1]]; try (intros _; split; auto; fail).
  all: destruct (api.And (api.IsZero h) (nth i (ScBits c) 0)); [|discriminate].
  all: cbn [mbind option_bind]; rewrite (And_None_l h) by assumption; discriminate.
Qed.

(** The flag after the rounds [1..n]: it is boolean, and it is 1 only if
    some bit among [0..n] is 1. *)
Lemma aggregate_fold_flag c (n : nat) acc0 h0 acc h :
  (h0 = 0 \/ h0 = 1) ->
  fold_left (aggregateStep c) (seq 1 n) (Some (acc0, h0)) = Some (acc, h) ->
  (h = 0 \/ h = 1)
  /\ (h = 1 -> h0 = 1 \/ exists i, (1 <= i <= n)%nat /\ nth i (ScBits c) 0 = 1).
Proof.
  intros Hh0. revert acc h. induction n as [|n IH]; intros acc h.
  - cbn [seq fold_left]. intros [= <- <-]. split; [exact Hh0 | now left].
  - rewrite seq_S, fold_left_app. cbn [fold_left Nat.add].
    destruct (fold_left (aggregateStep c) (seq 1 n) (Some (acc0, h0))) as [[acc' h']|] eqn:Hfold;
      [|discriminate].
    destruct (IH acc' h' eq_refl) as [Hh' Hex]. intros Hstep.
    destruct (aggregateStep_Some_boolean _ _ _ _ _ Hstep) as [_ Hbit].
    rewrite (aggregateStep_boolean c acc' h' (S n) Hh' Hbit) in Hstep.
    destruct (curve.Add acc' (nth (S n) (ScPubKeys c) zeroG1)); [|discriminate].
    injection Hstep as _ Hh. subst h. split.
    + destruct ((h' =? 1) || (nth (S n) (ScBits c) 0 =? 1)); auto.
    + intros H1.
      destruct (Z.eqb_spec h' 1) as [Hh1|Hh1].
      * destruct (Hex Hh1) as [?|(i & Hi & Hbi)]; [now left|].
        right. exists i. split; [lia | exact Hbi].
      * destruct (Z.eqb_spec (nth (S n) (ScBits c) 0) 1) as [Hb1|Hb1]; [|discriminate H1].
        right. exists (S n). split; [lia | exact Hb1].
Qed.

(** C7. For every witness whose 512 participation bits are boolean, the
    constraints of [aggregatePubKeys] can hold only if at least one bit is
    set: after the loop the circuit asserts [hasInitialized == 1], so a
    witness with all 512 bits equal to 0 satisfies them for no
    accumulator. *)
Theorem aggregatePubKeys_asserts_participant (c : Eth2ScUpdateCircuit) :
  length (ScBits c) = 512%nat ->
  (forall i, (i < 512)%nat -> nth i (ScBits c) 0 = 0 \/ nth i (ScBits c) 0 = 1) ->
  (forall acc, aggregatePubKeys c = Some acc ->
     exists i, (i < 512)%nat /\ nth i (ScBits c) 0 = 1)
  /\ ((forall i, (i < 512)%nat -> nth i (ScBits c) 0 = 0) -> aggregatePubKeys c = None).
Proof.
  intros Hlen Hbool.
  assert (Hsome : forall acc, aggregatePubKeys c = Some acc ->
                    exists i, (i < 512)%nat /\ nth i (ScBits c) 0 = 1).
  { intros acc. unfold aggregatePubKeys. cbv zeta.
    destruct (fold_left (aggregateStep c) (seq 1 511)
                (Some (nth 0 (ScPubKeys c) zeroG1, nth 0 (ScBits c) 0)))
      as [[acc' h]|] eqn:Hfold; [|discriminate].
    cbn [mbind option_bind]. unfold api.AssertIsEqual.
    destruct (Z.eqb_spec h 1) as [->|]; [|discriminate]. intros _.
    destruct (aggregate_fold_flag c 511 _ _ _ _ (Hbool 0%nat ltac:(lia)) Hfold) as [_ Hex].
    destruct (Hex eq_refl) as [H0|(i & Hi & Hbi)].
    - exists 0%nat. split; [lia | exact H0].
    - exists i. split; [lia | exact Hbi]. }
  split; [exact Hsome|].
  intros Hzero. destruct (aggregatePubKeys c) as [acc|] eqn:Hagg; [|reflexivity].
  destruct (Hsome acc eq_refl) as (i & Hi & Hbi). rewrite (Hzero i Hi) in Hbi. discriminate.
Qed.

Lemma nth_repeat_lt {A} (a d : A) (n i : nat) :
  (i < n)%nat -> nth i (repeat a n) d = a.
Proof.
  revert i. induction n as [|n IH]; intros i Hi; [lia|].
  destruct i as [|i]; [reflexivity|]. cbn [repeat nth]. apply IH. lia.
Qed.

Lemma noSigner_bits (i : nat) : (i < 512)%nat -> nth i (ScBits noSignerWitness) 0 = 0.
Proof. intros Hi. apply (nth_repeat_lt 0 0 512 i Hi). Qed.

Lemma aggregatePubKeys_asserts_participant_witness :
  aggregatePubKeys noSignerWitness = None.
Proof.
  apply (aggregatePubKeys_asserts_participant noSignerWitness).
  - reflexivity.
  - intros i Hi. left. exact (noSigner_bits i Hi).
  - exact noSigner_bits.
Defined.

(** The addition gate has a result as soon as the x-coordinates differ. *)
Lemma curve_Add_defined (P Q : sw_bls12381.G1Affine) :
  (fp.value (fp.Sub (sw_bls12381.X Q) (sw_bls12381.X P)) mod fp.Modulus =? 0) = false ->
  exists sum, curve.Add P Q = Some sum.
Proof.
  intros Hx. unfold curve.Add, fp.Div. cbv zeta. rewrite Hx.
  cbn [mbind option_bind]. eexists. reflexivity.
Qed.

(** With equal x-coordinates the divisor vanishes and it has none. *)
Lemma curve_Add_undefined (P Q : sw_bls12381.G1Affine) :
  (fp.value (fp.Sub (sw_bls12381.X Q) (sw_bls12381.X P)) mod fp.Modulus =? 0) = true ->
  curve.Add P Q = None.
Proof.
  intros Hx. unfold curve.Add, fp.Div. cbv zeta. rewrite Hx. reflexivity.
Qed.

Example g1Dbl_on_curve : bls12381.IsOnCurve g1Dbl = true.
Proof. vm_compute. reflexivity. Qed.

Lemma oneSigner_key (i : nat) :
  (1 <= i < 512)%nat ->
  nth i (ScPubKeys oneSignerWitness) zeroG1 = sw_bls12381.NewG1Affine g1Dbl.
Proof.
  intros Hi. destruct i as [|i]; [lia|].
  cbn [oneSignerWitness sampleWitness ScPubKeys oneSignerKeys map nth].
  rewrite map_repeat. apply nth_repeat_lt. lia.
Qed.

Lemma oneSigner_bit (i : nat) :
  (1 <= i < 512)%nat -> nth i (ScBits oneSignerWitness) 0 = 0.
Proof.
  intros Hi. destruct i as [|i]; [lia|].
  cbn [oneSignerWitness sampleWitness ScBits nth]. apply nth_repeat_lt. lia.
Qed.

(** A satisfiable instance: one signer, the other keys different from
    the signer's. *)
Example aggregatePubKeys_one_signer :
  aggregatePubKeys oneSignerWitness = Some (sw_bls12381.NewG1Affine bls12381.g1Gen).
Proof.
  unfold aggregatePubKeys. cbv zeta.
  change (nth 0 (ScPubKeys oneSignerWitness) zeroG1)
    with (sw_bls12381.NewG1Affine bls12381.g1Gen).
  change (nth 0 (ScBits oneSignerWitness) 0) with 1.
  rewrite fold_left_fixpoint; [reflexivity|].
  intros i Hi. apply in_seq in Hi.
  rewrite aggregateStep_boolean;
    [| right; reflexivity | left; apply oneSigner_bit; lia].
  rewrite oneSigner_key, oneSigner_bit by lia.
  destruct (curve_Add_defined (sw_bls12381.NewG1Affine bls12381.g1Gen)
                              (sw_bls12381.NewG1Affine g1Dbl)) as [sum ->];
    [vm_compute; reflexivity | reflexivity].
Qed.

Lemma Add_infinity_l (Q : bls12381.G1Affine) : bls12381.Add bls12381.infinity Q = Q.
Proof. reflexivity. Qed.

(** C1, at a committee in which the first two members hold the same key
    and both signed: the plain sum of the selected keys is twice that key,
    and the constraints of [aggregatePubKeys] have no solution, because the
    first round feeds the incomplete addition gate with two equal points. *)
Theorem aggregatePubKeys_duplicate_keys :
  selected sampleKeys (ScBits duplicateKeysWitness) = [bls12381.g1Gen; bls12381.g1Gen]
  /\ g1_sum (selected sampleKeys (ScBits duplicateKeysWitness))
     = bls12381.Add bls12381.g1Gen bls12381.g1Gen
  /\ ScPubKeys duplicateKeysWitness = map sw_bls12381.NewG1Affine sampleKeys
  /\ curve.Add (nth 0 (ScPubKeys duplicateKeysWitness) zeroG1)
               (nth 1 (ScPubKeys duplicateKeysWitness) zeroG1) = None
  /\ aggregatePubKeys duplicateKeysWitness = None.
Proof.
  assert (Hsel : selected sampleKeys (ScBits duplicateKeysWitness)
                 = [bls12381.g1Gen; bls12381.g1Gen]).
  { unfold duplicateKeysWitness, sampleWitness. cbn [ScBits]. reflexivity. }
  assert (Hadd : curve.Add (sw_bls12381.NewG1Affine bls12381.g1Gen)
                           (sw_bls12381.NewG1Affine bls12381.g1Gen) = None).
  { apply curve_Add_undefined. vm_compute. reflexivity. }
  split; [exact Hsel|].
  split; [rewrite Hsel; unfold g1_sum; cbn [fold_left]; now rewrite Add_infinity_l|].
  split; [reflexivity|]. split; [exact Hadd|].
  unfold aggregatePubKeys. cbv zeta.
  change (seq 1 511) with (1%nat :: seq 2 510). cbn [fold_left].
  rewrite aggregateStep_boolean by (right; reflexivity).
  change (nth 0 (ScPubKeys duplicateKeysWitness) zeroG1)
    with (sw_bls12381.NewG1Affine bls12381.g1Gen).
  change (nth 1 (ScPubKeys duplicateKeysWitness) zeroG1)
    with (sw_bls12381.NewG1Affine bls12381.g1Gen).
  rewrite Hadd, aggregate_fold_None. reflexivity.
Qed.

(* ===================================================================== *)
(** ** Key aggregation on regular inputs *)
(* ===================================================================== *)

Lemma p_pos : 0 < bls12381.p.
Proof. reflexivity. Qed.

Lemma value_NewG1Affine_X (P : bls12381.G1Affine) :
  0 <= bls12381.X P < bls12381.p ->
  fp.value (sw_bls12381.X (sw_bls12381.NewG1Affine P)) = bls12381.X P.
Proof.
  intros HP. cbn [sw_bls12381.NewG1Affine sw_bls12381.X].
  apply value_ValueOf. pose proof Modulus_bounds. unfold bls12381.p in HP. lia.
Qed.

Lemma value_NewG1Affine_Y (P : bls12381.G1Affine) :
  0 <= bls12381.Y P < bls12381.p ->
  fp.value (sw_bls12381.Y (sw_bls12381.NewG1Affine P)) = bls12381.Y P.
Proof.
  intros HP. cbn [sw_bls12381.NewG1Affine sw_bls12381.Y].
  apply value_ValueOf. pose proof Modulus_bounds. unfold bls12381.p in HP. lia.
Qed.

Lemma value_Sub a b : fp.value (fp.Sub a b) = (fp.value a - fp.value b) mod fp.Modulus.
Proof. apply value_ValueOf_mod. Qed.

Lemma value_Add a b : fp.value (fp.Add a b) = (fp.value a + fp.value b) mod fp.Modulus.
Proof. apply value_ValueOf_mod. Qed.

Lemma value_Mul a b : fp.value (fp.Mul a b) = (fp.value a * fp.value b) mod fp.Modulus.
Proof. apply value_ValueOf_mod. Qed.

(** Away from its exceptional cases the gate computes the group law. *)
Lemma curve_Add_chord (P Q : bls12381.G1Affine) :
  affine_point P -> affine_point Q ->
  bls12381.X P <> bls12381.X Q ->
  curve.Add (sw_bls12381.NewG1Affine P) (sw_bls12381.NewG1Affine Q)
  = Some (sw_bls12381.NewG1Affine (bls12381.Add P Q)).
Proof.
  intros (HPx & HPy & HPinf) (HQx & HQy & HQinf) Hx.
  pose proof p_pos as Hp.
  assert (Hdiff : (bls12381.X Q - bls12381.X P) mod bls12381.p <> 0).
  { intros H0. apply Z.mod_divide in H0; [|lia]. destruct H0 as [k Hk].
    assert (k = 0) by nia. subst k. lia. }
  set (a := sw_bls12381.NewG1Affine P). set (b := sw_bls12381.NewG1Affine Q).
  assert (Hax : fp.value (sw_bls12381.X a) = bls12381.X P) by now apply value_NewG1Affine_X.
  assert (Hay : fp.value (sw_bls12381.Y a) = bls12381.Y P) by now apply value_NewG1Affine_Y.
  assert (Hbx : fp.value (sw_bls12381.X b) = bls12381.X Q) by now apply value_NewG1Affine_X.
  assert (Hby : fp.value (sw_bls12381.Y b) = bls12381.Y Q) by now apply value_NewG1Affine_Y.
  set (d := fp.inv ((bls12381.X Q - bls12381.X P) mod bls12381.p)).
  set (lam := ((bls12381.Y Q - bls12381.Y P) * d) mod bls12381.p).
  set (xr := (lam * lam - bls12381.X P - bls12381.X Q) mod bls12381.p).
  set (yr := (lam * (bls12381.X P - xr) - bls12381.Y P) mod bls12381.p).
  assert (HL : fp.Div (fp.Sub (sw_bls12381.Y b) (sw_bls12381.Y a))
                      (fp.Sub (sw_bls12381.X b) (sw_bls12381.X a))
               = Some (fp.ValueOf lam)).
  { unfold fp.Div. rewrite !value_Sub, Hax, Hay, Hbx, Hby. fold bls12381.p.
    rewrite Z.mod_mod by lia.
    destruct (Z.eqb_spec ((bls12381.X Q - bls12381.X P) mod bls12381.p) 0) as [H0|_];
      [contradiction|].
    fold d. unfold lam. now rewrite Z.mul_mod_idemp_l by lia. }
  assert (HvL : fp.value (fp.ValueOf lam) = lam) by apply value_ValueOf_mod.
  assert (HXR : fp.value (fp.Sub (fp.Mul (fp.ValueOf lam) (fp.ValueOf lam))
                                 (fp.Add (sw_bls12381.X a) (sw_bls12381.X b))) = xr).
  { rewrite value_Sub, value_Mul, value_Add, HvL, Hax, Hbx. fold bls12381.p.
    unfold xr. rewrite <- Zminus_mod. f_equal. lia. }
  assert (HYR : fp.value
                  (fp.Sub (fp.Mul (fp.ValueOf lam)
                             (fp.Sub (sw_bls12381.X a)
                                (fp.Sub (fp.Mul (fp.ValueOf lam) (fp.ValueOf lam))
                                        (fp.Add (sw_bls12381.X a) (sw_bls12381.X b)))))
                          (sw_bls12381.Y a)) = yr).
  { rewrite value_Sub, value_Mul, value_Sub, HXR, HvL, Hax, Hay. fold bls12381.p.
    rewrite Z.mul_mod_idemp_r by lia. rewrite Zminus_mod_idemp_l. reflexivity. }
  unfold curve.Add. cbv zeta. rewrite HL. cbn [mbind option_bind].
  unfold fp.Reduce. rewrite HXR, HYR. fold bls12381.p.
  unfold xr at 1, yr at 1. rewrite !Z.mod_mod by lia. fold xr yr.
  unfold bls12381.Add. rewrite HPinf, HQinf.
  destruct (Z.eqb_spec (bls12381.X P) (bls12381.X Q)) as [Heq|_]; [contradiction|].
  reflexivity.
Qed.

Lemma Add_chord_affine (P Q : bls12381.G1Affine) :
  bls12381.IsInfinity P = false -> bls12381.IsInfinity Q = false ->
  bls12381.X P <> bls12381.X Q ->
  0 <= bls12381.X (bls12381.Add P Q) < bls12381.p
  /\ 0 <= bls12381.Y (bls12381.Add P Q) < bls12381.p.
Proof.
  intros HP HQ Hx. unfold bls12381.Add. rewrite HP, HQ.
  destruct (Z.eqb_spec (bls12381.X P) (bls12381.X Q)); [contradiction|].
  unfold bls12381.third. cbn [bls12381.X bls12381.Y].
  split; apply Z.mod_pos_bound; apply p_pos.
Qed.

Lemma selected_app {A} (l1 l2 : list A) (b1 b2 : list Z) :
  length l1 = length b1 ->
  selected (l1 ++ l2) (b1 ++ b2) = selected l1 b1 ++ selected l2 b2.
Proof.
  revert b1. induction l1 as [|k l1 IH]; intros [|b b1] Hlen; try discriminate;
    [reflexivity|].
  cbn [app selected]. injection Hlen as Hlen.
  destruct (b =? 1); cbn [app]; now rewrite IH.
Qed.

Lemma selected_firstn_S {A} (keys : list A) (bits : list Z) (d : A) (n : nat) :
  (n < length keys)%nat -> (n < length bits)%nat ->
  selected (firstn (S n) keys) (firstn (S n) bits)
  = selected (firstn n keys) (firstn n bits)
    ++ (if nth n bits 0 =? 1 then [nth n keys d] else []).
Proof.
  intros Hk Hb.
  rewrite (firstn_S_nth keys d) by exact Hk. rewrite (firstn_S_nth bits 0) by exact Hb.
  rewrite selected_app by (rewrite !length_firstn; lia).
  cbn [selected]. now destruct (nth n bits 0 =? 1).
Qed.

Lemma g1_sum_snoc (l : list bls12381.G1Affine) (k : bls12381.G1Affine) :
  g1_sum (l ++ [k]) = bls12381.Add (g1_sum l) k.
Proof. unfold g1_sum. now rewrite fold_left_app. Qed.

(** The host's running sum is the sum of the keys selected so far. *)
Lemma running_sum_selected (keys : list bls12381.G1Affine) (bits : list Z) (n : nat) :
  (n < length keys)%nat -> (n < length bits)%nat ->
  (forall i, (i <= n)%nat -> nth i bits 0 = 0 \/ nth i bits 0 = 1) ->
  let sel := selected (firstn (S n) keys) (firstn (S n) bits) in
  (snd (running_sum keys bits n) = 1 /\ sel <> []
   /\ fst (running_sum keys bits n) = g1_sum sel)
  \/ (snd (running_sum keys bits n) = 0 /\ sel = []).
Proof.
  intros Hk Hb Hbool. induction n as [|n IH]; cbv zeta.
  - destruct keys as [|k keys]; [simpl in Hk; lia|].
    destruct bits as [|b bits]; [simpl in Hb; lia|].
    cbn [running_sum firstn selected nth fst snd].
    destruct (Hbool 0%nat ltac:(lia)) as [H0|H1]; cbn [nth] in *; subst b.
    + right. split; reflexivity.
    + left. split; [reflexivity|]. split; [discriminate|].
      cbn [Z.eqb Pos.eqb]. unfold g1_sum. cbn [fold_left]. now rewrite Add_infinity_l.
  - rewrite (selected_firstn_S keys bits bls12381.infinity (S n)) by lia.
    cbn [running_sum].
    destruct (running_sum keys bits n) as [acc h] eqn:Hrun. cbn [fst snd] in *.
    specialize (IH ltac:(lia) ltac:(lia) ltac:(intros i Hi; apply Hbool; lia)).
    cbv zeta in IH.
    destruct (Hbool (S n) ltac:(lia)) as [Hbit|Hbit]; rewrite Hbit; cbn [Z.eqb Pos.eqb].
    + rewrite app_nil_r, orb_false_r.
      destruct IH as [(Hh & Hne & Hacc)|(Hh & Hsel)]; subst h; cbn [Z.eqb Pos.eqb].
      * left. repeat split; assumption.
      * right. split; [reflexivity | assumption].
    + rewrite orb_true_r. left. split; [reflexivity|].
      split; [intros Hnil; apply app_eq_nil in Hnil; destruct Hnil; discriminate|].
      destruct IH as [(Hh & Hne & Hacc)|(Hh & Hsel)]; subst h; cbn [Z.eqb Pos.eqb].
      * now rewrite g1_sum_snoc, Hacc.
      * rewrite Hsel. cbn [app]. unfold g1_sum. cbn [fold_left].
        now rewrite Add_infinity_l.
Qed.

(** The loop of the circuit follows the host's running sum as long as no
    round is exceptional. *)
Lemma aggregate_fold_regular (c : Eth2ScUpdateCircuit)
    (keys : list bls12381.G1Affine) (n : nat) :
  (n <= 511)%nat ->
  length keys = 512%nat ->
  ScPubKeys c = map sw_bls12381.NewG1Affine keys ->
  (forall i, (i < 512)%nat -> nth i (ScBits c) 0 = 0 \/ nth i (ScBits c) 0 = 1) ->
  (forall i, (i < 512)%nat -> affine_point (nth i keys bls12381.infinity)) ->
  regular keys (ScBits c) ->
  fold_left (aggregateStep c) (seq 1 n)
            (Some (nth 0 (ScPubKeys c) zeroG1, nth 0 (ScBits c) 0))
  = Some (sw_bls12381.NewG1Affine (fst (running_sum keys (ScBits c) n)),
          snd (running_sum keys (ScBits c) n))
  /\ 0 <= bls12381.X (fst (running_sum keys (ScBits c) n)) < bls12381.p
  /\ 0 <= bls12381.Y (fst (running_sum keys (ScBits c) n)) < bls12381.p
  /\ (snd (running_sum keys (ScBits c) n) = 0 \/ snd (running_sum keys (ScBits c) n) = 1).
Proof.
  intros Hn Hlen Hkeys Hbool Haff Hreg.
  assert (Hnth : forall i, (i < 512)%nat ->
            nth i (ScPubKeys c) zeroG1
            = sw_bls12381.NewG1Affine (nth i keys bls12381.infinity)).
  { intros i Hi. rewrite Hkeys.
    rewrite (nth_indep _ zeroG1 (sw_bls12381.NewG1Affine bls12381.infinity))
      by (rewrite length_map; lia).
    apply map_nth. }
  induction n as [|n IH].
  - cbn [seq fold_left running_sum fst snd]. rewrite Hnth by lia.
    destruct (Haff 0%nat ltac:(lia)) as (Hx & Hy & _).
    repeat split; try tauto. apply Hbool. lia.
  - destruct (IH ltac:(lia)) as (Hfold & Hax & Hay & Hh). clear IH.
    rewrite seq_S, fold_left_app, Hfold. cbn [fold_left Nat.add].
    destruct (Hreg n ltac:(lia)) as [Hinf Hxne].
    rewrite aggregateStep_boolean by (auto; apply Hbool; lia).
    rewrite Hnth by lia.
    destruct (Haff (S n) ltac:(lia)) as (Hkx & Hky & Hkinf).
    rewrite curve_Add_chord by (unfold affine_point; auto).
    cbn [running_sum].
    destruct (running_sum keys (ScBits c) n) as [acc h]. cbn [fst snd] in *.
    pose proof (Add_chord_affine acc (nth (S n) keys bls12381.infinity) Hinf Hkinf Hxne)
      as [Hsx Hsy].
    destruct (nth (S n) (ScBits c) 0 =? 1); destruct (h =? 1); cbn [fst snd orb];
      repeat split; auto; try tauto.
Qed.

(** On regular inputs the accumulator is the plain sum of the selected
    keys, taken in index order from the point at infinity. *)
Lemma aggregatePubKeys_regular (c : Eth2ScUpdateCircuit) (keys : list bls12381.G1Affine) :
  length keys = 512%nat ->
  ScPubKeys c = map sw_bls12381.NewG1Affine keys ->
  length (ScBits c) = 512%nat ->
  (forall i, (i < 512)%nat -> nth i (ScBits c) 0 = 0 \/ nth i (ScBits c) 0 = 1) ->
  (forall i, (i < 512)%nat -> affine_point (nth i keys bls12381.infinity)) ->
  regular keys (ScBits c) ->
  (exists i, (i < 512)%nat /\ nth i (ScBits c) 0 = 1) ->
  aggregatePubKeys c
  = Some (sw_bls12381.NewG1Affine (g1_sum (selected keys (ScBits c)))).
Proof.
  intros Hlen Hkeys Hblen Hbool Haff Hreg (i & Hi & Hbit).
  destruct (aggregate_fold_regular c keys 511 ltac:(lia) Hlen Hkeys Hbool Haff Hreg)
    as (Hfold & _ & _ & _).
  unfold aggregatePubKeys. cbv zeta. rewrite Hfold. cbn [mbind option_bind].
  pose proof (running_sum_selected keys (ScBits c) 511 ltac:(lia) ltac:(lia)
                ltac:(intros j Hj; apply Hbool; lia)) as Hsel.
  cbv zeta in Hsel.
  rewrite (firstn_all2 keys), (firstn_all2 (ScBits c)) in Hsel by lia.
  destruct Hsel as [(Hh & _ & Hacc)|(_ & Hnil)].
  - rewrite Hh, Hacc. reflexivity.
  - exfalso. clear - Hnil Hi Hbit Hlen Hblen.
    assert (Hgen : forall (ks : list bls12381.G1Affine) (bs : list Z) (j : nat),
              length ks = length bs -> (j < length bs)%nat -> nth j bs 0 = 1 ->
              selected ks bs <> []).
    { induction ks as [|k ks IHk]; intros [|b bs] j Hl Hj Hb; try (simpl in *; lia).
      cbn [selected]. destruct j as [|j].
      - cbn [nth] in Hb. subst b. discriminate.
      - destruct (b =? 1); [discriminate|].
        apply (IHk bs j); simpl in *; [lia | lia | exact Hb]. }
    apply (Hgen keys (ScBits c) i); [lia | lia | exact Hbit | exact Hnil].
Qed.


(* ===================================================================== *)
(** ** Circuit setup: the three entry points *)
(* ===================================================================== *)

Lemma append_inv_head (s a b : string) : s +:+ a = s +:+ b -> a = b.
Proof.
  induction s as [|ch s IH]; cbn [String.append]; [auto|].
  intros [= H]. now apply IH.
Qed.

Lemma filepath_Join_inj (dir a b : string) :
  filepath_Join dir a = filepath_Join dir b -> a = b.
Proof.
  unfold filepath_Join. intros H. apply append_inv_head in H.
  now apply (append_inv_head "/") in H.
Qed.

Lemma compilations_log e w :
  compilations (log e w) = (if is_compile e then S (compilations w) else compilations w).
Proof. unfold compilations, log. cbn [trace List.filter]. now destruct (is_compile e). Qed.

Lemma createAndWrite__compilations path f w :
  compilations (createAndWrite_ path f w) = compilations w.
Proof.
  unfold createAndWrite_, createAndWrite. destruct (creatable w path); reflexivity.
Qed.

Lemma createAndWrite__creatable path f w :
  creatable (createAndWrite_ path f w) = creatable w.
Proof.
  unfold createAndWrite_, createAndWrite. destruct (creatable w path); reflexivity.
Qed.

Lemma createAndWrite__other path path' f w :
  path <> path' ->
  files (createAndWrite_ path f w) !! path' = files w !! path'.
Proof.
  intros Hne. unfold createAndWrite_, createAndWrite.
  destruct (creatable w path); [|reflexivity]. cbn [files]. now rewrite lookup_insert_ne.
Qed.

Lemma createAndWrite__same path f w :
  creatable w path = true ->
  files (createAndWrite_ path f w) !! path = Some f.
Proof.
  intros Hc. unfold createAndWrite_, createAndWrite. rewrite Hc. cbn [files].
  apply lookup_insert_eq.
Qed.

(** Step 1 with no cache file: the circuit is compiled and, when the file
    can be created, stored. *)
Lemma onceSetupCircuit_compile_absent ccsPath w :
  files w !! ccsPath = None ->
  exists w',
    onceSetupCircuit_compile ccsPath w = Done (CompiledCS "Eth2ScUpdateCircuit", w')
    /\ compilations w' = S (compilations w)
    /\ creatable w' = creatable w
    /\ (forall path, path <> ccsPath -> files w' !! path = files w !! path)
    /\ (creatable w ccsPath = true ->
        files w' !! ccsPath = Some (FileCCS (CompiledCS "Eth2ScUpdateCircuit"))).
Proof.
  intros Habs. unfold onceSetupCircuit_compile, os_Open. rewrite Habs.
  cbn [frontend_Compile]. eexists. split; [reflexivity|].
  split; [now rewrite createAndWrite__compilations, compilations_log|].
  split; [now rewrite createAndWrite__creatable|]. split.
  - intros path Hne. now rewrite createAndWrite__other by congruence.
  - intros Hc. now apply createAndWrite__same.
Qed.

(** Step 1 with a cache file: the circuit is loaded, not compiled. *)
Lemma onceSetupCircuit_compile_present ccsPath cs w :
  files w !! ccsPath = Some (FileCCS cs) ->
  exists w',
    onceSetupCircuit_compile ccsPath w = Done (cs, w')
    /\ compilations w' = compilations w
    /\ creatable w' = creatable w
    /\ files w' = files w.
Proof.
  intros Hpres. unfold onceSetupCircuit_compile, os_Open. rewrite Hpres.
  cbn [CS_ReadFrom]. eexists. split; [reflexivity|].
  split; [now rewrite compilations_log|]. split; reflexivity.
Qed.

(** Step 2 never compiles and leaves the other files alone. *)
Lemma onceSetupCircuit_setup_done pkPath vkPath ccs w :
  key_files_usable pkPath vkPath w ->
  exists pk vk w',
    onceSetupCircuit_setup pkPath vkPath ccs w = Done (pk, vk, w')
    /\ compilations w' = compilations w
    /\ (forall path, path <> pkPath -> path <> vkPath ->
          files w' !! path = files w !! path).
Proof.
  intros [Hpk Hvk]. unfold onceSetupCircuit_setup, os_Open.
  assert (Hgen : exists pk vk w',
            (let '(pk, vk, w0) := groth16_Setup ccs w in
             Done (pk, vk, createAndWrite_ vkPath (FileVK vk)
                             (createAndWrite_ pkPath (FilePK pk) w0)))
            = Done (pk, vk, w')
            /\ compilations w' = compilations w
            /\ (forall path, path <> pkPath -> path <> vkPath ->
                  files w' !! path = files w !! path)).
  { cbn [groth16_Setup]. do 3 eexists. split; [reflexivity|]. split.
    - rewrite !createAndWrite__compilations. reflexivity.
    - intros path H1 H2. rewrite !createAndWrite__other by congruence. reflexivity. }
  destruct Hpk as [Hpk|[pk Hpk]]; rewrite Hpk; [exact Hgen|].
  destruct Hvk as [Hvk|[vk Hvk]]; rewrite Hvk; [exact Hgen|].
  cbn [PK_ReadFrom VK_ReadFrom]. do 3 eexists. split; [reflexivity|].
  split; [now rewrite !compilations_log|]. intros path _ _. reflexivity.
Qed.

Lemma SetupCircuit_always_compiles w :
  creatable w "./.build/ScUpdateVerifierCircuit.ccs" = true ->
  creatable w "./.build/ScUpdateVerifierCircuit.pk" = true ->
  creatable w "./.build/ScUpdateVerifierCircuit.vk" = true ->
  exists pk vk w',
    SetupCircuit w = Done (CompiledCS "ScUpdateVerifierCircuit", pk, vk, w')
    /\ compilations w' = S (compilations w)
    /\ files w' !! "./.build/ScUpdateVerifierCircuit.ccs"
       = Some (FileCCS (CompiledCS "ScUpdateVerifierCircuit")).
Proof.
  intros H1 H2 H3. unfold SetupCircuit. cbv zeta.
  change (filepath_Join "." ".build/ScUpdateVerifierCircuit.ccs")
    with "./.build/ScUpdateVerifierCircuit.ccs".
  change (filepath_Join "." ".build/ScUpdateVerifierCircuit.pk")
    with "./.build/ScUpdateVerifierCircuit.pk".
  change (filepath_Join "." ".build/ScUpdateVerifierCircuit.vk")
    with "./.build/ScUpdateVerifierCircuit.vk".
  cbn [frontend_Compile]. unfold createAndWrite at 1.
  cbn [log creatable]. rewrite H1. cbn [groth16_Setup].
  unfold createAndWrite at 1. cbn [creatable]. rewrite H2.
  unfold createAndWrite at 1. cbn [creatable]. rewrite H3.
  do 3 eexists. split; [reflexivity|]. split; [reflexivity|].
  cbn [files]. rewrite !lookup_insert_ne by discriminate. apply lookup_insert_eq.
Qed.

Lemma setupCircuit_absent r w :
  ccs r = None ->
  files w !! filepath_Join (RootDir (config r)) "../.build/Eth2ScUpdateCircuit.ccs" = None ->
  exists e, setupCircuit r w = Failed ("failed to open CCS file: " +:+ e).
Proof.
  intros Hccs Habs. unfold setupCircuit, os_Open. rewrite Hccs, Habs. eexists. reflexivity.
Qed.

Lemma setupCircuit_present r w cs k :
  ccs r = None ->
  files w !! filepath_Join (RootDir (config r)) "../.build/Eth2ScUpdateCircuit.ccs"
    = Some (FileCCS cs) ->
  files w !! filepath_Join (RootDir (config r)) "../.build/Eth2ScUpdateCircuit.pk"
    = Some (FilePK k) ->
  exists w',
    setupCircuit r w
    = Done (mkRelayer (config r) (Some cs) (Some k) (scPubKeysHash r) (currentScPubkeys r), w')
    /\ compilations w' = compilations w
    /\ files w' = files w.
Proof.
  intros Hccs Hc Hk. unfold setupCircuit, os_Open. rewrite Hccs, Hc.
  cbn [CS_ReadFrom config log files]. rewrite Hk. cbn [PK_ReadFrom].
  eexists. split; [reflexivity|]. split; reflexivity.
Qed.

(** C9 (amended). The step from Uncompiled to Compiled is cached by the
    test entry point only.  [onceSetupCircuit] compiles the constraint
    system of the fixed circuit definition only when no build artifact
    opens, stores it (when the file can be created), and reloads it from
    the cache file when it is present instead of compiling.  [SetupCircuit]
    compiles and overwrites the artifact on every run, whether or not it
    exists.  [Relayer.setupCircuit] never compiles: it loads the artifact
    when present and fails when it is missing. *)
Theorem setup_entry_points_caching :
  (forall rootDir g w,
     let ccsPath := filepath_Join rootDir ".build/Eth2ScUpdateCircuit.ccs" in
     let pkPath := filepath_Join rootDir ".build/Eth2ScUpdateCircuit.pk" in
     let vkPath := filepath_Join rootDir ".build/Eth2ScUpdateCircuit.vk" in
     blsVerifierCCS g = None ->
     key_files_usable pkPath vkPath w ->
     (files w !! ccsPath = None ->
        exists g' w',
          onceSetupCircuit rootDir g w = Done (g', w')
          /\ blsVerifierCCS g' = Some (CompiledCS "Eth2ScUpdateCircuit")
          /\ compilations w' = S (compilations w)
          /\ (creatable w ccsPath = true ->
              files w' !! ccsPath = Some (FileCCS (CompiledCS "Eth2ScUpdateCircuit"))))
     /\ (forall cs, files w !! ccsPath = Some (FileCCS cs) ->
        exists g' w',
          onceSetupCircuit rootDir g w = Done (g', w')
          /\ blsVerifierCCS g' = Some cs
          /\ compilations w' = compilations w
          /\ files w' !! ccsPath = Some (FileCCS cs)))
  /\ (forall w,
        creatable w "./.build/ScUpdateVerifierCircuit.ccs" = true ->
        creatable w "./.build/ScUpdateVerifierCircuit.pk" = true ->
        creatable w "./.build/ScUpdateVerifierCircuit.vk" = true ->
        exists pk vk w',
          SetupCircuit w = Done (CompiledCS "ScUpdateVerifierCircuit", pk, vk, w')
          /\ compilations w' = S (compilations w)
          /\ files w' !! "./.build/ScUpdateVerifierCircuit.ccs"
             = Some (FileCCS (CompiledCS "ScUpdateVerifierCircuit")))
  /\ (forall r w,
        let ccsPath := filepath_Join (RootDir (config r)) "../.build/Eth2ScUpdateCircuit.ccs" in
        let pkPath := filepath_Join (RootDir (config r)) "../.build/Eth2ScUpdateCircuit.pk" in
        ccs r = None ->
        (files w !! ccsPath = None ->
           exists e, setupCircuit r w = Failed ("failed to open CCS file: " +:+ e))
        /\ (forall cs k,
              files w !! ccsPath = Some (FileCCS cs) ->
              files w !! pkPath = Some (FilePK k) ->
              exists w',
                setupCircuit r w
                = Done (mkRelayer (config r) (Some cs) (Some k)
                                  (scPubKeysHash r) (currentScPubkeys r), w')
                /\ compilations w' = compilations w
                /\ files w' = files w)).
Proof.
  split; [|split].
  - intros rootDir g w ccsPath pkPath vkPath Hg Hkeys.
    assert (Hpk : pkPath <> ccsPath)
      by (intros Heq; apply filepath_Join_inj in Heq; discriminate Heq).
    assert (Hvk : vkPath <> ccsPath)
      by (intros Heq; apply filepath_Join_inj in Heq; discriminate Heq).
    split.
    + intros Habs.
      destruct (onceSetupCircuit_compile_absent ccsPath w Habs)
        as (w1 & Hstep1 & Hcount1 & _ & Hother1 & Hstored).
      assert (Hkeys1 : key_files_usable pkPath vkPath w1).
      { unfold key_files_usable. rewrite !Hother1 by assumption. exact Hkeys. }
      destruct (onceSetupCircuit_setup_done pkPath vkPath (CompiledCS "Eth2ScUpdateCircuit")
                  w1 Hkeys1) as (k & v & w2 & Hstep2 & Hcount2 & Hother2).
      exists (mkTestGlobals (Some (CompiledCS "Eth2ScUpdateCircuit")) (Some k) (Some v)), w2.
      split; [|split; [reflexivity|split]].
      * unfold onceSetupCircuit. rewrite Hg. cbv zeta.
        fold ccsPath pkPath vkPath. rewrite Hstep1, Hstep2. reflexivity.
      * congruence.
      * intros Hc. rewrite Hother2 by congruence. now apply Hstored.
    + intros cs Hpres.
      destruct (onceSetupCircuit_compile_present ccsPath cs w Hpres)
        as (w1 & Hstep1 & Hcount1 & _ & Hfiles1).
      assert (Hkeys1 : key_files_usable pkPath vkPath w1).
      { unfold key_files_usable. rewrite Hfiles1. exact Hkeys. }
      destruct (onceSetupCircuit_setup_done pkPath vkPath cs w1 Hkeys1)
        as (k & v & w2 & Hstep2 & Hcount2 & Hother2).
      exists (mkTestGlobals (Some cs) (Some k) (Some v)), w2.
      split; [|split; [reflexivity|split]].
      * unfold onceSetupCircuit. rewrite Hg. cbv zeta.
        fold ccsPath pkPath vkPath. rewrite Hstep1, Hstep2. reflexivity.
      * congruence.
      * rewrite Hother2 by congruence. now rewrite Hfiles1.
  - exact SetupCircuit_always_compiles.
  - intros r w ccsPath pkPath Hccs. split.
    + now apply setupCircuit_absent.
    + intros cs k Hc Hk. now apply setupCircuit_present.
Qed.

Lemma setup_entry_points_caching_witness :
  exists g' w',
    onceSetupCircuit "repo" (mkTestGlobals None None None) testCachedWorld = Done (g', w')
    /\ blsVerifierCCS g' = Some (CompiledCS "Eth2ScUpdateCircuit")
    /\ compilations w' = compilations testCachedWorld
    /\ files w' !! filepath_Join "repo" ".build/Eth2ScUpdateCircuit.ccs"
       = Some (FileCCS (CompiledCS "Eth2ScUpdateCircuit")).
Proof.
  apply (proj1 setup_entry_points_caching "repo" (mkTestGlobals None None None)
               testCachedWorld).
  - reflexivity.
  - split; right; eexists; reflexivity.
  - reflexivity.
Defined.

(** The claim for each entry point: with the artifact on disk the setup
    command compiles again, and with no artifact the relayer does not
    compile but fails. *)
Lemma setup_not_cached_by_each_entry_point :
  files cachedWorld !! "./.build/ScUpdateVerifierCircuit.ccs"
    = Some (FileCCS (CompiledCS "ScUpdateVerifierCircuit"))
  /\ (exists pk vk w',
        SetupCircuit cachedWorld = Done (CompiledCS "ScUpdateVerifierCircuit", pk, vk, w')
        /\ compilations cachedWorld = 0%nat
        /\ compilations w' = 1%nat)
  /\ setupCircuit freshRelayer emptyWorld
     = Failed "failed to open CCS file: open relayer/../.build/Eth2ScUpdateCircuit.ccs: no such file or directory".
Proof.
  split; [reflexivity|]. split; [|reflexivity].
  do 3 eexists. split; [reflexivity|]. split; reflexivity.
Qed.

(* ===================================================================== *)
(** ** The relayer loop (Relayer.Run) *)
(* ===================================================================== *)

Section RunProperties.

Context `{Fetcher} `{Backend}.

Lemma generateProof_bad_signature r update e :
  G2_SetBytes (SyncAggregate_SyncCommitteeSignature update) = Err e ->
  generateProof r update = Err ("failed to deserialize signature: " +:+ e).
Proof. intros Hsig. unfold generateProof. cbv zeta. now rewrite Hsig. Qed.

Lemma Run_iteration_generateProof_error r period calls w update e :
  ScUpdate calls period = Ok update ->
  generateProof r update = Err e ->
  Run_iteration r period calls w = inr (Returned ("failed to generate proof: " +:+ e)).
Proof. intros Hfetch Hgen. unfold Run_iteration. now rewrite Hfetch, Hgen. Qed.

Lemma Run_iteration_fetch_error r period calls w e :
  ScUpdate calls period = Err e ->
  Run_iteration r period calls w = inl (r, period, S calls, w).
Proof. intros Hfetch. unfold Run_iteration. now rewrite Hfetch. Qed.

End RunProperties.

(** C8 (amended). In the host proof lifecycle a witness-build or
    proof-generation failure for one update is fatal: for every update on
    which [generateProof] returns an error (for instance a signature that
    does not deserialize), [Relayer.Run] leaves its loop and returns that
    error, wrapped in "failed to generate proof".  Only a failed fetch is
    reported and retried, for the same period. *)
Theorem Run_generateProof_error_is_fatal
    (F : Fetcher) (B : Backend)
    (fuel : nat) (r : Relayer) (period : Z) (calls : nat) (w : World)
    (update : LightClientUpdate) (e : string) :
  ScUpdate calls period = Ok update ->
  generateProof r update = Err e ->
  Run_loop (S fuel) r period calls w = Returned ("failed to generate proof: " +:+ e)
  /\ (forall e', G2_SetBytes (SyncAggregate_SyncCommitteeSignature update) = Err e' ->
                 e = "failed to deserialize signature: " +:+ e')
  /\ (forall r0 calls0 e0, ScUpdate calls0 period = Err e0 ->
                           Run_loop (S fuel) r0 period calls0 w
                           = Run_loop fuel r0 period (S calls0) w).
Proof.
  intros Hfetch Hgen. split; [|split].
  - cbn [Run_loop]. now rewrite (Run_iteration_generateProof_error r period calls w update e).
  - intros e' Hsig. rewrite (generateProof_bad_signature r update e' Hsig) in Hgen.
    now injection Hgen.
  - intros r0 calls0 e0 Hfetch0. cbn [Run_loop].
    now rewrite (Run_iteration_fetch_error r0 period calls0 w e0).
Qed.

Lemma Run_generateProof_error_is_fatal_witness :
  @Run_loop sampleFetcher sampleBackend 1 freshRelayer 1105 2 emptyWorld
  = Returned "failed to generate proof: failed to deserialize signature: invalid encoding".
Proof.
  apply (Run_generateProof_error_is_fatal sampleFetcher sampleBackend
           0 freshRelayer 1105 2 emptyWorld malformedUpdate
           "failed to deserialize signature: invalid encoding").
  - reflexivity.
  - reflexivity.
Defined.

(** The claim as it stands: the relayer starts at period 1104, stores the
    committee, survives a failed fetch, then receives an update whose
    signature does not deserialize; [generateProof] fails on it and [Run]
    returns. *)
Lemma Run_returns_on_malformed_update :
  @generateProof sampleBackend freshRelayer malformedUpdate
  = Err "failed to deserialize signature: invalid encoding"
  /\ @Run sampleFetcher sampleBackend 2 freshRelayer emptyWorld
     = Returned "failed to generate proof: failed to deserialize signature: invalid encoding"
  /\ @Run sampleFetcher sampleBackend 100 freshRelayer emptyWorld
     = Returned "failed to generate proof: failed to deserialize signature: invalid encoding".
Proof.
  split; [reflexivity|]. split; reflexivity.
Qed.

(* ===================================================================== *)
(** ** Package [types]: aggregation on the host *)
(* ===================================================================== *)

Lemma skipn_nth_cons {A} (l : list A) (d : A) (i : nat) :
  (i < length l)%nat -> skipn i l = nth i l d :: skipn (S i) l.
Proof.
  revert i. induction l as [|x l IH]; intros i Hi; [simpl in Hi; lia|].
  destruct i as [|i]; [reflexivity|]. cbn [skipn nth]. apply IH. simpl in Hi. lia.
Qed.

Lemma selected_nil_l {A} (bits : list Z) : selected (@nil A) bits = [].
Proof. reflexivity. Qed.

(** The loop of [AggregatePublicKeys] from index [i], when every selected
    key deserializes. *)
Lemma AggregatePublicKeys_fold
    (SetBytes : list Z -> result bls12381.G1Affine)
    (pubkeys : list (list Z)) (keys : list bls12381.G1Affine) :
  length keys = length pubkeys ->
  forall (bits : list bool) (agg : bls12381.G1Affine) (count : Z) (i : nat),
    (forall j, (j < length bits)%nat -> (i + j < length pubkeys)%nat ->
       nth j bits false = true ->
       SetBytes (nth (i + j) pubkeys []) = Ok (nth (i + j) keys bls12381.infinity)) ->
    fold_left (AggregatePublicKeys_step SetBytes pubkeys) bits (Ok (agg, count, i))
    = Ok (fold_left bls12381.Add (selected (skipn i keys) (map Z.b2z bits)) agg,
          count + Z.of_nat (length (selected (skipn i keys) (map Z.b2z bits))),
          (i + length bits)%nat).
Proof.
  intros Hlen bits. induction bits as [|b bits IH]; intros agg count i Hparse.
  - cbn [fold_left map length]. destruct (skipn i keys); cbn [selected fold_left length];
      rewrite Z.add_0_r, Nat.add_0_r; reflexivity.
  - cbn [fold_left map length].
    assert (Hrest : forall j, (j < length bits)%nat -> (S i + j < length pubkeys)%nat ->
              nth j bits false = true ->
              SetBytes (nth (S i + j) pubkeys []) = Ok (nth (S i + j) keys bls12381.infinity)).
    { intros j Hj Hij Hb. replace (S i + j)%nat with (i + S j)%nat by lia.
      apply Hparse; [simpl; lia | lia | exact Hb]. }
    unfold AggregatePublicKeys_step at 2. cbn [mbind result_bind rbind].
    destruct (Nat.leb_spec (length pubkeys) i) as [Hge|Hlt].
    + (* past the end of [pubkeys]: the bit is skipped *)
      rewrite orb_true_r, IH by exact Hrest.
      rewrite !(skipn_all2 keys) by lia. cbn [selected fold_left length].
      f_equal. f_equal. lia.
    + rewrite orb_false_r. rewrite (skipn_nth_cons keys bls12381.infinity i) by lia.
      destruct b; cbn [negb Z.b2z selected Z.eqb Pos.eqb].
      * pose proof (Hparse 0%nat ltac:(simpl; lia) ltac:(lia) eq_refl) as H0.
        rewrite Nat.add_0_r in H0. rewrite H0. cbn [wrap mbind result_bind rbind].
        rewrite IH by exact Hrest. cbn [fold_left length]. f_equal. f_equal; [f_equal|]; lia.
      * rewrite IH by exact Hrest. f_equal. f_equal. lia.
Qed.

(** [AggregatePublicKeys] returns the sum of the selected keys and their
    number: when the keys selected by [bits] (among the first
    [len(pubkeys)]) deserialize and there is at least one of them, the
    result is their sum by the complete group law, from the point at
    infinity, in index order, together with their count.  Bits past the
    end of [pubkeys] are ignored. *)
Theorem AggregatePublicKeys_sum
    (SetBytes : list Z -> result bls12381.G1Affine)
    (pubkeys : list (list Z)) (keys : list bls12381.G1Affine) (bits : list bool) :
  length keys = length pubkeys ->
  (forall i, (i < length pubkeys)%nat -> nth i bits false = true ->
     SetBytes (nth i pubkeys []) = Ok (nth i keys bls12381.infinity)) ->
  selected keys (map Z.b2z bits) <> [] ->
  AggregatePublicKeys SetBytes pubkeys bits
  = Ok (g1_sum (selected keys (map Z.b2z bits)),
        Z.of_nat (length (selected keys (map Z.b2z bits)))).
Proof.
  intros Hlen Hparse Hne. unfold AggregatePublicKeys. cbv zeta.
  rewrite (AggregatePublicKeys_fold SetBytes pubkeys keys Hlen)
    by (intros j _ Hj Hb; apply Hparse; [exact Hj | exact Hb]).
  change (skipn 0 keys) with keys. cbn [mbind result_bind rbind].
  destruct (selected keys (map Z.b2z bits)) as [|k sel]; [contradiction|].
  cbn [length]. destruct (Z.eqb_spec (0 + Z.of_nat (S (length sel))) 0); [lia|].
  reflexivity.
Qed.

Lemma AggregatePublicKeys_sum_witness :
  AggregatePublicKeys (@G1_SetBytes sampleBackend)
                      (repeat (repeat 0 48) 3) [true; false; true; true]
  = Ok (g1_sum [bls12381.g1Gen; bls12381.g1Gen], 2).
Proof.
  apply (AggregatePublicKeys_sum (@G1_SetBytes sampleBackend)
           (repeat (repeat 0 48) 3) (repeat bls12381.g1Gen 3) [true; false; true; true]).
  - reflexivity.
  - intros i Hi _. cbn [repeat length] in Hi.
    destruct i as [|[|[|i]]]; [reflexivity | reflexivity | reflexivity | lia].
  - discriminate.
Defined.

(** Without a participant among the first [len(pubkeys)] bits,
    [AggregatePublicKeys] returns the error "no public keys to aggregate",
    whatever the keys are: none of them is deserialized. *)
Theorem AggregatePublicKeys_no_participant
    (SetBytes : list Z -> result bls12381.G1Affine)
    (pubkeys : list (list Z)) (bits : list bool) :
  (forall i, (i < length pubkeys)%nat -> nth i bits false = false) ->
  AggregatePublicKeys SetBytes pubkeys bits = Err "no public keys to aggregate".
Proof.
  intros Hnone. unfold AggregatePublicKeys. cbv zeta.
  rewrite (AggregatePublicKeys_fold SetBytes pubkeys
             (repeat bls12381.infinity (length pubkeys)) (repeat_length _ _)).
  2:{ intros j _ Hj Hb. change (0 + j)%nat with j in Hj.
      rewrite (Hnone j Hj) in Hb. discriminate. }
  change (skipn 0 ?l) with l. cbn [mbind result_bind rbind].
  assert (Hsel : forall (ks : list bls12381.G1Affine) (bs : list bool),
            (forall i, (i < length ks)%nat -> nth i bs false = false) ->
            selected ks (map Z.b2z bs) = []).
  { induction ks as [|k ks IH]; intros bs Hb; [reflexivity|].
    destruct bs as [|b bs]; [reflexivity|]. cbn [map selected].
    pose proof (Hb 0%nat ltac:(simpl; lia)) as H0. cbn [nth] in H0. subst b.
    cbn [Z.b2z Z.eqb]. apply IH. intros i Hi. apply (Hb (S i)). simpl. lia. }
  rewrite Hsel by (rewrite repeat_length; exact Hnone).
  reflexivity.
Qed.

Lemma AggregatePublicKeys_no_participant_witness :
  AggregatePublicKeys (@G1_SetBytes sampleBackend)
                      [repeat 0 48; [0x01]] [false; false; true]
  = Err "no public keys to aggregate".
Proof.
  apply (AggregatePublicKeys_no_participant (@G1_SetBytes sampleBackend)
           [repeat 0 48; [0x01]] [false; false; true]).
  intros i Hi. cbn [length] in Hi. destruct i as [|[|i]]; [reflexivity | reflexivity | lia].
Defined.

Lemma AggregatePublicKeys_step_Err SetBytes pubkeys (bits : list bool) e :
  fold_left (AggregatePublicKeys_step SetBytes pubkeys) bits (Err e) = Err e.
Proof. induction bits as [|b bits IH]; [reflexivity|]. cbn [fold_left]. exact IH. Qed.

(** [AggregatePublicKeys] stops at the first selected key that does not
    deserialize and returns the deserializer's error with the index of
    that key. *)
Theorem AggregatePublicKeys_bad_key
    (SetBytes : list Z -> result bls12381.G1Affine)
    (pubkeys : list (list Z)) (bits : list bool) (i : nat) (e : string) :
  (i < length pubkeys)%nat ->
  nth i bits false = true ->
  SetBytes (nth i pubkeys []) = Err e ->
  (forall j, (j < i)%nat -> nth j bits false = true ->
     exists P, SetBytes (nth j pubkeys []) = Ok P) ->
  AggregatePublicKeys SetBytes pubkeys bits
  = Err ("failed to deserialize pubkey " +:+ pretty i +:+ ": " +:+ e).
Proof.
  intros Hi Hbit Herr Hbefore. unfold AggregatePublicKeys. cbv zeta.
  assert (Hlen : (i < length bits)%nat).
  { destruct (Nat.lt_ge_cases i (length bits)) as [H|H]; [exact H|].
    rewrite nth_overflow in Hbit by exact H. discriminate. }
  rewrite <- (firstn_skipn i bits), fold_left_app.
  (* the keys before [i], as deserialized *)
  set (f := fun pk => match SetBytes pk with Ok P => P | Err _ => bls12381.infinity end).
  set (keys := map f pubkeys).
  assert (Hkeys : length keys = length pubkeys) by (unfold keys; apply length_map).
  rewrite (AggregatePublicKeys_fold SetBytes pubkeys keys Hkeys).
  2:{ intros j Hj Hjp Hb. change (0 + j)%nat with j in *.
      rewrite nth_firstn in Hb. destruct (Nat.ltb_spec j i) as [Hji|Hji]; [|discriminate].
      destruct (Hbefore j Hji Hb) as [P HP].
      unfold keys. rewrite (nth_indep _ bls12381.infinity (f [])) by (rewrite length_map; lia).
      rewrite map_nth. unfold f at 1. rewrite HP. reflexivity. }
  rewrite length_firstn, Nat.min_l by lia. change (0 + i)%nat with i.
  rewrite (skipn_nth_cons bits false i Hlen), Hbit. cbn [fold_left].
  unfold AggregatePublicKeys_step at 2. cbn [mbind result_bind rbind negb orb].
  destruct (Nat.leb_spec (length pubkeys) i) as [Hge|_]; [lia|].
  rewrite Herr. cbn [wrap mbind result_bind rbind].
  rewrite AggregatePublicKeys_step_Err. reflexivity.
Qed.

Lemma AggregatePublicKeys_bad_key_witness :
  AggregatePublicKeys (@G1_SetBytes sampleBackend)
                      [repeat 0 48; [0x01]; repeat 0 48] [true; true; true]
  = Err "failed to deserialize pubkey 1: short buffer".
Proof.
  apply (AggregatePublicKeys_bad_key (@G1_SetBytes sampleBackend)
           [repeat 0 48; [0x01]; repeat 0 48] [true; true; true] 1 "short buffer").
  - simpl. lia.
  - reflexivity.
  - reflexivity.
  - intros j Hj _. destruct j as [|j]; [|lia]. exists bls12381.g1Gen. reflexivity.
Defined.

(* ===================================================================== *)
(** ** Package [types]: the signing domain *)
(* ===================================================================== *)

Lemma skipn_repeat_sub {A} (x : A) (k n : nat) :
  skipn k (repeat x n) = repeat x (n - k).
Proof.
  revert n. induction k as [|k IH]; intros n; [now rewrite Nat.sub_0_r|].
  destruct n as [|n]; [reflexivity|]. cbn [repeat skipn Nat.sub]. apply IH.
Qed.

Lemma copy_at_0 (n : nat) (src : list Z) :
  (length src <= n)%nat ->
  copy_at (repeat 0 n) 0 src = src ++ repeat 0 (n - length src).
Proof.
  intros Hle. unfold copy_at. rewrite firstn_O. cbn [app Nat.add].
  rewrite repeat_length, Nat.sub_0_r, (firstn_all2 src) by lia.
  f_equal. apply skipn_repeat_sub.
Qed.

(** [ComputeDomain] accepts exactly a 4-byte domain type, a 4-byte fork
    version and a 32-byte genesis validators root; the domain it returns
    has 32 bytes: the domain type followed by the first 28 bytes of the
    hash-tree-root of the fork data, the root of the two leaves made of the
    fork version padded with zeros and of the genesis validators root. *)
Theorem ComputeDomain_fork_data_root (domainType forkVersion gvr : list Z) :
  ((exists domain, ComputeDomain domainType forkVersion gvr = Ok domain)
   <-> (length domainType = 4 /\ length forkVersion = 4 /\ length gvr = 32)%nat)
  /\ (forall domain, ComputeDomain domainType forkVersion gvr = Ok domain ->
        domain = domainType
                 ++ firstn 28 (merkle_root 1 [forkVersion ++ repeat 0 28; gvr])
        /\ length domain = 32%nat).
Proof.
  unfold ComputeDomain. cbv zeta.
  destruct (Nat.eqb_spec (length domainType) 4) as [Hd|Hd]; cbn [negb].
  2:{ split; [split; [intros [d Hd']; discriminate | intros (H1 & _); contradiction]
             | intros d Hd'; discriminate]. }
  destruct (Nat.eqb_spec (length forkVersion) 4) as [Hf|Hf]; cbn [negb].
  2:{ split; [split; [intros [d Hd']; discriminate | intros (_ & H1 & _); contradiction]
             | intros d Hd'; discriminate]. }
  destruct (Nat.eqb_spec (length gvr) 32) as [Hg|Hg]; cbn [negb].
  2:{ split; [split; [intros [d Hd']; discriminate | intros (_ & _ & H1); contradiction]
             | intros d Hd'; discriminate]. }
  assert (Hdomain :
    copy_at (copy_at (repeat 0 32) 0 (firstn 4 domainType)) 4
            (firstn 28 (sha256 (copy_at (repeat 0 32) 0 (firstn 4 forkVersion)
                                ++ firstn 32 gvr)))
    = domainType ++ firstn 28 (merkle_root 1 [forkVersion ++ repeat 0 28; gvr])).
  { rewrite !(firstn_all2 domainType), !(firstn_all2 forkVersion), (firstn_all2 gvr) by lia.
    rewrite !copy_at_0 by lia. rewrite Hd, Hf.
    change (32 - 4)%nat with 28%nat.
    cbn [merkle_root hash_layer layer_inputs map hd].
    set (root := sha256 _).
    assert (Hroot : length (firstn 28 root) = 28%nat).
    { rewrite length_firstn. unfold root. rewrite sha256_length. reflexivity. }
    unfold copy_at. rewrite firstn_app, Hd, Nat.sub_diag, firstn_all2 by lia.
    cbn [firstn]. rewrite app_nil_r, length_app, repeat_length, Hd.
    change (4 + 28 - 4)%nat with 28%nat.
    rewrite (firstn_all2 (firstn 28 root)) by lia.
    rewrite Hroot, skipn_all2 by (rewrite length_app, repeat_length; lia).
    rewrite app_nil_r. reflexivity. }
  split.
  - split; [intros _; auto | intros _; eexists; reflexivity].
  - intros d Hd'. rewrite Hdomain in Hd'.
    set (root := merkle_root 1 _) in *.
    assert (Heq : d = domainType ++ firstn 28 root) by congruence.
    split; [exact Heq|]. rewrite Heq, length_app, length_firstn, Hd.
    unfold root. cbn [merkle_root hash_layer layer_inputs map hd].
    rewrite sha256_length. reflexivity.
Qed.

(** The in-circuit signing root is the hash-tree-root of the signing data
    made of the block root and of the constant [DOMAIN], and [DOMAIN] is
    the domain [ComputeDomain] gives for the sync-committee domain type,
    the Fulu fork version 0x90000075 and the genesis validators root the
    constant is documented with. *)
Theorem computeSigningRoot_domain :
  ComputeDomain DOMAIN_SYNC_COMMITTEE fuluForkVersion genesisValidatorsRoot = Ok DOMAIN
  /\ forall blockRoot, computeSigningRoot blockRoot = merkle_root 1 [blockRoot; DOMAIN].
Proof.
  split; [vm_compute; reflexivity | intros blockRoot; reflexivity].
Qed.

(* ===================================================================== *)
(** ** Package [types]: hexadecimal byte strings *)
(* ===================================================================== *)

Lemma string_length_app (s t : string) :
  String.length (s +:+ t) = (String.length s + String.length t)%nat.
Proof.
  induction s as [|c s IH]; [reflexivity|].
  change (String c s +:+ t) with (String c (s +:+ t)). cbn [String.length]. now rewrite IH.
Qed.

Lemma string_get_app_end (s : string) (c : ascii) :
  String.get (String.length s) (s +:+ String c EmptyString) = Some c.
Proof.
  induction s as [|a s IH]; [reflexivity|].
  change (String a s +:+ String c EmptyString) with (String a (s +:+ String c EmptyString)).
  exact IH.
Qed.

Lemma string_substring_app (s t : string) :
  String.substring 0 (String.length s) (s +:+ t) = s.
Proof.
  induction s as [|a s IH]; [destruct t; reflexivity|].
  change (String a s +:+ t) with (String a (s +:+ t)).
  cbn [String.length String.substring]. now rewrite IH.
Qed.

Lemma HasPrefix_app (s t : string) : HasPrefix (s +:+ t) s = true.
Proof.
  unfold HasPrefix. induction s as [|a s IH]; [destruct t; reflexivity|].
  change (String a s +:+ t) with (String a (s +:+ t)). cbn [String.prefix].
  destruct (ascii_dec a a); [exact IH | contradiction].
Qed.

Lemma string_drop_app (s t : string) : string_drop (String.length s) (s +:+ t) = t.
Proof.
  induction s as [|a s IH]; [reflexivity|].
  change (String a s +:+ t) with (String a (s +:+ t)). exact IH.
Qed.

Lemma string_drop_0x (t : string) : string_drop 2 ("0x" +:+ t) = t.
Proof. exact (string_drop_app "0x" t). Qed.

Lemma TrimPrefix_app (s t : string) : TrimPrefix (s +:+ t) s = t.
Proof. unfold TrimPrefix. rewrite HasPrefix_app. apply string_drop_app. Qed.

(** [UnmarshalJSON] on a quoted string. *)
Lemma UnmarshalJSON_quoted (base64 : string -> result (list Z)) (val : string) :
  UnmarshalJSON base64 (String dquote (val +:+ String dquote EmptyString))
  = if isHex val then hex.DecodeString (TrimPrefix val "0x") else base64 val.
Proof.
  unfold UnmarshalJSON.
  set (data := String dquote (val +:+ String dquote EmptyString)).
  assert (Hlen : String.length data = S (S (String.length val))).
  { unfold data. cbn [String.length]. rewrite string_length_app. cbn. lia. }
  rewrite Hlen.
  replace (S (S (String.length val)) <? 2)%nat with false
    by (symmetry; apply Nat.ltb_ge; lia).
  replace (S (S (String.length val)) - 1)%nat with (S (String.length val)) by lia.
  replace (S (S (String.length val)) - 2)%nat with (String.length val) by lia.
  assert (H0 : String.get 0 data = Some dquote) by reflexivity.
  assert (H1 : String.get (S (String.length val)) data = Some dquote).
  { unfold data. cbn [String.get]. apply string_get_app_end. }
  rewrite H0, H1, !bool_decide_eq_true_2 by reflexivity. cbn [negb orb].
  assert (Hsub : String.substring 1 (String.length val) data = val).
  { unfold data. cbn [String.substring]. apply string_substring_app. }
  rewrite Hsub. reflexivity.
Qed.

Lemma nibble_cases (n : Z) (P : Z -> Prop) :
  0 <= n < 16 ->
  Forall P (map Z.of_nat (seq 0 16)) -> P n.
Proof.
  intros Hn HP. rewrite List.Forall_forall in HP. apply HP.
  apply in_map_iff. exists (Z.to_nat n). split; [lia|]. apply in_seq. lia.
Qed.

Lemma hextable_fromHexChar (n : Z) :
  0 <= n < 16 ->
  hex.fromHexChar (nth (Z.to_nat n) hex.hextable "0"%char) = Some n.
Proof.
  intros Hn.
  apply (nibble_cases n (fun n => hex.fromHexChar (nth (Z.to_nat n) hex.hextable "0"%char)
                                  = Some n) Hn).
  repeat constructor.
Qed.

Lemma hextable_digit (n : Z) :
  0 <= n < 16 ->
  let b := byte_of (nth (Z.to_nat n) hex.hextable "0"%char) in
  ((48 <=? b) && (b <=? 57) || (97 <=? b) && (b <=? 102) || (65 <=? b) && (b <=? 70)) = true
  /\ nth (Z.to_nat n) hex.hextable "0"%char <> "x"%char.
Proof.
  intros Hn.
  apply (nibble_cases n
           (fun n => let b := byte_of (nth (Z.to_nat n) hex.hextable "0"%char) in
                     ((48 <=? b) && (b <=? 57) || (97 <=? b) && (b <=? 102)
                      || (65 <=? b) && (b <=? 70)) = true
                     /\ nth (Z.to_nat n) hex.hextable "0"%char <> "x"%char) Hn).
  repeat constructor; discriminate.
Qed.

Lemma byte_cases (v : Z) (P : Z -> Prop) :
  is_byte v ->
  Forall P (map Z.of_nat (seq 0 256)) -> P v.
Proof.
  intros Hv HP. rewrite List.Forall_forall in HP. apply HP.
  apply in_map_iff. exists (Z.to_nat v). unfold is_byte in Hv.
  split; [lia|]. apply in_seq. lia.
Qed.

Lemma nibbles_of_byte (v : Z) :
  is_byte v ->
  0 <= Z.shiftr v 4 < 16 /\ 0 <= Z.land v 0x0f < 16
  /\ Z.lor (Z.shiftl (Z.shiftr v 4) 4) (Z.land v 0x0f) = v.
Proof.
  intros Hv.
  apply (byte_cases v (fun v => 0 <= Z.shiftr v 4 < 16 /\ 0 <= Z.land v 0x0f < 16
                                /\ Z.lor (Z.shiftl (Z.shiftr v 4) 4) (Z.land v 0x0f) = v) Hv).
  apply List.Forall_forall. intros x Hx. apply in_map_iff in Hx as (k & <- & Hk).
  apply in_seq in Hk.
  assert (Hb : forallb (fun k => let v := Z.of_nat k in
                         (0 <=? Z.shiftr v 4) && (Z.shiftr v 4 <? 16)
                         && (0 <=? Z.land v 0x0f) && (Z.land v 0x0f <? 16)
                         && (Z.lor (Z.shiftl (Z.shiftr v 4) 4) (Z.land v 0x0f) =? v))
                       (seq 0 256) = true) by (vm_compute; reflexivity).
  rewrite forallb_forall in Hb. specialize (Hb k ltac:(apply in_seq; lia)).
  cbv zeta in Hb. rewrite !andb_true_iff in Hb. lia.
Qed.

Lemma hex_round_trip (b : list Z) :
  Forall is_byte b -> hex.DecodeString (hex.EncodeToString b) = Ok b.
Proof.
  induction 1 as [|v b Hv Hb IH]; [reflexivity|].
  destruct (nibbles_of_byte v Hv) as (Hhi & Hlo & Hv').
  cbn [hex.EncodeToString hex.DecodeString].
  rewrite (hextable_fromHexChar _ Hhi), (hextable_fromHexChar _ Hlo), IH.
  cbn [mbind result_bind rbind]. rewrite Hv'. reflexivity.
Qed.

Lemma EncodeToString_length (b : list Z) :
  String.length (hex.EncodeToString b) = (2 * length b)%nat.
Proof. induction b as [|v b IH]; [reflexivity|]. cbn [hex.EncodeToString String.length length]. lia. Qed.

Lemma EncodeToString_digits (b : list Z) :
  Forall is_byte b ->
  forallb (fun c => let b := byte_of c in
                    (48 <=? b) && (b <=? 57) || (97 <=? b) && (b <=? 102)
                    || (65 <=? b) && (b <=? 70))
          (list_ascii_of_string (hex.EncodeToString b)) = true.
Proof.
  induction 1 as [|v b Hv Hb IH]; [reflexivity|].
  destruct (nibbles_of_byte v Hv) as (Hhi & Hlo & _).
  cbn [hex.EncodeToString list_ascii_of_string forallb].
  destruct (hextable_digit _ Hhi) as [-> _]. destruct (hextable_digit _ Hlo) as [-> _].
  exact IH.
Qed.

Lemma EncodeToString_no_prefix (b : list Z) :
  Forall is_byte b -> HasPrefix (hex.EncodeToString b) "0x" = false.
Proof.
  intros Hb. destruct Hb as [|v b Hv Hb]; [reflexivity|].
  destruct (nibbles_of_byte v Hv) as (_ & Hlo & _).
  destruct (hextable_digit _ Hlo) as [_ Hx].
  unfold HasPrefix. cbn [hex.EncodeToString String.prefix].
  destruct (ascii_dec _ _); [|reflexivity].
  destruct (ascii_dec _ _) as [Heq|]; [|reflexivity].
  exfalso. apply Hx. symmetry. exact Heq.
Qed.

Lemma isHex_prefixed (b : list Z) :
  Forall is_byte b -> isHex ("0x" +:+ hex.EncodeToString b) = true.
Proof.
  intros Hb. unfold isHex. cbv zeta.
  rewrite string_length_app, EncodeToString_length.
  replace ((String.length "0x" + 2 * length b) mod 2 =? 0)%nat with true.
  2:{ symmetry. apply Nat.eqb_eq. change (String.length "0x") with (2 * 1)%nat.
      rewrite <- Nat.mul_add_distr_l, Nat.mul_comm. apply Nat.Div0.mod_mul. }
  cbn [negb]. rewrite HasPrefix_app.
  rewrite string_drop_0x.
  apply EncodeToString_digits. exact Hb.
Qed.

(** Marshalling bytes to JSON and unmarshalling the result gives the bytes
    back: [MarshalJSON] writes the quoted [0x]-prefixed lower-case digits,
    which [UnmarshalJSON] recognises as hexadecimal (never as base64) and
    decodes. *)
Theorem HexBytes_json_round_trip
    (base64 : string -> result (list Z)) (hb : list Z) :
  Forall is_byte hb ->
  UnmarshalJSON base64 (MarshalJSON hb) = Ok hb.
Proof.
  intros Hb. unfold MarshalJSON. cbv zeta.
  rewrite UnmarshalJSON_quoted, (isHex_prefixed hb Hb).
  rewrite TrimPrefix_app. apply hex_round_trip. exact Hb.
Qed.

Lemma HexBytes_json_round_trip_witness :
  UnmarshalJSON (fun _ => Err "illegal base64 data") (MarshalJSON [0xde; 0xad; 0x00]) = Ok [0xde; 0xad; 0x00].
Proof.
  apply (HexBytes_json_round_trip (fun _ => Err "illegal base64 data") [0xde; 0xad; 0x00]).
  repeat constructor; unfold is_byte; lia.
Defined.

(** [HexToBytes] inverts [HexBytes.String], with or without the [0x]
    prefix. *)
Theorem HexToBytes_String (b : list Z) :
  Forall is_byte b ->
  HexToBytes (HexBytes_String b) = Ok b
  /\ HexToBytes ("0x" +:+ HexBytes_String b) = Ok b.
Proof.
  intros Hb. unfold HexToBytes, HexBytes_String. split.
  - rewrite (EncodeToString_no_prefix b Hb). apply hex_round_trip. exact Hb.
  - rewrite HasPrefix_app, string_drop_0x.
    apply hex_round_trip. exact Hb.
Qed.

Lemma HexToBytes_String_witness :
  HexToBytes (HexBytes_String [0x0a; 0xff]) = Ok [0x0a; 0xff]
  /\ HexToBytes ("0x" +:+ HexBytes_String [0x0a; 0xff]) = Ok [0x0a; 0xff].
Proof.
  apply (HexToBytes_String [0x0a; 0xff]). repeat constructor; unfold is_byte; lia.
Defined.

Lemma fromHexChar_digit (c : ascii) :
  (let b := byte_of c in
   (48 <=? b) && (b <=? 57) || (97 <=? b) && (b <=? 102) || (65 <=? b) && (b <=? 70)) = true ->
  exists d, hex.fromHexChar c = Some d.
Proof.
  cbv zeta. unfold hex.fromHexChar. intros H.
  destruct ((48 <=? byte_of c) && (byte_of c <=? 57)); [eauto|].
  destruct ((97 <=? byte_of c) && (byte_of c <=? 102)); [eauto|].
  destruct ((65 <=? byte_of c) && (byte_of c <=? 70)); [eauto|discriminate].
Qed.

(** An even number of hexadecimal digits always decodes. *)
Lemma DecodeString_digits (n : nat) (s : string) :
  (String.length s <= n)%nat ->
  (String.length s mod 2 = 0)%nat ->
  forallb (fun c => let b := byte_of c in
                    (48 <=? b) && (b <=? 57) || (97 <=? b) && (b <=? 102)
                    || (65 <=? b) && (b <=? 70))
          (list_ascii_of_string s) = true ->
  exists bz, hex.DecodeString s = Ok bz /\ (2 * length bz = String.length s)%nat.
Proof.
  revert s. induction n as [|n IH]; intros s Hn Heven Hdigits.
  - destruct s; [exists []; split; reflexivity | simpl in Hn; lia].
  - destruct s as [|p [|q rest]].
    + exists []. split; reflexivity.
    + discriminate Heven.
    + cbn [list_ascii_of_string forallb] in Hdigits.
      apply andb_true_iff in Hdigits as [Hp Hdigits].
      apply andb_true_iff in Hdigits as [Hq Hdigits].
      destruct (fromHexChar_digit p Hp) as [a Ha].
      destruct (fromHexChar_digit q Hq) as [b Hb].
      cbn [String.length] in Hn, Heven.
      destruct (IH rest) as (bz & Hbz & Hlen); [lia | | exact Hdigits |].
      { change (S (S (String.length rest))) with (2 + String.length rest)%nat in Heven.
        rewrite <- Nat.Div0.add_mod_idemp_l in Heven. exact Heven. }
      exists (Z.lor (Z.shiftl a 4) b :: bz).
      cbn [hex.DecodeString]. rewrite Ha, Hb, Hbz. cbn [mbind result_bind rbind length String.length].
      split; [reflexivity | lia].
Qed.

Lemma string_drop_length (n : nat) (s : string) :
  String.length (string_drop n s) = (String.length s - n)%nat.
Proof.
  revert s. induction n as [|n IH]; intros s; [cbn; lia|].
  destruct s as [|c s]; [reflexivity|]. cbn [string_drop String.length]. rewrite IH. lia.
Qed.

(** Whatever [isHex] accepts, [UnmarshalJSON] decodes as hexadecimal and
    without error: for a quoted string of an even number of characters
    that, after an optional [0x], are all hexadecimal digits, the result
    has one byte per pair of digits, and the base64 decoder is not
    consulted. *)
Theorem UnmarshalJSON_hex_always_decodes
    (base64 : string -> result (list Z)) (val : string) :
  isHex val = true ->
  exists bz,
    UnmarshalJSON base64 (String dquote (val +:+ String dquote EmptyString)) = Ok bz
    /\ hex.DecodeString (TrimPrefix val "0x") = Ok bz
    /\ (2 * length bz = String.length (TrimPrefix val "0x"))%nat.
Proof.
  intros Hhex. rewrite UnmarshalJSON_quoted, Hhex.
  unfold isHex in Hhex. cbv zeta in Hhex.
  destruct (Nat.eqb_spec (String.length val mod 2) 0) as [Heven|]; [|discriminate].
  cbn [negb] in Hhex. unfold TrimPrefix. change (String.length "0x") with 2%nat.
  set (v := if HasPrefix val "0x" then string_drop 2 val else val) in *.
  destruct (DecodeString_digits (String.length v) v) as (bz & Hbz & Hlen);
    [lia | | exact Hhex | exists bz; auto].
  unfold v. destruct (HasPrefix val "0x") eqn:Hp; [|exact Heven].
  rewrite string_drop_length.
  destruct val as [|c1 [|c2 val']]; [reflexivity | |].
  { unfold HasPrefix in Hp. cbn [String.prefix] in Hp.
    destruct (ascii_dec _ _); discriminate Hp. }
  cbn [String.length] in *. replace (S (S (String.length val')) - 2)%nat
    with (String.length val') by lia.
  change (S (S (String.length val'))) with (2 + String.length val')%nat in Heven.
  rewrite <- Nat.Div0.add_mod_idemp_l in Heven. exact Heven.
Qed.

Lemma UnmarshalJSON_hex_always_decodes_witness :
  exists bz,
    UnmarshalJSON (fun _ => Err "illegal base64 data")
                  (String dquote ("BEEF" +:+ String dquote EmptyString)) = Ok bz
    /\ hex.DecodeString (TrimPrefix "BEEF" "0x") = Ok bz
    /\ (2 * length bz = String.length (TrimPrefix "BEEF" "0x"))%nat.
Proof.
  apply (UnmarshalJSON_hex_always_decodes (fun _ => Err "illegal base64 data") "BEEF").
  reflexivity.
Defined.

(* ===================================================================== *)
(** ** Package [types]: the proof as the contract takes it *)
(* ===================================================================== *)

Lemma slice_Some (s : list Z) (lo hi : nat) :
  (lo <= hi)%nat -> (hi <= length s)%nat ->
  slice s lo hi = Some (firstn (hi - lo) (skipn lo s)).
Proof.
  intros H1 H2. unfold slice.
  destruct (Nat.leb_spec lo hi); [|lia]. destruct (Nat.leb_spec hi (length s)); [|lia].
  reflexivity.
Qed.

Lemma firstn_plus {A} (l : list A) (n m : nat) :
  firstn (n + m) l = firstn n l ++ firstn m (skipn n l).
Proof.
  revert l. induction n as [|n IH]; intros l; [reflexivity|].
  destruct l as [|x l]; [cbn [Nat.add firstn skipn app]; now rewrite firstn_nil|].
  cbn [Nat.add firstn skipn app]. now rewrite IH.
Qed.

Lemma firstn_skipn_join {A} (l : list A) (a n m : nat) :
  firstn n (skipn a l) ++ firstn m (skipn (a + n) l) = firstn (n + m) (skipn a l).
Proof. rewrite firstn_plus, skipn_skipn, (Nat.add_comm n a). reflexivity. Qed.

(** [CreateProofData] cuts a serialized proof of at least 388 bytes into
    the words the verifier contract takes: the eight 32-byte words of the
    proof are bytes [0, 256), the two words of the commitments are bytes
    [260, 324) and the two words of the proof of knowledge are bytes
    [324, 388); the four bytes [256, 260) and everything from byte 388 on
    are dropped. *)
Theorem CreateProofData_layout (proofSolidity : list Z) :
  (388 <= length proofSolidity)%nat ->
  exists d,
    CreateProofData proofSolidity = Some d
    /\ length (Proof_ d) = 8%nat /\ Forall (fun w => length w = 32%nat) (Proof_ d)
    /\ length (Commitments d) = 2%nat /\ Forall (fun w => length w = 32%nat) (Commitments d)
    /\ length (CommitmentPok d) = 2%nat
    /\ Forall (fun w => length w = 32%nat) (CommitmentPok d)
    /\ concat (Proof_ d) = firstn 256 proofSolidity
    /\ concat (Commitments d) = firstn 64 (skipn 260 proofSolidity)
    /\ concat (CommitmentPok d) = firstn 64 (skipn 324 proofSolidity).
Proof.
  intros Hlen. unfold CreateProofData. cbv zeta.
  cbn [seq mapM mbind option_bind Nat.mul Nat.add].
  rewrite !slice_Some by lia. cbn [fmap option_fmap option_map mbind option_bind Nat.sub].
  eexists. split; [reflexivity|].
  cbn [Proof_ Commitments CommitmentPok firstn skipn length concat].
  assert (Hw : forall a, (a + 32 <= length proofSolidity)%nat ->
                         length (firstn 32 (skipn a proofSolidity)) = 32%nat).
  { intros a Ha. rewrite length_firstn, length_skipn. lia. }
  repeat split; try (repeat constructor; apply Hw; lia).
  - rewrite app_nil_r.
    replace 256%nat with (32 + (32 + (32 + (32 + (32 + (32 + (32 + 32)))))))%nat
      by reflexivity.
    rewrite !firstn_plus, !skipn_skipn. reflexivity.
  - rewrite app_nil_r. replace 64%nat with (32 + 32)%nat by reflexivity.
    rewrite firstn_plus, skipn_skipn. reflexivity.
  - rewrite app_nil_r. replace 64%nat with (32 + 32)%nat by reflexivity.
    rewrite firstn_plus, skipn_skipn. reflexivity.
Qed.

Lemma CreateProofData_layout_witness :
  exists d,
    CreateProofData (map Z.of_nat (seq 0 400)) = Some d
    /\ length (Proof_ d) = 8%nat /\ Forall (fun w => length w = 32%nat) (Proof_ d)
    /\ length (Commitments d) = 2%nat /\ Forall (fun w => length w = 32%nat) (Commitments d)
    /\ length (CommitmentPok d) = 2%nat
    /\ Forall (fun w => length w = 32%nat) (CommitmentPok d)
    /\ concat (Proof_ d) = firstn 256 (map Z.of_nat (seq 0 400))
    /\ concat (Commitments d) = firstn 64 (skipn 260 (map Z.of_nat (seq 0 400)))
    /\ concat (CommitmentPok d) = firstn 64 (skipn 324 (map Z.of_nat (seq 0 400))).
Proof.
  apply (CreateProofData_layout (map Z.of_nat (seq 0 400))).
  rewrite length_map, length_seq. lia.
Defined.

(* ===================================================================== *)
(** ** Package [provers/types]: the command line *)
(* ===================================================================== *)

Lemma ParseUint_loop_value_le (cs : list ascii) (n : Z) :
  0 <= n -> forallb is_digit cs = true ->
  n <= fold_left (fun acc c => acc * 10 + (byte_of c - 48)) cs n.
Proof.
  revert n. induction cs as [|c cs IH]; intros n Hn Hd; [cbn; lia|].
  cbn [forallb] in Hd. apply andb_true_iff in Hd as [Hc Hd].
  unfold is_digit in Hc. apply andb_true_iff in Hc as [Hc1 Hc2]. apply Z.leb_le in Hc1, Hc2.
  cbn [fold_left].
  etransitivity; [|apply IH; [lia | exact Hd]]. lia.
Qed.

(** The loop of [ParseUint] on digits: the value, clamped to 64 bits. *)
Lemma ParseUint_loop_digits (cs : list ascii) (n : Z) :
  0 <= n <= strconv.maxUint64 -> forallb is_digit cs = true ->
  let v := fold_left (fun acc c => acc * 10 + (byte_of c - 48)) cs n in
  strconv.ParseUint_loop cs n
  = (Z.min v strconv.maxUint64,
     if v <=? strconv.maxUint64 then None else Some strconv.ErrRange).
Proof.
  cbv zeta. revert n. induction cs as [|c cs IH]; intros n Hn Hd.
  - cbn [fold_left strconv.ParseUint_loop].
    destruct (Z.leb_spec n strconv.maxUint64); [|lia]. rewrite Z.min_l by lia. reflexivity.
  - cbn [forallb] in Hd. apply andb_true_iff in Hd as [Hc Hd].
    pose proof Hc as Hc'. unfold is_digit in Hc'.
    apply andb_true_iff in Hc' as [Hc1 Hc2]. apply Z.leb_le in Hc1, Hc2.
    cbn [fold_left strconv.ParseUint_loop]. cbv zeta. unfold is_digit in Hc. rewrite Hc.
    pose proof (ParseUint_loop_value_le cs (n * 10 + (byte_of c - 48)) ltac:(lia) Hd) as Hmono.
    set (v := fold_left _ cs _) in *.
    change (strconv.maxUint64 / 10 + 1) with 1844674407370955162.
    unfold strconv.maxUint64 in *. change (2 ^ 64 - 1) with 18446744073709551615 in *.
    change (2 ^ 64) with 18446744073709551616.
    destruct (Z.leb_spec 10 (byte_of c - 48)); [lia|].
    destruct (Z.leb_spec 1844674407370955162 n).
    { rewrite Z.min_r by lia. destruct (Z.leb_spec v 18446744073709551615); [lia|reflexivity]. }
    rewrite (Z.mod_small (n * 10)) by lia.
    destruct (Z.lt_ge_cases (n * 10 + (byte_of c - 48)) 18446744073709551616) as [Hfit|Hover].
    + rewrite (Z.mod_small (n * 10 + (byte_of c - 48))) by lia.
      destruct (Z.ltb_spec (n * 10 + (byte_of c - 48)) (n * 10)); [lia|].
      destruct (Z.ltb_spec 18446744073709551615 (n * 10 + (byte_of c - 48))); [lia|].
      cbn [orb]. apply IH; [lia | exact Hd].
    + replace ((n * 10 + (byte_of c - 48)) mod 18446744073709551616)
        with (n * 10 + (byte_of c - 48) - 18446744073709551616).
      2:{ apply Z.mod_unique with (q := 1); lia. }
      destruct (Z.ltb_spec (n * 10 + (byte_of c - 48) - 18446744073709551616) (n * 10)); [|lia].
      cbn [orb]. rewrite Z.min_r by lia.
      destruct (Z.leb_spec v 18446744073709551615); [lia|reflexivity].
Qed.

Lemma ParseUint_decimal (s : string) :
  is_decimal s = true ->
  strconv.ParseUint s
  = (Z.min (decimal_value s) strconv.maxUint64,
     if decimal_value s <=? strconv.maxUint64 then None else Some strconv.ErrRange).
Proof.
  unfold is_decimal. intros H. apply andb_true_iff in H as [Hne Hd].
  destruct s as [|c s]; [discriminate|].
  unfold strconv.ParseUint, decimal_value.
  apply (ParseUint_loop_digits _ 0); [unfold strconv.maxUint64; lia | exact Hd].
Qed.

Lemma ParseUint_not_a_number (s : string) :
  match s with EmptyString => True | String c _ => is_digit c = false end ->
  strconv.ParseUint s = (0, Some strconv.ErrSyntax).
Proof.
  destruct s as [|c s]; [reflexivity|]. intros Hc.
  unfold strconv.ParseUint. cbn [list_ascii_of_string strconv.ParseUint_loop]. cbv zeta.
  unfold is_digit in Hc. rewrite Hc.
  destruct ((97 <=? strconv.lower (byte_of c)) && (strconv.lower (byte_of c) <=? 122)) eqn:Hl;
    [|reflexivity].
  apply andb_true_iff in Hl as [Hl _]. apply Z.leb_le in Hl.
  destruct (Z.leb_spec 10 (strconv.lower (byte_of c) - 97 + 10)); [reflexivity | lia].
Qed.

(** The loop of [NewConfig] past the last argument. *)
Lemma NewConfig_loop_end (fuel : nat) (args : list string) (i : nat) (config : Config) :
  (length args <= i)%nat -> NewConfig_loop fuel args i config = Done config.
Proof.
  intros Hi. destruct fuel as [|fuel]; [reflexivity|]. cbn [NewConfig_loop].
  destruct (Nat.ltb_spec i (length args)); [lia | reflexivity].
Qed.

Lemma option_args_length (opts : list (string * string)) :
  length (option_args opts) = (2 * length opts)%nat.
Proof.
  unfold option_args. induction opts as [|o opts IH]; [reflexivity|].
  cbn [map concat length app]. rewrite IH. lia.
Qed.

(** One iteration on an option and its value. *)
Lemma NewConfig_loop_option (fuel : nat) (pre rest : list string) (o : string * string)
    (config : Config) :
  is_option (fst o) = true ->
  NewConfig_loop (S fuel) (pre ++ fst o :: snd o :: rest) (length pre) config
  = NewConfig_loop fuel (pre ++ fst o :: snd o :: rest) (length pre + 2)
                   (set_option config o).
Proof.
  intros Ho. cbn [NewConfig_loop].
  rewrite length_app. cbn [length].
  destruct (Nat.ltb_spec (length pre) (length pre + S (S (length rest)))); [|lia].
  cbn [negb].
  destruct (Nat.leb_spec (length pre + S (S (length rest))) (length pre + 1)); [lia|].
  cbv zeta.
  rewrite (app_nth2 pre _ EmptyString (n := length pre)) by lia.
  rewrite (app_nth2 pre _ EmptyString (n := length pre + 1)) by lia.
  replace (length pre - length pre)%nat with 0%nat by lia.
  replace (length pre + 1 - length pre)%nat with 1%nat by lia.
  cbn [nth]. destruct o as [opt value]. cbn [fst snd] in *. unfold set_option.
  unfold is_option in Ho.
  destruct (String.eqb opt "--slot"); [reflexivity|].
  destruct (String.eqb opt "--root"); [reflexivity|].
  destruct (String.eqb opt "--init-period"); [reflexivity|].
  destruct (String.eqb opt "--rpc"); [reflexivity|discriminate].
Qed.

Lemma NewConfig_loop_options (opts : list (string * string)) :
  Forall (fun ov => is_option (fst ov) = true) opts ->
  forall (fuel : nat) (pre : list string) (config : Config),
    (length opts <= fuel)%nat ->
    NewConfig_loop fuel (pre ++ option_args opts) (length pre) config
    = Done (fold_left set_option opts config).
Proof.
  induction 1 as [|o opts Ho Hopts IH]; intros fuel pre config Hfuel.
  - cbn [option_args map concat fold_left]. rewrite app_nil_r.
    apply NewConfig_loop_end. lia.
  - destruct fuel as [|fuel]; [simpl in Hfuel; lia|].
    change (option_args (o :: opts)) with (fst o :: snd o :: option_args opts).
    rewrite NewConfig_loop_option by exact Ho.
    change (pre ++ fst o :: snd o :: option_args opts)
      with (pre ++ [fst o; snd o] ++ option_args opts).
    rewrite app_assoc.
    replace (length pre + 2)%nat with (length (pre ++ [fst o; snd o]))
      by (rewrite length_app; reflexivity).
    cbn [fold_left]. apply IH. simpl in Hfuel. lia.
Qed.

(** Run with the program name alone, as [main] calls it with [os.Args],
    [NewConfig] panics: the check for a missing value fires at index 0 and
    its message reads [args[-1]]. *)
Theorem NewConfig_program_name_only (env : gmap string string) (prog : string) :
  NewConfig env [prog] = Panicked "runtime error: index out of range [-1]".
Proof. reflexivity. Qed.

(** After the program name, a command line made of options, each followed
    by its value, gives the configuration in which every option has the
    value of its last occurrence and the others keep their defaults from
    the environment. *)
Theorem NewConfig_options
    (env : gmap string string) (prog : string) (opts : list (string * string)) :
  is_option prog = false ->
  opts <> [] ->
  Forall (fun ov => is_option (fst ov) = true) opts ->
  NewConfig env (prog :: option_args opts)
  = Done (fold_left set_option opts (defaultConfig env)).
Proof.
  intros Hprog Hne Hopts. unfold NewConfig. cbv zeta. fold (defaultConfig env).
  cbn [length NewConfig_loop].
  destruct opts as [|o opts]; [contradiction|].
  rewrite option_args_length. cbn [length].
  destruct (Nat.ltb_spec 0 (S (2 * S (length opts)))); [|lia]. cbn [negb].
  destruct (Nat.leb_spec (S (2 * S (length opts))) (0 + 1)); [lia|].
  cbn [nth Nat.add]. unfold is_option in Hprog.
  destruct (String.eqb prog "--slot"); [discriminate|].
  destruct (String.eqb prog "--root"); [discriminate|].
  destruct (String.eqb prog "--init-period"); [discriminate|].
  destruct (String.eqb prog "--rpc"); [discriminate|].
  apply (NewConfig_loop_options (o :: opts) Hopts _ [prog]). cbn [length]. lia.
Qed.

Lemma NewConfig_options_witness :
  NewConfig ∅ ("relayer" :: option_args [("--root", "a"); ("--slot", "7"); ("--root", "b")])
  = Done (fold_left set_option [("--root", "a"); ("--slot", "7"); ("--root", "b")]
                    (defaultConfig ∅)).
Proof.
  apply (NewConfig_options ∅ "relayer" [("--root", "a"); ("--slot", "7"); ("--root", "b")]).
  - reflexivity.
  - discriminate.
  - repeat constructor.
Defined.

Lemma nth_pred_last {A} (l : list A) (d : A) (j : nat) :
  length l = S j -> nth j l d = List.last l d.
Proof.
  revert j. induction l as [|x l IH]; intros j Hj; [discriminate|].
  destruct l as [|y l].
  - injection Hj as <-. reflexivity.
  - destruct j as [|j]; [discriminate|].
    change (nth (S j) (x :: y :: l) d) with (nth j (y :: l) d).
    change (List.last (x :: y :: l) d) with (List.last (y :: l) d).
    apply IH. simpl in *. lia.
Qed.

Lemma NewConfig_loop_trailing (opts : list (string * string)) :
  Forall (fun ov => is_option (fst ov) = true) opts ->
  forall (fuel : nat) (pre : list string) (x : string) (config : Config),
    (length opts < fuel)%nat -> pre <> [] ->
    NewConfig_loop fuel (pre ++ option_args opts ++ [x]) (length pre) config
    = Panicked ("missing argument for "
                +:+ List.last (pre ++ option_args opts) EmptyString).
Proof.
  induction 1 as [|o opts Ho Hopts IH]; intros fuel pre x config Hfuel Hpre.
  - destruct fuel as [|fuel]; [lia|].
    cbn [option_args map concat app NewConfig_loop]. rewrite app_nil_r, length_app.
    cbn [length].
    destruct (Nat.ltb_spec (length pre) (length pre + 1)); [|lia]. cbn [negb].
    destruct (Nat.leb_spec (length pre + 1) (length pre + 1)); [|lia].
    destruct (length pre) as [|j] eqn:Hj.
    + destruct pre; [contradiction | discriminate].
    + rewrite app_nth1 by lia. rewrite (nth_pred_last pre EmptyString j Hj). reflexivity.
  - destruct fuel as [|fuel]; [simpl in Hfuel; lia|].
    change (option_args (o :: opts) ++ [x])
      with (fst o :: snd o :: (option_args opts ++ [x])).
    rewrite NewConfig_loop_option by exact Ho.
    change (pre ++ fst o :: snd o :: option_args opts ++ [x])
      with (pre ++ [fst o; snd o] ++ option_args opts ++ [x]).
    rewrite app_assoc.
    replace (length pre + 2)%nat with (length (pre ++ [fst o; snd o]))
      by (rewrite length_app; reflexivity).
    rewrite IH; [| simpl in Hfuel; lia | destruct pre; discriminate].
    change (option_args (o :: opts)) with ([fst o; snd o] ++ option_args opts).
    rewrite !app_assoc. reflexivity.
Qed.

(** A last argument that no option consumes makes [NewConfig] panic, and
    the message names the argument before it, not the dangling one. *)
Theorem NewConfig_trailing_argument
    (env : gmap string string) (prog x : string) (opts : list (string * string)) :
  is_option prog = false ->
  Forall (fun ov => is_option (fst ov) = true) opts ->
  NewConfig env (prog :: option_args opts ++ [x])
  = Panicked ("missing argument for "
              +:+ List.last (prog :: option_args opts) EmptyString).
Proof.
  intros Hprog Hopts. unfold NewConfig. cbv zeta.
  set (config := mkConfig _ _ 0 0).
  cbn [length NewConfig_loop]. rewrite length_app, option_args_length. cbn [length].
  destruct (Nat.ltb_spec 0 (S (2 * length opts + 1))); [|lia]. cbn [negb].
  destruct (Nat.leb_spec (S (2 * length opts + 1)) (0 + 1)) as [Hle|Hgt]; [lia|].
  cbn [nth Nat.add]. unfold is_option in Hprog.
  destruct (String.eqb prog "--slot"); [discriminate|].
  destruct (String.eqb prog "--root"); [discriminate|].
  destruct (String.eqb prog "--init-period"); [discriminate|].
  destruct (String.eqb prog "--rpc"); [discriminate|].
  apply (NewConfig_loop_trailing opts Hopts _ [prog] x config); [lia | discriminate].
Qed.

Lemma NewConfig_trailing_argument_witness :
  NewConfig ∅ ("relayer" :: option_args [("--root", "dir")] ++ ["--slot"])
  = Panicked "missing argument for dir".
Proof.
  apply (NewConfig_trailing_argument ∅ "relayer" "--slot" [("--root", "dir")]).
  - reflexivity.
  - repeat constructor.
Defined.

(** The numeric options drop the error of [strconv.ParseUint]: a decimal
    value of [--slot] or [--init-period] that does not fit 64 bits is
    clamped to [2^64 - 1], and a value that does not start with a digit
    (the empty string included) gives 0; in both cases [NewConfig] returns
    normally. *)
Theorem NewConfig_number_errors_dropped
    (env : gmap string string) (prog value : string) :
  is_option prog = false ->
  (is_decimal value = true ->
     NewConfig env [prog; "--slot"; value]
     = Done (mkConfig (RootDir (defaultConfig env)) (RPCEndpoint (defaultConfig env)) 0
                      (Z.min (decimal_value value) (2 ^ 64 - 1)))
     /\ NewConfig env [prog; "--init-period"; value]
        = Done (mkConfig (RootDir (defaultConfig env)) (RPCEndpoint (defaultConfig env))
                         (Z.min (decimal_value value) (2 ^ 64 - 1)) 0))
  /\ (match value with EmptyString => True | String c _ => is_digit c = false end ->
      NewConfig env [prog; "--slot"; value] = Done (defaultConfig env)
      /\ NewConfig env [prog; "--init-period"; value] = Done (defaultConfig env)).
Proof.
  intros Hprog.
  assert (Hslot : NewConfig env [prog; "--slot"; value]
                  = Done (set_option (defaultConfig env) ("--slot", value))).
  { apply (NewConfig_options env prog [("--slot", value)] Hprog); [discriminate|].
    repeat constructor. }
  assert (Hinit : NewConfig env [prog; "--init-period"; value]
                  = Done (set_option (defaultConfig env) ("--init-period", value))).
  { apply (NewConfig_options env prog [("--init-period", value)] Hprog); [discriminate|].
    repeat constructor. }
  rewrite Hslot, Hinit. unfold set_option.
  change (String.eqb "--slot" "--slot") with true.
  change (String.eqb "--init-period" "--slot") with false.
  change (String.eqb "--init-period" "--root") with false.
  change (String.eqb "--init-period" "--init-period") with true.
  cbv iota. split.
  - intros Hdec. rewrite (ParseUint_decimal value Hdec). split; reflexivity.
  - intros Hnan. rewrite (ParseUint_not_a_number value Hnan). split; reflexivity.
Qed.

Lemma NewConfig_number_errors_dropped_witness :
  NewConfig ∅ ["relayer"; "--slot"; "18446744073709551616"]
  = Done (mkConfig (RootDir (defaultConfig ∅)) (RPCEndpoint (defaultConfig ∅)) 0
                   (Z.min (decimal_value "18446744073709551616") (2 ^ 64 - 1)))
  /\ NewConfig ∅ ["relayer"; "--init-period"; "-1"] = Done (defaultConfig ∅).
Proof.
  split.
  - destruct (NewConfig_number_errors_dropped ∅ "relayer" "18446744073709551616" eq_refl)
      as [H _].
    apply H. reflexivity.
  - destruct (NewConfig_number_errors_dropped ∅ "relayer" "-1" eq_refl) as [_ H].
    apply H. reflexivity.
Defined.

(* ===================================================================== *)
(** ** Contract [ScUpdateVerifier]: point compression *)
(* ===================================================================== *)

Lemma Some_eq {A} (a b : A) : Some a = Some b -> a = b.
Proof. congruence. Qed.

Lemma Some_pair_eq {A B} (a a' : A) (b b' : B) :
  Some (a, b) = Some (a', b') -> a = a' /\ b = b'.
Proof. intros H. split; congruence. Qed.

Lemma bind_Some_eq {A B} (a : A) (f : A -> option B) : (Some a ≫= f) = f a.
Proof. reflexivity. Qed.

(** The model of the precompile computes the modular power. *)
Lemma pow_mod_pos_spec (a : Z) (e : positive) (m : Z) :
  fp.pow_mod_pos a e m = a ^ Zpos e mod m.
Proof.
  induction e as [e IH|e IH|]; cbn [fp.pow_mod_pos]; cbv zeta.
  - rewrite IH, Pos2Z.inj_xI.
    replace (2 * Z.pos e + 1) with (Z.pos e + Z.pos e + 1) by lia.
    rewrite !Z.pow_add_r, Z.pow_1_r by lia.
    rewrite <- Zmult_mod. rewrite Zmult_mod_idemp_l. reflexivity.
  - rewrite IH, Pos2Z.inj_xO.
    replace (2 * Z.pos e) with (Z.pos e + Z.pos e) by lia.
    rewrite Z.pow_add_r by lia. rewrite <- Zmult_mod. reflexivity.
  - rewrite Z.pow_1_r. reflexivity.
Qed.

Lemma modexp_spec (b e m : Z) :
  0 <= e -> 0 < m -> evm.modexp b e m = b ^ e mod m.
Proof.
  intros He Hm. unfold evm.modexp. destruct (Z.eqb_spec m 0); [lia|].
  destruct e as [|p|p]; [reflexivity | apply pow_mod_pos_spec | lia].
Qed.

(** Signal bits below a shifted abscissa. *)
Lemma land_shiftl_low (a b n : Z) :
  0 <= n -> 0 <= b < 2 ^ n -> Z.land (Z.shiftl a n) b = 0.
Proof.
  intros Hn Hb. apply Z.bits_inj'. intros k Hk.
  rewrite Z.land_spec, Z.bits_0.
  destruct (Z.lt_ge_cases k n) as [Hlt|Hge].
  - rewrite Z.shiftl_spec_low by lia. reflexivity.
  - rewrite <- (Z.mod_small b (2 ^ n)) by lia.
    rewrite Z.mod_pow2_bits_high by lia. apply andb_false_r.
Qed.

Lemma signal_bits (x k n : Z) :
  0 <= x -> 0 <= n -> 0 <= k < 2 ^ n ->
  let c := Z.lor (Z.shiftl x n) k in
  Z.shiftr c n = x
  /\ (forall m, 0 <= m < 2 ^ n -> Z.land c m = Z.land k m)
  /\ (c = 0 -> x = 0 /\ k = 0).
Proof.
  intros Hx Hn Hk. cbv zeta. split; [|split].
  - rewrite Z.shiftr_lor, Z.shiftr_shiftl_l, Z.sub_diag, Z.shiftl_0_r by lia.
    rewrite (Z.shiftr_div_pow2 k), (Z.div_small k) by lia. apply Z.lor_0_r.
  - intros m Hm. rewrite Z.land_lor_distr_l, land_shiftl_low by lia. apply Z.lor_0_l.
  - intros Hc. apply Z.lor_eq_0_iff in Hc as [Hs Hk0]. split; [|exact Hk0].
    apply Z.shiftl_eq_0_iff in Hs; lia.
Qed.

Lemma P_value :
  ScUpdateVerifier.P
  = 21888242871839275222246405745257275088696311157297823662689037894645226208583.
Proof. reflexivity. Qed.

Lemma shl_small (n x : Z) :
  0 <= n < 256 -> 0 <= x -> x * 2 ^ n < 2 ^ 256 -> evm.shl n x = Z.shiftl x n.
Proof.
  intros Hn Hx Hfit. unfold evm.shl, evm.uint256.
  destruct (Z.leb_spec 256 n); [lia|].
  rewrite Z.shiftl_mul_pow2 by lia. apply Z.mod_small. split; [|exact Hfit].
  apply Z.mul_nonneg_nonneg; [lia|]. apply Z.pow_nonneg. lia.
Qed.

(** The abscissa 0 is on neither curve. *)
Lemma sqrt_Fp_3 :
  ScUpdateVerifier.sqrt_Fp
    (evm.addmod (evm.mulmod (evm.mulmod 0 0 ScUpdateVerifier.P) 0 ScUpdateVerifier.P) 3
                ScUpdateVerifier.P) = None.
Proof. vm_compute. reflexivity. Qed.

(** [decompress_g1] inverts [compress_g1]: whenever [compress_g1] accepts
    a point and returns [c], [decompress_g1] accepts [c] and returns that
    point; the point at infinity (0, 0) is the only one compressed to 0. *)
Theorem compress_g1_round_trip (x y c : Z) :
  0 <= x -> 0 <= y ->
  ScUpdateVerifier.compress_g1 x y = Some c ->
  ScUpdateVerifier.decompress_g1 c = Some (x, y)
  /\ 0 <= c < 2 ^ 256
  /\ (c = 0 <-> x = 0 /\ y = 0).
Proof.
  intros Hx Hy. unfold ScUpdateVerifier.compress_g1.
  destruct (Z.leb_spec ScUpdateVerifier.P x) as [|HxP]; [discriminate|].
  destruct (Z.leb_spec ScUpdateVerifier.P y) as [|HyP]; [discriminate|].
  cbn [orb]. rewrite P_value in HxP, HyP.
  destruct (Z.eqb_spec x 0) as [Hx0|Hx0]; cbn [andb].
  - subst x. destruct (Z.eqb_spec y 0) as [Hy0|Hy0].
    + intros Hc. apply Some_eq in Hc. subst c y. split; [reflexivity|]. split; [lia|tauto].
    + rewrite sqrt_Fp_3. discriminate.
  - set (a := evm.addmod _ 3 _).
    destruct (ScUpdateVerifier.sqrt_Fp a) as [y_pos|] eqn:Hsqrt; [|discriminate].
    cbn [mbind option_bind].
    rewrite (shl_small 1 x) by lia.
    assert (Hbits : forall b, 0 <= b < 2 ->
              let c := Z.lor (Z.shiftl x 1) b in
              Z.shiftr c 1 = x /\ Z.land c 1 = b /\ c <> 0 /\ 0 <= c < 2 ^ 256).
    { intros b Hb. cbv zeta.
      destruct (signal_bits x b 1 Hx ltac:(lia) ltac:(lia)) as (Hshr & Hland & Hzero).
      split; [exact Hshr|]. split.
      - rewrite (Hland 1) by lia. change 1 with (Z.ones 1). rewrite Z.land_ones by lia.
        apply Z.mod_small. lia.
      - split; [intros Hc0; apply Hzero in Hc0; lia|].
        assert (Hc : Z.lor (Z.shiftl x 1) b = 2 * x + b).
        { rewrite <- Z.lxor_lor by (apply land_shiftl_low; lia).
          rewrite <- Z.add_nocarry_lxor by (apply land_shiftl_low; lia).
          rewrite Z.shiftl_mul_pow2 by lia. lia. }
        rewrite Hc. lia. }
    assert (Hdec : forall b, 0 <= b < 2 ->
              (if b =? 1 then ScUpdateVerifier.negate y_pos else y_pos) = y ->
              ScUpdateVerifier.decompress_g1 (Z.lor (Z.shiftl x 1) b) = Some (x, y)).
    { intros b Hb Hy'. destruct (Hbits b Hb) as (Hshr & Hland & Hne & _).
      unfold ScUpdateVerifier.decompress_g1. cbv zeta.
      destruct (Z.eqb_spec (Z.lor (Z.shiftl x 1) b) 0); [contradiction|].
      unfold evm.shr. rewrite Hshr, Hland.
      destruct (Z.leb_spec ScUpdateVerifier.P x); [rewrite P_value in *; lia|].
      fold a. rewrite Hsqrt. cbn [mbind option_bind]. rewrite Hy'. reflexivity. }
    destruct (Z.eqb_spec y y_pos) as [Hpos|Hpos].
    + intros Hc. apply Some_eq in Hc. subst c.
      destruct (Hbits 0 ltac:(lia)) as (_ & _ & Hne & Hrange).
      split; [apply (Hdec 0); [lia | symmetry; exact Hpos]|].
      split; [exact Hrange | split; [contradiction | lia]].
    + destruct (Z.eqb_spec y (ScUpdateVerifier.negate y_pos)) as [Hneg|]; [|discriminate].
      intros Hc. apply Some_eq in Hc. subst c.
      destruct (Hbits 1 ltac:(lia)) as (_ & _ & Hne & Hrange).
      split; [apply (Hdec 1); [lia | symmetry; exact Hneg]|].
      split; [exact Hrange | split; [contradiction | lia]].
Qed.

Lemma compress_g1_round_trip_witness :
  ScUpdateVerifier.decompress_g1 2 = Some (1, 2)
  /\ 0 <= 2 < 2 ^ 256
  /\ (2 = 0 <-> 1 = 0 /\ 2 = 0).
Proof.
  apply (compress_g1_round_trip 1 2 2); [lia | lia | vm_compute; reflexivity].
Defined.

Lemma lor_shiftr_land (c : Z) :
  0 <= c -> Z.lor (Z.shiftl (Z.shiftr c 1) 1) (Z.land c 1) = c.
Proof.
  intros Hc. change 1 with (Z.ones 1) at 3. rewrite Z.land_ones by lia.
  pose proof (Z.mod_pos_bound c 2 ltac:(lia)) as Hm. change (2 ^ 1) with 2.
  rewrite <- Z.lxor_lor by (apply land_shiftl_low; lia).
  rewrite <- Z.add_nocarry_lxor by (apply land_shiftl_low; lia).
  rewrite Z.shiftl_mul_pow2, Z.shiftr_div_pow2 by lia. change (2 ^ 1) with 2.
  pose proof (Z.div_mod c 2 ltac:(lia)). lia.
Qed.

Lemma pow_mod_pos_range (a : Z) (e : positive) (m : Z) :
  0 < m -> 0 <= fp.pow_mod_pos a e m < m.
Proof.
  intros Hm. destruct e; cbn [fp.pow_mod_pos]; cbv zeta; apply Z.mod_pos_bound; exact Hm.
Qed.

Lemma exp_range (a e : Z) : 0 <= ScUpdateVerifier.exp a e < ScUpdateVerifier.P.
Proof.
  unfold ScUpdateVerifier.exp, evm.modexp.
  assert (HP : 0 < ScUpdateVerifier.P) by (rewrite P_value; lia).
  destruct (Z.eqb_spec ScUpdateVerifier.P 0); [lia|].
  destruct e; [apply Z.mod_pos_bound; exact HP | apply pow_mod_pos_range; exact HP
              | apply Z.mod_pos_bound; exact HP].
Qed.

Lemma sqrt_Fp_Some (a r : Z) :
  ScUpdateVerifier.sqrt_Fp a = Some r ->
  0 <= r < ScUpdateVerifier.P /\ (r * r) mod ScUpdateVerifier.P = a.
Proof.
  unfold ScUpdateVerifier.sqrt_Fp. cbv zeta.
  generalize (exp_range a ScUpdateVerifier.EXP_SQRT_FP).
  generalize (ScUpdateVerifier.exp a ScUpdateVerifier.EXP_SQRT_FP). intros x Hx.
  unfold evm.mulmod. destruct (Z.eqb_spec ScUpdateVerifier.P 0) as [HP|_].
  { rewrite P_value in HP. discriminate. }
  destruct (Z.eqb_spec ((x * x) mod ScUpdateVerifier.P) a) as [Heq|]; [|discriminate].
  cbn [negb]. intros Hr. assert (r = x) by congruence. subst r. split; assumption.
Qed.

Lemma negate_range (a : Z) : 0 <= ScUpdateVerifier.negate a < ScUpdateVerifier.P.
Proof. unfold ScUpdateVerifier.negate. apply Z.mod_pos_bound. rewrite P_value. lia. Qed.

Lemma negate_square (a : Z) :
  (ScUpdateVerifier.negate a * ScUpdateVerifier.negate a) mod ScUpdateVerifier.P
  = (a * a) mod ScUpdateVerifier.P.
Proof.
  unfold ScUpdateVerifier.negate. set (p := ScUpdateVerifier.P).
  rewrite <- Zmult_mod.
  replace ((p - a mod p) * (p - a mod p))
    with (a mod p * (a mod p) + (p - 2 * (a mod p)) * p) by ring.
  rewrite Z_mod_plus_full, <- Zmult_mod. reflexivity.
Qed.

(** A word [decompress_g1] accepts denotes a point of the curve
    [y^2 = x^3 + 3] over the base field with reduced coordinates, and it is
    the canonical encoding of that point: [compress_g1] gives the word
    back (for an ordinate other than 0). *)
Theorem decompress_g1_sound (c x y : Z) :
  0 <= c < 2 ^ 256 -> c <> 0 ->
  ScUpdateVerifier.decompress_g1 c = Some (x, y) ->
  0 <= x < ScUpdateVerifier.P /\ 0 <= y < ScUpdateVerifier.P
  /\ (y * y) mod ScUpdateVerifier.P = (x * x * x + 3) mod ScUpdateVerifier.P
  /\ (y <> 0 -> ScUpdateVerifier.compress_g1 x y = Some c).
Proof.
  intros Hc Hc0. unfold ScUpdateVerifier.decompress_g1. cbv zeta.
  destruct (Z.eqb_spec c 0); [contradiction|].
  unfold evm.shr.
  destruct (Z.leb_spec ScUpdateVerifier.P (Z.shiftr c 1)) as [|HxP]; [discriminate|].
  set (x' := Z.shiftr c 1) in *.
  assert (Hx' : 0 <= x') by (unfold x'; apply Z.shiftr_nonneg; lia).
  set (a := evm.addmod _ 3 _).
  destruct (ScUpdateVerifier.sqrt_Fp a) as [y_pos|] eqn:Hsqrt; [|discriminate].
  cbn [mbind option_bind]. intros Hxy. apply Some_pair_eq in Hxy as [<- Hy].
  destruct (sqrt_Fp_Some a y_pos Hsqrt) as (Hyr & Hsq).
  assert (Ha : a = (x' * x' * x' + 3) mod ScUpdateVerifier.P).
  { unfold a, evm.addmod, evm.mulmod. rewrite P_value. cbn [Z.eqb].
    rewrite Zmult_mod_idemp_l, Zplus_mod_idemp_l. reflexivity. }
  assert (Hcurve : (y * y) mod ScUpdateVerifier.P = (x' * x' * x' + 3) mod ScUpdateVerifier.P).
  { rewrite <- Ha, <- Hsq, <- Hy. destruct (Z.land c 1 =? 1); [apply negate_square | reflexivity]. }
  assert (Hyrange : 0 <= y < ScUpdateVerifier.P).
  { rewrite <- Hy. destruct (Z.land c 1 =? 1); [apply negate_range | exact Hyr]. }
  split; [lia|]. split; [exact Hyrange|]. split; [exact Hcurve|].
  intros Hy0. unfold ScUpdateVerifier.compress_g1.
  destruct (Z.leb_spec ScUpdateVerifier.P x'); [lia|].
  destruct (Z.leb_spec ScUpdateVerifier.P y); [lia|]. cbn [orb].
  destruct (Z.eqb_spec y 0); [contradiction|]. rewrite andb_false_r.
  fold a. rewrite Hsqrt. cbn [mbind option_bind].
  rewrite (shl_small 1 x') by (rewrite P_value in *; lia).
  pose proof (lor_shiftr_land c ltac:(lia)) as Hlor. fold x' in Hlor.
  assert (Hbit : Z.land c 1 = 0 \/ Z.land c 1 = 1).
  { change (Z.land c 1) with (Z.land c (Z.ones 1)). rewrite Z.land_ones by lia.
    pose proof (Z.mod_pos_bound c 2 ltac:(lia)). change (2 ^ 1) with 2. lia. }
  destruct Hbit as [Hb|Hb]; rewrite Hb in Hy, Hlor; cbn [Z.eqb Pos.eqb] in Hy.
  - subst y. rewrite Z.eqb_refl, Hlor. reflexivity.
  - destruct (Z.eqb_spec y y_pos) as [Heq|_].
    + (* [y_pos] would be its own opposite *)
      exfalso. rewrite Heq in Hy. unfold ScUpdateVerifier.negate in Hy.
      rewrite (Z.mod_small y_pos) in Hy by exact Hyr.
      assert (Hne : y_pos <> 0) by congruence.
      rewrite Z.mod_small in Hy by lia. rewrite P_value in Hy. lia.
    + rewrite <- Hy, Z.eqb_refl, Hlor. reflexivity.
Qed.

Lemma decompress_g1_sound_witness :
  0 <= 1 < ScUpdateVerifier.P /\ 0 <= 2 < ScUpdateVerifier.P
  /\ (2 * 2) mod ScUpdateVerifier.P = (1 * 1 * 1 + 3) mod ScUpdateVerifier.P
  /\ (2 <> 0 -> ScUpdateVerifier.compress_g1 1 2 = Some 2).
Proof.
  apply (decompress_g1_sound 2 1 2); [lia | lia | vm_compute; reflexivity].
Defined.

Lemma g2_origin_not_on_curve (a0 a1 : Z) :
  ScUpdateVerifier.g2_y_squared 0 0 = (a0, a1) ->
  ScUpdateVerifier.sqrt_Fp
    (evm.addmod (evm.mulmod a0 a0 ScUpdateVerifier.P) (evm.mulmod a1 a1 ScUpdateVerifier.P)
                ScUpdateVerifier.P) = None.
Proof.
  intros H. pose proof (f_equal fst H) as H0. pose proof (f_equal snd H) as H1.
  cbn [fst snd] in H0, H1. subst a0 a1. vm_compute. reflexivity.
Qed.

(** The words [decompress_g2] reads: the abscissa and the two signal
    bits. *)
Lemma decompress_g2_signals (x0 x1 a0 a1 r0 r1 : Z) (hint : bool) (s : Z) :
  0 <= x0 < ScUpdateVerifier.P -> 0 <= x1 < ScUpdateVerifier.P ->
  (x0 <> 0 \/ x1 <> 0) ->
  ScUpdateVerifier.g2_y_squared x0 x1 = (a0, a1) ->
  ScUpdateVerifier.sqrt_Fp2 a0 a1 hint = Some (r0, r1) ->
  0 <= s < 2 ->
  ScUpdateVerifier.decompress_g2
    (Z.lor (Z.shiftl x0 2) (Z.lor (if hint then 2 else 0) s)) x1
  = Some (if s =? 1
          then (x0, x1, ScUpdateVerifier.negate r0, ScUpdateVerifier.negate r1)
          else (x0, x1, r0, r1)).
Proof.
  intros Hx0 Hx1 Hne Hsq Hroot Hs.
  set (k := Z.lor (if hint then 2 else 0) s).
  assert (Hk : 0 <= k < 2 ^ 2 /\ (Z.land k 1 =? 1) = (s =? 1) /\ (Z.land k 2 =? 2) = hint).
  { unfold k. assert (Hs' : s = 0 \/ s = 1) by lia.
    destruct Hs' as [-> | ->]; destruct hint; vm_compute;
      repeat split; discriminate || reflexivity. }
  destruct Hk as (Hkr & Hk1 & Hk2). clearbody k.
  destruct (signal_bits x0 k 2 ltac:(lia) ltac:(lia) Hkr) as (Hshr & Hland & Hz).
  unfold ScUpdateVerifier.decompress_g2. cbv zeta.
  unfold evm.shr. rewrite Hshr, (Hland 1), (Hland 2), Hk1, Hk2 by lia.
  assert (Hnz : (Z.lor (Z.shiftl x0 2) k =? 0) && (x1 =? 0) = false).
  { destruct (Z.eqb_spec (Z.lor (Z.shiftl x0 2) k) 0) as [Hc0|]; [|reflexivity].
    destruct (Z.eqb_spec x1 0) as [Hc1|]; [|reflexivity].
    apply Hz in Hc0. lia. }
  rewrite Hnz.
  destruct (Z.leb_spec ScUpdateVerifier.P x0); [lia|].
  destruct (Z.leb_spec ScUpdateVerifier.P x1); [lia|]. cbn [orb].
  rewrite Hsq, Hroot. cbn [mbind option_bind].
  destruct (s =? 1); reflexivity.
Qed.

(** [decompress_g2] inverts [compress_g2]: whenever [compress_g2] accepts
    a point and returns the two words [(c0, c1)], [decompress_g2] accepts
    them and returns that point. *)
Theorem compress_g2_round_trip (x0 x1 y0 y1 c0 c1 : Z) :
  0 <= x0 -> 0 <= x1 -> 0 <= y0 -> 0 <= y1 ->
  ScUpdateVerifier.compress_g2 x0 x1 y0 y1 = Some (c0, c1) ->
  ScUpdateVerifier.decompress_g2 c0 c1 = Some (x0, x1, y0, y1).
Proof.
  intros Hx0 Hx1 Hy0 Hy1. unfold ScUpdateVerifier.compress_g2.
  destruct (Z.leb_spec ScUpdateVerifier.P x0) as [|Hx0P]; [discriminate|].
  destruct (Z.leb_spec ScUpdateVerifier.P x1) as [|Hx1P]; [discriminate|].
  destruct (Z.leb_spec ScUpdateVerifier.P y0) as [|Hy0P]; [discriminate|].
  destruct (Z.leb_spec ScUpdateVerifier.P y1) as [|Hy1P]; [discriminate|].
  cbn [orb].
  destruct (Z.eqb_spec (Z.lor (Z.lor (Z.lor x0 x1) y0) y1) 0) as [Hzero|Hnz].
  { intros Hc. apply Some_pair_eq in Hc as [<- <-].
    apply Z.lor_eq_0_iff in Hzero as [Hzero ->].
    apply Z.lor_eq_0_iff in Hzero as [Hzero ->].
    apply Z.lor_eq_0_iff in Hzero as [-> ->]. reflexivity. }
  destruct (ScUpdateVerifier.g2_y_squared x0 x1) as [a0 a1] eqn:Hsq.
  destruct (ScUpdateVerifier.sqrt_Fp _) as [d|] eqn:Hd; [|discriminate].
  rewrite bind_Some_eq. cbv beta zeta.
  generalize (negb (ScUpdateVerifier.isSquare_Fp
                      (evm.mulmod (evm.addmod a0 d ScUpdateVerifier.P)
                                  ScUpdateVerifier.FRACTION_1_2_FP ScUpdateVerifier.P))).
  intros hint.
  destruct (ScUpdateVerifier.sqrt_Fp2 a0 a1 hint) as [[r0 r1]|] eqn:Hroot; [|discriminate].
  rewrite bind_Some_eq. cbv beta iota zeta.
  rewrite (shl_small 2 x0) by (rewrite P_value in *; lia).
  rewrite <- !Z.lor_assoc.
  assert (Hne : x0 <> 0 \/ x1 <> 0).
  { destruct (Z.eq_dec x0 0) as [E0|]; [|left; assumption].
    destruct (Z.eq_dec x1 0) as [E1|]; [|right; assumption].
    exfalso. subst x0 x1. rewrite (g2_origin_not_on_curve a0 a1 Hsq) in Hd. discriminate. }
  pose proof (decompress_g2_signals x0 x1 a0 a1 r0 r1 hint 0
                ltac:(lia) ltac:(lia) Hne Hsq Hroot ltac:(lia)) as Hdec0.
  pose proof (decompress_g2_signals x0 x1 a0 a1 r0 r1 hint 1
                ltac:(lia) ltac:(lia) Hne Hsq Hroot ltac:(lia)) as Hdec1.
  change (0 =? 1) with false in Hdec0. change (1 =? 1) with true in Hdec1. cbv iota in Hdec0, Hdec1.
  destruct (Z.eqb_spec y0 r0) as [H0|H0]; [destruct (Z.eqb_spec y1 r1) as [H1|H1]|];
    cbn [andb].
  - intros Hc. apply Some_pair_eq in Hc as [<- <-]. subst y0 y1. exact Hdec0.
  - destruct (Z.eqb_spec y0 (ScUpdateVerifier.negate r0)) as [N0|]; [|discriminate].
    destruct (Z.eqb_spec y1 (ScUpdateVerifier.negate r1)) as [N1|]; [|discriminate].
    cbn [andb]. intros Hc. apply Some_pair_eq in Hc as [<- <-].
    rewrite N0, N1. exact Hdec1.
  - destruct (Z.eqb_spec y0 (ScUpdateVerifier.negate r0)) as [N0|]; [|discriminate].
    destruct (Z.eqb_spec y1 (ScUpdateVerifier.negate r1)) as [N1|]; [|discriminate].
    cbn [andb]. intros Hc. apply Some_pair_eq in Hc as [<- <-].
    rewrite N0, N1. exact Hdec1.
Qed.

Lemma compress_g2_round_trip_witness :
  ScUpdateVerifier.decompress_g2
    43428187996092228543778283048931317925483025438314072347962079973142623411126
    11559732032986387107991004021392285783925812861821192530917403151452391805634
  = Some (10857046999023057135944570762232829481370756359578518086990519993285655852781,
          11559732032986387107991004021392285783925812861821192530917403151452391805634,
          8495653923123431417604973247489272438418190587263600148770280649306958101930,
          4082367875863433681332203403145435568316851327593401208105741076214120093531).
Proof.
  apply (compress_g2_round_trip
           10857046999023057135944570762232829481370756359578518086990519993285655852781
           11559732032986387107991004021392285783925812861821192530917403151452391805634
           8495653923123431417604973247489272438418190587263600148770280649306958101930
           4082367875863433681332203403145435568316851327593401208105741076214120093531);
    [lia | lia | lia | lia | vm_compute; reflexivity].
Defined.

(* ===================================================================== *)
(** ** Contract [LightClient]: words and bytes *)
(* ===================================================================== *)

Lemma OS2IP_nil : OS2IP [] = 0.
Proof. reflexivity. Qed.

Lemma OS2IP_app_gen (a b : list Z) :
  OS2IP (a ++ b) = OS2IP a * 256 ^ Z.of_nat (length b) + OS2IP b.
Proof.
  induction b as [|x b IH] using rev_ind.
  - rewrite app_nil_r, OS2IP_nil. cbn [length Z.of_nat]. lia.
  - rewrite app_assoc, !OS2IP_app, IH, length_app. cbn [length].
    rewrite Nat2Z.inj_add, Z.pow_add_r by lia. change (256 ^ Z.of_nat 1) with 256. ring.
Qed.

Lemma OS2IP_range (l : list Z) :
  Forall is_byte l -> 0 <= OS2IP l < 256 ^ Z.of_nat (length l).
Proof.
  induction l as [|x l IH] using rev_ind; intros Hl.
  - rewrite OS2IP_nil. cbn. lia.
  - apply Forall_app in Hl as [Hl Hx]. inversion Hx as [|? ? Hx' _]; subst.
    unfold is_byte in Hx'. specialize (IH Hl).
    rewrite OS2IP_app, length_app. cbn [length].
    rewrite Nat2Z.inj_add, Z.pow_add_r by lia. change (256 ^ Z.of_nat 1) with 256. nia.
Qed.

Lemma be_bytes_OS2IP (l : list Z) :
  Forall is_byte l -> be_bytes (length l) (OS2IP l) = l.
Proof.
  induction l as [|x l IH] using rev_ind; intros Hl; [reflexivity|].
  apply Forall_app in Hl as [Hl Hx]. inversion Hx as [|? ? Hx' _]; subst.
  unfold is_byte in Hx'.
  rewrite length_app, Nat.add_comm. cbn [length Nat.add be_bytes].
  rewrite OS2IP_app.
  replace ((OS2IP l * 256 + x) / 256) with (OS2IP l)
    by (apply Z.div_unique with (r := x); lia).
  replace ((OS2IP l * 256 + x) mod 256) with x
    by (apply Z.mod_unique with (q := OS2IP l); lia).
  rewrite (IH Hl). reflexivity.
Qed.

Lemma be_bytes_0 (n : nat) : be_bytes n 0 = repeat 0 n.
Proof.
  induction n as [|n IH]; [reflexivity|].
  cbn [be_bytes]. change (0 / 256) with 0. change (0 mod 256) with 0. rewrite IH.
  change [0] with (repeat 0 1). rewrite <- repeat_app. f_equal. lia.
Qed.

(** The word whose high half is [hi] and whose low half is zero, as
    [bytes32]. *)
Lemma bytes32_high_half (hi : list Z) :
  length hi = 16%nat -> Forall is_byte hi ->
  evm.bytes32 (OS2IP hi * 2 ^ 128) = hi ++ repeat 0 16.
Proof.
  intros Hlen Hhi. unfold evm.bytes32.
  change 32%nat with (16 + 16)%nat. rewrite be_bytes_split.
  change (256 ^ Z.of_nat 16) with (2 ^ 128).
  rewrite Z.div_mul by lia.
  rewrite <- (be_bytes_mod 16 (OS2IP hi * 2 ^ 128)).
  change (256 ^ Z.of_nat 16) with (2 ^ 128). rewrite Z.mod_mul by lia.
  rewrite be_bytes_0, <- Hlen, (be_bytes_OS2IP hi Hhi). reflexivity.
Qed.

(** Masking a word with [HIGH_16_BYTES], and shifting it right then left by
    128 bits, both clear its low half. *)
Lemma word_halves (b : list Z) :
  length b = 32%nat -> Forall is_byte b ->
  OS2IP b = OS2IP (firstn 16 b) * 2 ^ 128 + OS2IP (skipn 16 b)
  /\ 0 <= OS2IP (firstn 16 b) < 2 ^ 128
  /\ 0 <= OS2IP (skipn 16 b) < 2 ^ 128.
Proof.
  intros Hlen Hb.
  assert (H1 : Forall is_byte (firstn 16 b)) by (apply Forall_take; exact Hb).
  assert (H2 : Forall is_byte (skipn 16 b)) by (apply Forall_drop; exact Hb).
  pose proof (OS2IP_range _ H1) as R1. pose proof (OS2IP_range _ H2) as R2.
  rewrite length_firstn, Hlen in R1. rewrite length_skipn, Hlen in R2.
  change (256 ^ Z.of_nat (Nat.min 16 32)) with (2 ^ 128) in R1.
  change (256 ^ Z.of_nat (32 - 16)) with (2 ^ 128) in R2.
  split; [|split; assumption].
  rewrite <- (firstn_skipn 16 b) at 1. rewrite OS2IP_app_gen, length_skipn, Hlen.
  reflexivity.
Qed.

Lemma land_HIGH_16_BYTES (hi lo : Z) :
  0 <= hi < 2 ^ 128 -> 0 <= lo < 2 ^ 128 ->
  Z.land (hi * 2 ^ 128 + lo) LightClient.HIGH_16_BYTES = hi * 2 ^ 128.
Proof.
  intros Hhi Hlo.
  assert (Hsum : hi * 2 ^ 128 + lo = Z.lor (Z.shiftl hi 128) lo).
  { rewrite <- Z.lxor_lor by (apply land_shiftl_low; lia).
    rewrite <- Z.add_nocarry_lxor by (apply land_shiftl_low; lia).
    rewrite Z.shiftl_mul_pow2 by lia. reflexivity. }
  rewrite Hsum, <- Z.shiftl_mul_pow2 by lia.
  apply Z.bits_inj'. intros k Hk.
  rewrite Z.land_spec, Z.lor_spec.
  change LightClient.HIGH_16_BYTES with (Z.shiftl (Z.ones 128) 128).
  destruct (Z.lt_ge_cases k 128) as [Hlt|Hge].
  - rewrite !Z.shiftl_spec_low by lia. rewrite andb_false_r. reflexivity.
  - rewrite !Z.shiftl_spec by lia.
    rewrite <- (Z.mod_small lo (2 ^ 128)) by lia.
    rewrite Z.mod_pow2_bits_high by lia. rewrite orb_false_r.
    destruct (Z.lt_ge_cases (k - 128) 128) as [Hin|Hout].
    + rewrite Z.ones_spec_low by lia. apply andb_true_r.
    + rewrite <- (Z.mod_small hi (2 ^ 128)) by lia.
      rewrite Z.mod_pow2_bits_high by lia. reflexivity.
Qed.

Lemma shl_shr_128 (hi lo : Z) :
  0 <= hi < 2 ^ 128 -> 0 <= lo < 2 ^ 128 ->
  evm.shl 128 (evm.shr 128 (hi * 2 ^ 128 + lo)) = hi * 2 ^ 128.
Proof.
  intros Hhi Hlo. unfold evm.shl, evm.shr, evm.uint256.
  change (256 <=? 128) with false. cbv iota.
  rewrite Z.shiftr_div_pow2, Z.shiftl_mul_pow2 by lia.
  replace ((hi * 2 ^ 128 + lo) / 2 ^ 128) with hi
    by (apply Z.div_unique with (r := lo); lia).
  apply Z.mod_small. change (2 ^ 256) with (2 ^ 128 * 2 ^ 128). nia.
Qed.

(** The 32 bytes [load] reads. *)
Lemma load_bytes (region : list Z) (off : Z) :
  Forall is_byte region ->
  let b := firstn 32 (skipn (Z.to_nat off) region ++ repeat 0 32) in
  evm.load region off = OS2IP b /\ length b = 32%nat /\ Forall is_byte b.
Proof.
  intros Hr. cbv zeta. split; [reflexivity|]. split.
  - rewrite length_firstn, length_app, repeat_length. lia.
  - apply Forall_take. apply Forall_app. split; [apply Forall_drop; exact Hr|].
    apply List.Forall_forall. intros x Hx. apply repeat_spec in Hx. subst x. unfold is_byte. lia.
Qed.

Lemma firstn_firstn_app {A} (l l' : list A) (n m : nat) :
  (n <= m)%nat -> (n <= length l)%nat ->
  firstn n (firstn m (l ++ l')) = firstn n l.
Proof.
  intros Hnm Hn. rewrite firstn_firstn, Nat.min_l by exact Hnm.
  rewrite firstn_app. replace (n - length l)%nat with 0%nat by lia.
  rewrite firstn_O, app_nil_r. reflexivity.
Qed.

(** A full word inside the region. *)
Lemma bytes32_load (region : list Z) (off : Z) :
  Forall is_byte region -> 0 <= off ->
  (Z.to_nat off + 32 <= length region)%nat ->
  evm.bytes32 (evm.load region off) = firstn 32 (skipn (Z.to_nat off) region).
Proof.
  intros Hr Hoff Hin. destruct (load_bytes region off Hr) as (Hload & Hlen & Hb).
  rewrite Hload. unfold evm.bytes32. rewrite <- Hlen at 1. rewrite be_bytes_OS2IP by exact Hb.
  rewrite firstn_app. rewrite length_skipn.
  replace (32 - (length region - Z.to_nat off))%nat with 0%nat by lia.
  rewrite firstn_O, app_nil_r. reflexivity.
Qed.

(** The high half of a word whose first 16 bytes are inside the region. *)
Lemma bytes32_load_high (region : list Z) (off : Z) :
  Forall is_byte region -> 0 <= off ->
  (Z.to_nat off + 16 <= length region)%nat ->
  evm.bytes32 (Z.land (evm.load region off) LightClient.HIGH_16_BYTES)
  = firstn 16 (skipn (Z.to_nat off) region) ++ repeat 0 16
  /\ evm.bytes32 (evm.shl 128 (evm.shr 128 (evm.load region off)))
     = firstn 16 (skipn (Z.to_nat off) region) ++ repeat 0 16.
Proof.
  intros Hr Hoff Hin. destruct (load_bytes region off Hr) as (Hload & Hlen & Hb).
  set (b := firstn 32 _) in *.
  destruct (word_halves b Hlen Hb) as (Hsplit & Hhi & Hlo).
  assert (Hfirst : firstn 16 b = firstn 16 (skipn (Z.to_nat off) region)).
  { unfold b. apply firstn_firstn_app; [lia|]. rewrite length_skipn. lia. }
  assert (Hhigh : evm.bytes32 (OS2IP (firstn 16 b) * 2 ^ 128)
                  = firstn 16 (skipn (Z.to_nat off) region) ++ repeat 0 16).
  { rewrite bytes32_high_half.
    - rewrite Hfirst. reflexivity.
    - rewrite length_firstn, Hlen. reflexivity.
    - apply Forall_take. exact Hb. }
  rewrite Hload, Hsplit, land_HIGH_16_BYTES, shl_shr_128 by assumption.
  split; exact Hhigh.
Qed.

(** The serialized committee, key by key. *)
Lemma concat_keys_length (pubkeys : list (list Z)) :
  Forall (fun k => length k = 48%nat) pubkeys ->
  length (concat pubkeys) = (48 * length pubkeys)%nat.
Proof.
  induction 1 as [|k ks Hk Hks IH]; [reflexivity|].
  cbn [concat length]. rewrite length_app, IH, Hk. lia.
Qed.

Lemma skipn_concat_keys (pubkeys : list (list Z)) (rest : list Z) (i : nat) :
  Forall (fun k => length k = 48%nat) pubkeys ->
  (i < length pubkeys)%nat ->
  skipn (48 * i) (concat pubkeys ++ rest)
  = nth i pubkeys [] ++ skipn (48 * S i) (concat pubkeys ++ rest).
Proof.
  intros Hks. revert i. induction Hks as [|k ks Hk Hks IH]; intros i Hi; [simpl in Hi; lia|].
  destruct i as [|i].
  - cbn [concat nth]. rewrite Nat.mul_0_r, skipn_O, <- app_assoc. f_equal.
    rewrite skipn_app, (skipn_all2 k) by lia. rewrite Hk.
    replace (48 * 1 - 48)%nat with 0%nat by lia. reflexivity.
  - cbn [concat nth]. rewrite <- !app_assoc.
    rewrite !(skipn_app _ k), !(skipn_all2 k) by lia. rewrite Hk. cbn [app].
    replace (48 * S i - 48)%nat with (48 * i)%nat by lia.
    replace (48 * S (S i) - 48)%nat with (48 * S i)%nat by lia.
    apply IH. simpl in Hi. lia.
Qed.

Lemma key_in_data (pubkeys : list (list Z)) (rest : list Z) (i : nat) :
  Forall (fun k => length k = 48%nat) pubkeys ->
  (i < length pubkeys)%nat ->
  firstn 48 (skipn (48 * i) (concat pubkeys ++ rest)) = nth i pubkeys [].
Proof.
  intros Hks Hi. rewrite (skipn_concat_keys pubkeys rest i Hks Hi).
  assert (Hk : length (nth i pubkeys []) = 48%nat).
  { rewrite Forall_nth in Hks. apply Hks. exact Hi. }
  rewrite firstn_app, firstn_all2 by lia. rewrite Hk, Nat.sub_diag, firstn_O, app_nil_r.
  reflexivity.
Qed.

(* ===================================================================== *)
(** ** Contract [LightClient]: the root and the commitment *)
(* ===================================================================== *)

Lemma hash_pairs_hash_layer (n : nat) (prev : list (list Z)) :
  length prev = (2 * n)%nat -> LightClient.hash_pairs prev n = hash_layer prev.
Proof.
  revert prev. induction n as [|n IH]; intros prev Hlen.
  - destruct prev; [reflexivity | simpl in Hlen; lia].
  - destruct prev as [|a [|b rest]]; try (simpl in Hlen; lia).
    unfold LightClient.hash_pairs, hash_layer.
    cbn [seq map layer_inputs nth Nat.mul Nat.add]. f_equal.
    rewrite <- seq_shift, map_map.
    specialize (IH rest ltac:(simpl in Hlen; lia)).
    unfold LightClient.hash_pairs, hash_layer in IH. rewrite <- IH.
    apply map_ext. intros i.
    replace (S i * 2)%nat with (S (S (i * 2))) by lia.
    replace (S (S (i * 2)) + 1)%nat with (S (S (i * 2 + 1))) by lia.
    reflexivity.
Qed.

Lemma hash_layer_length (n : nat) (prev : list (list Z)) :
  length prev = (2 * n)%nat -> length (hash_layer prev) = n.
Proof.
  intros Hlen. rewrite <- (hash_pairs_hash_layer n prev Hlen).
  unfold LightClient.hash_pairs. rewrite length_map, length_seq. reflexivity.
Qed.

(** The leaf [_scRoot] computes for the 48 bytes at offset [off]. *)
Lemma scRoot_leaf (mem : list Z) (off : Z) :
  Forall is_byte mem -> 0 <= off ->
  (Z.to_nat off + 48 <= length mem)%nat ->
  sha256 (evm.bytes32 (evm.load mem off)
          ++ evm.bytes32 (Z.land (evm.load mem (off + 32)) LightClient.HIGH_16_BYTES))
  = LightClient.pubkey_root (firstn 48 (skipn (Z.to_nat off) mem)).
Proof.
  intros Hmem Hoff Hin.
  rewrite bytes32_load by (try assumption; lia).
  destruct (bytes32_load_high mem (off + 32) Hmem ltac:(lia) ltac:(lia)) as [-> _].
  unfold LightClient.pubkey_root. cbn [merkle_root hash_layer layer_inputs map hd].
  f_equal. f_equal.
  - rewrite firstn_firstn. reflexivity.
  - f_equal. replace (Z.to_nat (off + 32)) with (32 + Z.to_nat off)%nat by lia.
    rewrite <- skipn_skipn. apply firstn_skipn_comm.
Qed.

(** [_scRoot] on the serialization of 512 keys and an aggregate key. *)
Lemma scRoot_serialize
    (pubkeys : list (list Z)) (aggregate_pubkey memory_after : list Z) :
  length pubkeys = 512%nat ->
  Forall (fun k => length k = 48%nat) pubkeys ->
  Forall (Forall is_byte) pubkeys ->
  length aggregate_pubkey = 48%nat ->
  Forall is_byte aggregate_pubkey ->
  Forall is_byte memory_after ->
  LightClient._scRoot (LightClient.serialize pubkeys aggregate_pubkey) memory_after
  = Some (LightClient.sync_committee_root pubkeys aggregate_pubkey).
Proof.
  intros Hn Hlen Hbytes Hagg Haggb Hafter.
  unfold LightClient._scRoot, LightClient.serialize.
  pose proof (concat_keys_length pubkeys Hlen) as Hclen. rewrite Hn in Hclen.
  rewrite length_app, Hclen, Hagg.
  change (Z.of_nat (48 * 512 + 48) =? 24624) with true. cbn [negb]. cbv zeta.
  set (mem := (concat pubkeys ++ aggregate_pubkey) ++ memory_after).
  assert (Hmem : Forall is_byte mem).
  { unfold mem. repeat (apply Forall_app; split); try assumption.
    apply Forall_concat. exact Hbytes. }
  assert (Hmlen : (48 * 512 + 48 <= length mem)%nat).
  { unfold mem. rewrite !length_app, Hclen, Hagg. lia. }
  (* the leaves *)
  assert (Hleaves :
    map (fun i => sha256 (evm.bytes32 (evm.load mem (i * 48))
                          ++ evm.bytes32 (Z.land (evm.load mem (i * 48 + 32))
                                                 LightClient.HIGH_16_BYTES)))
        (map Z.of_nat (seq 0 512))
    = map LightClient.pubkey_root pubkeys).
  { rewrite map_map. apply (nth_ext _ _ [] []).
    - rewrite !length_map, length_seq. lia.
    - intros i Hi. rewrite length_map, length_seq in Hi.
      rewrite nth_map_seq by exact Hi.
      rewrite scRoot_leaf by (try assumption; lia).
      rewrite (nth_indep _ [] (LightClient.pubkey_root [])) by (rewrite length_map; lia).
      rewrite map_nth. f_equal.
      replace (Z.to_nat (Z.of_nat i * 48)) with (48 * i)%nat by lia.
      unfold mem. rewrite <- app_assoc.
      apply key_in_data; [exact Hlen | lia]. }
  rewrite Hleaves.
  (* the aggregate key *)
  assert (Haggroot :
    sha256 (evm.bytes32 (evm.load mem 24576)
            ++ evm.bytes32 (Z.land (evm.load mem 24608) LightClient.HIGH_16_BYTES))
    = LightClient.pubkey_root aggregate_pubkey).
  { change 24608 with (24576 + 32).
    rewrite scRoot_leaf by (try assumption; lia). f_equal.
    replace (Z.to_nat 24576) with (length (concat pubkeys)) by lia.
    unfold mem. rewrite <- app_assoc, skipn_app, skipn_all, Nat.sub_diag.
    rewrite skipn_O. cbn [app]. rewrite firstn_app, firstn_all2 by lia.
    rewrite Hagg, Nat.sub_diag, firstn_O, app_nil_r. reflexivity. }
  rewrite Haggroot.
  (* the tree *)
  set (leaves := map LightClient.pubkey_root pubkeys).
  assert (H0 : length leaves = (2 * 256)%nat) by (unfold leaves; rewrite length_map; lia).
  rewrite (hash_pairs_hash_layer 256 leaves H0).
  pose proof (hash_layer_length 256 leaves H0) as H1. change 256%nat with (2 * 128)%nat in H1.
  rewrite (hash_pairs_hash_layer 128 _ H1).
  pose proof (hash_layer_length 128 _ H1) as H2. change 128%nat with (2 * 64)%nat in H2.
  rewrite (hash_pairs_hash_layer 64 _ H2).
  pose proof (hash_layer_length 64 _ H2) as H3. change 64%nat with (2 * 32)%nat in H3.
  rewrite (hash_pairs_hash_layer 32 _ H3).
  pose proof (hash_layer_length 32 _ H3) as H4. change 32%nat with (2 * 16)%nat in H4.
  rewrite (hash_pairs_hash_layer 16 _ H4).
  pose proof (hash_layer_length 16 _ H4) as H5. change 16%nat with (2 * 8)%nat in H5.
  rewrite (hash_pairs_hash_layer 8 _ H5).
  pose proof (hash_layer_length 8 _ H5) as H6. change 8%nat with (2 * 4)%nat in H6.
  rewrite (hash_pairs_hash_layer 4 _ H6).
  pose proof (hash_layer_length 4 _ H6) as H7. change 4%nat with (2 * 2)%nat in H7.
  rewrite (hash_pairs_hash_layer 2 _ H7).
  pose proof (hash_layer_length 2 _ H7) as H8.
  unfold LightClient.sync_committee_root. cbn [merkle_root].
  fold leaves.
  set (level8 := hash_layer (hash_layer (hash_layer (hash_layer (hash_layer (hash_layer
                   (hash_layer (hash_layer leaves)))))))) in *.
  destruct level8 as [|l [|r [|? ?]]]; try discriminate H8.
  cbn [nth hash_layer layer_inputs map hd]. reflexivity.
Qed.

(** *** [_pubKeysHash] *)

Lemma store_length (region : list Z) (off : Z) (w : Z) :
  (Z.to_nat off <= length region)%nat ->
  length (evm.store region off w) = length region.
Proof.
  intros Hoff. unfold evm.store.
  rewrite !length_app, !length_firstn, length_skipn, be_bytes_length. lia.
Qed.

(** A word whose bytes are [hi ++ repeat 0 16], stored at [off]: the region
    up to [off + 16] is the region up to [off] followed by [hi]. *)
Lemma store_high_half (region hi : list Z) (off : Z) (w : Z) :
  evm.bytes32 w = hi ++ repeat 0 16 -> length hi = 16%nat ->
  (Z.to_nat off + 16 <= length region)%nat ->
  firstn (Z.to_nat off + 16) (evm.store region off w) = firstn (Z.to_nat off) region ++ hi.
Proof.
  intros Hw Hhi Hoff. unfold evm.store. unfold evm.bytes32 in Hw. rewrite Hw.
  rewrite firstn_app, length_firstn, Nat.min_l by lia.
  rewrite firstn_all2 by (rewrite length_firstn; lia).
  f_equal. replace (Z.to_nat off + 16 - Z.to_nat off)%nat with 16%nat by lia.
  rewrite firstn_app, length_firstn, length_app, Hhi, repeat_length.
  rewrite firstn_firstn.
  replace (Nat.min 16 (length region - Z.to_nat off)) with 16%nat by lia.
  rewrite firstn_app, Hhi, Nat.sub_diag, firstn_O, app_nil_r.
  rewrite firstn_all2 by lia.
  replace (16 - Nat.min (length region - Z.to_nat off) (16 + 16))%nat with 0%nat by lia.
  rewrite firstn_O, app_nil_r. reflexivity.
Qed.

Lemma firstn_succ_nth {A} (l : list A) (d : A) (j : nat) :
  (j < length l)%nat -> firstn (S j) l = firstn j l ++ [nth j l d].
Proof.
  revert j. induction l as [|x l IH]; intros j Hj; [simpl in Hj; lia|].
  destruct j as [|j]; [reflexivity|].
  cbn [firstn nth app]. f_equal. apply IH. simpl in Hj. lia.
Qed.

(** Bytes [32..48) of the [i]-th key, as the calldata holds them. *)
Lemma key_low_half_in_data (pubkeys : list (list Z)) (rest : list Z) (i : nat) :
  Forall (fun k => length k = 48%nat) pubkeys ->
  (i < length pubkeys)%nat ->
  firstn 16 (skipn (48 * i + 32) (concat pubkeys ++ rest)) = skipn 32 (nth i pubkeys []).
Proof.
  intros Hks Hi.
  assert (Hk : length (nth i pubkeys []) = 48%nat).
  { rewrite Forall_nth in Hks. apply Hks. exact Hi. }
  replace (48 * i + 32)%nat with (32 + 48 * i)%nat by lia.
  rewrite <- skipn_skipn, (skipn_concat_keys pubkeys rest i Hks Hi).
  rewrite skipn_app, firstn_app, length_skipn, Hk.
  replace (32 - 48)%nat with 0%nat by lia. rewrite skipn_O.
  rewrite firstn_all2 by (rewrite length_skipn; lia).
  replace (16 - (48 - 32))%nat with 0%nat by lia. rewrite firstn_O, app_nil_r. reflexivity.
Qed.

(** The loop of [_pubKeysHash] after [j] iterations. *)
Lemma pubKeysHash_loop (pubkeys : list (list Z)) (rest mem0 : list Z) (j : nat) :
  Forall (fun k => length k = 48%nat) pubkeys ->
  Forall is_byte (concat pubkeys ++ rest) ->
  (j <= length pubkeys)%nat -> (16 * length pubkeys <= length mem0)%nat ->
  let mem :=
    fold_left
      (fun mem i =>
         evm.store mem (i * 16)
           (evm.shl 128 (evm.shr 128 (evm.load (concat pubkeys ++ rest) (i * 48 + 32)))))
      (map Z.of_nat (seq 0 j)) mem0 in
  length mem = length mem0
  /\ firstn (16 * j) mem = concat (map (skipn 32) (firstn j pubkeys)).
Proof.
  intros Hks Hdata Hj Hmem0. cbv zeta. induction j as [|j IH].
  - cbn [seq map fold_left]. rewrite Nat.mul_0_r. split; reflexivity.
  - rewrite seq_S, map_app, fold_left_app. cbn [map fold_left Nat.add].
    destruct (IH ltac:(lia)) as [IHlen IHpre]. set (mem := fold_left _ _ mem0) in *.
    assert (Hclen : length (concat pubkeys) = (48 * length pubkeys)%nat)
      by (apply concat_keys_length; exact Hks).
    destruct (bytes32_load_high (concat pubkeys ++ rest) (Z.of_nat j * 48 + 32) Hdata
                ltac:(lia) ltac:(rewrite length_app; lia)) as [_ Hword].
    replace (Z.to_nat (Z.of_nat j * 48 + 32)) with (48 * j + 32)%nat in Hword by lia.
    rewrite (key_low_half_in_data pubkeys rest j Hks) in Hword by lia.
    assert (Hk : length (nth j pubkeys []) = 48%nat).
    { rewrite Forall_nth in Hks. apply Hks. lia. }
    split.
    + rewrite store_length by lia. exact IHlen.
    + replace (16 * S j)%nat with (Z.to_nat (Z.of_nat j * 16) + 16)%nat by lia.
      rewrite (store_high_half mem _ _ _ Hword) by (rewrite ?length_skipn; lia).
      replace (Z.to_nat (Z.of_nat j * 16)) with (16 * j)%nat by lia.
      rewrite IHpre, (firstn_succ_nth pubkeys [] j) by lia.
      rewrite map_app, concat_app. cbn [map concat]. rewrite app_nil_r. reflexivity.
Qed.

(** [_pubKeysHash] on data that starts with 512 keys. *)
Lemma pubKeysHash_keys (pubkeys : list (list Z)) (rest calldata_after memory_after : list Z) :
  length pubkeys = 512%nat ->
  Forall (fun k => length k = 48%nat) pubkeys ->
  Forall (Forall is_byte) pubkeys ->
  Forall is_byte rest -> Forall is_byte calldata_after ->
  LightClient._pubKeysHash (concat pubkeys ++ rest) calldata_after memory_after
  = Some (sha256 (concat (map (skipn 32) pubkeys))).
Proof.
  intros Hn Hks Hbytes Hrest Hafter. unfold LightClient._pubKeysHash.
  pose proof (concat_keys_length pubkeys Hks) as Hclen. rewrite Hn in Hclen.
  replace (512 <=? Z.of_nat (length (concat pubkeys ++ rest))) with true
    by (symmetry; apply Z.leb_le; rewrite length_app; lia).
  cbn [negb]. cbv zeta. rewrite <- app_assoc.
  change (Z.to_nat 512) with 512%nat. change (Z.to_nat (512 * 16)) with (16 * 512)%nat.
  rewrite <- Hn.
  assert (Hdata : Forall is_byte (concat pubkeys ++ rest ++ calldata_after)).
  { repeat (apply Forall_app; split); try assumption. apply Forall_concat. exact Hbytes. }
  destruct (pubKeysHash_loop pubkeys (rest ++ calldata_after)
              (repeat 0 (16 * length pubkeys) ++ memory_after) (length pubkeys)
              Hks Hdata ltac:(lia) ltac:(rewrite length_app, repeat_length; lia))
    as [_ Hpre].
  cbv zeta in Hpre. rewrite Hpre, firstn_all. reflexivity.
Qed.

Lemma map_skipn_Bytes (keys : list bls12381.G1Affine) :
  concat (map (skipn 32) (map (fun k => bls12381.Bytes (bls12381.X k)) keys))
  = concat (map (fun k => truncation_low (bls12381.X k)) keys).
Proof.
  rewrite map_map. f_equal. apply map_ext. intros k. apply skipn_32_Bytes.
Qed.

(** *** [updateSyncCommittee] *)

(** The public input: the stored commitment followed by the root. *)
Lemma input_layout (curr root : list Z) :
  length curr = 32%nat -> length root = 32%nat ->
  fold_left (fun (input : list Z) (i : nat) => <[(i + 32)%nat := nth i root 0]> input)
    (seq 0 32)
    (fold_left (fun (input : list Z) (i : nat) => <[i := nth i curr 0]> input)
       (seq 0 32) (repeat 0 64))
  = curr ++ root.
Proof.
  intros Hc Hr.
  do 33 (destruct curr as [|? curr]; try discriminate Hc).
  do 33 (destruct root as [|? root]; try discriminate Hr).
  reflexivity.
Qed.

Lemma sync_committee_root_length (pubkeys : list (list Z)) (aggregate_pubkey : list Z) :
  length (LightClient.sync_committee_root pubkeys aggregate_pubkey) = 32%nat.
Proof.
  unfold LightClient.sync_committee_root. cbn [merkle_root hash_layer layer_inputs map hd].
  apply sha256_length.
Qed.

Lemma Forall_repeat_intro {A} (P : A -> Prop) (x : A) (n : nat) : P x -> Forall P (repeat x n).
Proof. intros Hx. induction n; constructor; assumption. Qed.

Lemma Bytes_keys_length (keys : list bls12381.G1Affine) :
  Forall (fun k => length k = 48%nat) (map (fun k => bls12381.Bytes (bls12381.X k)) keys).
Proof.
  apply List.Forall_forall. intros b Hb. apply in_map_iff in Hb as (k & <- & _).
  apply be_bytes_length.
Qed.

Lemma Bytes_keys_bytes (keys : list bls12381.G1Affine) :
  Forall (Forall is_byte) (map (fun k => bls12381.Bytes (bls12381.X k)) keys).
Proof.
  apply List.Forall_forall. intros b Hb. apply in_map_iff in Hb as (k & <- & _).
  apply be_bytes_is_byte.
Qed.

(** [_pubKeysHash] on the serialization of the keys the host hashes. *)
Lemma pubKeysHash_host (keys : list bls12381.G1Affine)
    (rest calldata_after memory_after : list Z) :
  length keys = 512%nat -> Forall is_byte rest -> Forall is_byte calldata_after ->
  LightClient._pubKeysHash
    (LightClient.serialize (map (fun k => bls12381.Bytes (bls12381.X k)) keys) rest)
    calldata_after memory_after
  = Some (ComputeScPubKeysHash keys).
Proof.
  intros Hn Hrest Hafter. unfold LightClient.serialize.
  rewrite pubKeysHash_keys;
    [| rewrite length_map; exact Hn | apply Bytes_keys_length | apply Bytes_keys_bytes
     | exact Hrest | exact Hafter].
  rewrite map_skipn_Bytes, ComputeScPubKeysHash_commitment. reflexivity.
Qed.

(** [updateSyncCommittee] on a well-formed committee. *)
Lemma updateSyncCommittee_serialize
    (verifyProof : list Z -> list Z -> list Z -> list Z -> bool)
    (s : LightClient.storage) (proof commitments commitmentPok : list Z) (slot : Z)
    (keys : list bls12381.G1Affine) (aggregate_pubkey : list Z)
    (around : LightClient.surroundings) :
  0 <= slot < 2 ^ 256 ->
  length keys = 512%nat ->
  length aggregate_pubkey = 48%nat -> Forall is_byte aggregate_pubkey ->
  Forall is_byte (LightClient.calldata_after around) ->
  Forall is_byte (LightClient.memory_after_data around) ->
  length (LightClient.scPubkeysHashes_at s (LightClient.lastPeriod s)) = 32%nat ->
  let pubkeys := map (fun k => bls12381.Bytes (bls12381.X k)) keys in
  LightClient.updateSyncCommittee verifyProof s proof commitments commitmentPok slot
    (LightClient.serialize pubkeys aggregate_pubkey) around
  = if (slot / 8192 =? LightClient.lastPeriod s)
       && verifyProof proof commitments commitmentPok
            (LightClient.scPubkeysHashes_at s (LightClient.lastPeriod s)
             ++ LightClient.sync_committee_root pubkeys aggregate_pubkey)
    then Some (LightClient.mkStorage (LightClient.lastPeriod s + 1)
                 (<[LightClient.lastPeriod s + 1 := ComputeScPubKeysHash keys]>
                    (LightClient.scPubkeysHashes s)))
    else None.
Proof.
  intros Hslot Hn Hagg Haggb Hca Hma Hcurr pubkeys.
  unfold LightClient.updateSyncCommittee.
  assert (Hlen : Z.of_nat (length (LightClient.serialize pubkeys aggregate_pubkey)) = 24624).
  { unfold LightClient.serialize.
    rewrite length_app, (concat_keys_length pubkeys (Bytes_keys_length keys)).
    unfold pubkeys. rewrite length_map, Hn, Hagg. reflexivity. }
  rewrite Hlen. change (24624 =? 24624) with true. cbn [negb].
  change (LightClient.SLOTS_PER_EPOCH * LightClient.EPOCHS_PER_SYNC_COMMITTEE_PERIOD)
    with 8192.
  destruct (Z.eqb_spec (slot / 8192) (LightClient.lastPeriod s)) as [Hp|Hp];
    cbn [negb andb]; [|reflexivity].
  rewrite scRoot_serialize;
    [| unfold pubkeys; rewrite length_map; exact Hn | apply Bytes_keys_length
     | apply Bytes_keys_bytes | exact Hagg | exact Haggb | exact Hma].
  cbn [mbind option_bind].
  rewrite input_layout by (try exact Hcurr; apply sync_committee_root_length).
  destruct (verifyProof _ _ _ _); cbn [negb]; [|reflexivity].
  assert (Hperiod : 0 <= slot / 8192 < 2 ^ 243).
  { split; [apply Z.div_pos; lia|]. apply Z.div_lt_upper_bound; [lia|].
    change (8192 * 2 ^ 243) with (2 ^ 256). lia. }
  replace (2 ^ 256 <=? slot / 8192 + 1) with false
    by (symmetry; apply Z.leb_gt; assert (2 ^ 243 < 2 ^ 256) by (vm_compute; reflexivity); lia).
  subst pubkeys. rewrite pubKeysHash_host by assumption.
  cbn [mbind option_bind]. rewrite Hp. reflexivity.
Qed.

Lemma updateSyncCommittee_Some_inv
    (verifyProof : list Z -> list Z -> list Z -> list Z -> bool)
    (s s' : LightClient.storage) (proof commitments commitmentPok : list Z) (slot : Z)
    (nextSc : list Z) (around : LightClient.surroundings) :
  LightClient.updateSyncCommittee verifyProof s proof commitments commitmentPok slot
    nextSc around = Some s' ->
  slot / (LightClient.SLOTS_PER_EPOCH * LightClient.EPOCHS_PER_SYNC_COMMITTEE_PERIOD)
  = LightClient.lastPeriod s
  /\ exists h,
       LightClient._pubKeysHash nextSc (LightClient.calldata_after around)
         (LightClient.memory_after_limbs around) = Some h
       /\ s' = LightClient.mkStorage (LightClient.lastPeriod s + 1)
                 (<[LightClient.lastPeriod s + 1 := h]> (LightClient.scPubkeysHashes s)).
Proof.
  unfold LightClient.updateSyncCommittee.
  destruct (Z.of_nat (length nextSc) =? 24624); cbn [negb]; [|discriminate].
  destruct (Z.eqb_spec
              (slot / (LightClient.SLOTS_PER_EPOCH * LightClient.EPOCHS_PER_SYNC_COMMITTEE_PERIOD))
              (LightClient.lastPeriod s)) as [Hp|Hp]; cbn [negb]; [|discriminate].
  destruct (LightClient._scRoot nextSc _) as [root|]; cbn [mbind option_bind]; [|discriminate].
  destruct (verifyProof _ _ _ _); cbn [negb]; [|discriminate].
  destruct (2 ^ 256 <=? _); [discriminate|].
  destruct (LightClient._pubKeysHash nextSc _ _) as [h|]; cbn [mbind option_bind];
    [|discriminate].
  intros H. apply Some_eq in H. subst s'. split; [exact Hp|].
  exists h. rewrite Hp. split; reflexivity.
Qed.

Lemma updates_lastPeriod_le
    (verifyProof : list Z -> list Z -> list Z -> list Z -> bool)
    (s s' : LightClient.storage) :
  LightClient.updates verifyProof s s' -> LightClient.lastPeriod s <= LightClient.lastPeriod s'.
Proof.
  induction 1 as [|s' s'' proof commitments commitmentPok slot nextSc around _ IH Hcall];
    [lia|].
  apply updateSyncCommittee_Some_inv in Hcall as (_ & h & _ & ->). cbn. lia.
Qed.

Lemma updates_keeps
    (verifyProof : list Z -> list Z -> list Z -> list Z -> bool)
    (s s' : LightClient.storage) (period : Z) :
  LightClient.updates verifyProof s s' -> period <= LightClient.lastPeriod s ->
  LightClient.scPubkeysHashes s' !! period = LightClient.scPubkeysHashes s !! period.
Proof.
  intros Hup Hp.
  induction Hup as [|s' s'' proof commitments commitmentPok slot nextSc around Hup IH Hcall];
    [reflexivity|].
  pose proof (updates_lastPeriod_le _ _ _ Hup) as Hle.
  apply updateSyncCommittee_Some_inv in Hcall as (_ & h & _ & ->).
  cbn [LightClient.scPubkeysHashes]. rewrite lookup_insert_ne by lia. exact IH.
Qed.

Lemma updates_unset
    (verifyProof : list Z -> list Z -> list Z -> list Z -> bool)
    (s s' : LightClient.storage) (period : Z) :
  LightClient.updates verifyProof s s' -> LightClient.lastPeriod s' < period ->
  LightClient.scPubkeysHashes s' !! period = LightClient.scPubkeysHashes s !! period.
Proof.
  intros Hup. revert period.
  induction Hup as [|s' s'' proof commitments commitmentPok slot nextSc around Hup IH Hcall];
    intros period Hp; [reflexivity|].
  apply updateSyncCommittee_Some_inv in Hcall as (_ & h & _ & ->).
  cbn [LightClient.scPubkeysHashes LightClient.lastPeriod] in *.
  rewrite lookup_insert_ne by lia. apply IH. lia.
Qed.

Lemma sample_call :
  LightClient.updateSyncCommittee acceptAll sampleStorage [] [] [] 0 sampleNextSc sampleAround
  = Some sampleStorage'.
Proof.
  unfold sampleNextSc, samplePubkeys.
  rewrite updateSyncCommittee_serialize;
    try reflexivity; try lia; try (apply Forall_repeat_intro; unfold is_byte; lia);
    try constructor.
Qed.

(* ===================================================================== *)
(** ** Contract [LightClient]: the properties *)
(* ===================================================================== *)

(** [_scRoot] computes the SSZ hash-tree-root of the sync committee: on the
    serialization of 512 keys and an aggregate key of 48 bytes each, it
    returns the root of the container whose two fields are the vector of
    the keys (a tree of depth 9 over the roots of the keys) and the
    aggregate key, each key packed into two chunks; the memory that follows
    the data, which the assembly also reads, has no influence. *)
Theorem _scRoot_hash_tree_root
    (pubkeys : list (list Z)) (aggregate_pubkey memory_after : list Z) :
  length pubkeys = 512%nat ->
  Forall (fun k => length k = 48%nat) pubkeys ->
  Forall (Forall is_byte) pubkeys ->
  length aggregate_pubkey = 48%nat ->
  Forall is_byte aggregate_pubkey ->
  Forall is_byte memory_after ->
  LightClient._scRoot (LightClient.serialize pubkeys aggregate_pubkey) memory_after
  = Some (LightClient.sync_committee_root pubkeys aggregate_pubkey).
Proof. apply scRoot_serialize. Qed.

Lemma _scRoot_hash_tree_root_witness :
  LightClient._scRoot (LightClient.serialize samplePubkeys (repeat 0 48)) []
  = Some (LightClient.sync_committee_root samplePubkeys (repeat 0 48)).
Proof.
  apply (_scRoot_hash_tree_root samplePubkeys (repeat 0 48) []).
  - reflexivity.
  - apply Bytes_keys_length.
  - apply Bytes_keys_bytes.
  - reflexivity.
  - apply Forall_repeat_intro. unfold is_byte. lia.
  - constructor.
Defined.

(** [_pubKeysHash] of the contract and [ComputeScPubKeysHash] of the host
    agree: on calldata that starts with the 48-byte encodings of 512 keys,
    the contract returns the hash the host computes from the keys, whatever
    follows the keys, in the argument, in the calldata and in memory. *)
Theorem _pubKeysHash_ComputeScPubKeysHash (keys : list bls12381.G1Affine)
    (rest calldata_after memory_after : list Z) :
  length keys = 512%nat -> Forall is_byte rest -> Forall is_byte calldata_after ->
  LightClient._pubKeysHash
    (LightClient.serialize (map (fun k => bls12381.Bytes (bls12381.X k)) keys) rest)
    calldata_after memory_after
  = Some (ComputeScPubKeysHash keys).
Proof. apply pubKeysHash_host. Qed.

Lemma _pubKeysHash_ComputeScPubKeysHash_witness :
  LightClient._pubKeysHash
    (LightClient.serialize (map (fun k => bls12381.Bytes (bls12381.X k)) sampleKeys)
       (repeat 0 48)) [1; 2; 3] [4; 5]
  = Some (ComputeScPubKeysHash sampleKeys).
Proof.
  apply (_pubKeysHash_ComputeScPubKeysHash sampleKeys (repeat 0 48) [1; 2; 3] [4; 5]).
  - reflexivity.
  - apply Forall_repeat_intro. unfold is_byte. lia.
  - repeat constructor; unfold is_byte; lia.
Defined.

(** [updateSyncCommittee] on the serialization of a committee of 512 keys:
    the call succeeds exactly when the slot lies in the period
    [lastPeriod] and the verifier accepts the proof for the public input
    made of the stored commitment of that period followed by the
    hash-tree-root of the committee; it then advances [lastPeriod] by one
    and stores, for the new period, the commitment the host computes from
    the keys. *)
Theorem updateSyncCommittee_committee
    (verifyProof : list Z -> list Z -> list Z -> list Z -> bool)
    (s : LightClient.storage) (proof commitments commitmentPok : list Z) (slot : Z)
    (keys : list bls12381.G1Affine) (aggregate_pubkey : list Z)
    (around : LightClient.surroundings) :
  0 <= slot < 2 ^ 256 ->
  length keys = 512%nat ->
  length aggregate_pubkey = 48%nat -> Forall is_byte aggregate_pubkey ->
  Forall is_byte (LightClient.calldata_after around) ->
  Forall is_byte (LightClient.memory_after_data around) ->
  length (LightClient.scPubkeysHashes_at s (LightClient.lastPeriod s)) = 32%nat ->
  let pubkeys := map (fun k => bls12381.Bytes (bls12381.X k)) keys in
  LightClient.updateSyncCommittee verifyProof s proof commitments commitmentPok slot
    (LightClient.serialize pubkeys aggregate_pubkey) around
  = if (slot / 8192 =? LightClient.lastPeriod s)
       && verifyProof proof commitments commitmentPok
            (LightClient.scPubkeysHashes_at s (LightClient.lastPeriod s)
             ++ LightClient.sync_committee_root pubkeys aggregate_pubkey)
    then Some (LightClient.mkStorage (LightClient.lastPeriod s + 1)
                 (<[LightClient.lastPeriod s + 1 := ComputeScPubKeysHash keys]>
                    (LightClient.scPubkeysHashes s)))
    else None.
Proof. apply updateSyncCommittee_serialize. Qed.

Lemma updateSyncCommittee_committee_witness :
  LightClient.updateSyncCommittee acceptAll sampleStorage [] [] [] 8191
    (LightClient.serialize samplePubkeys (repeat 0 48)) sampleAround
  = Some sampleStorage'.
Proof.
  apply (updateSyncCommittee_committee acceptAll sampleStorage [] [] [] 8191 sampleKeys
           (repeat 0 48) sampleAround).
  - lia.
  - reflexivity.
  - reflexivity.
  - apply Forall_repeat_intro. unfold is_byte. lia.
  - constructor.
  - constructor.
  - reflexivity.
Defined.

(** No replay: once a call of [updateSyncCommittee] for a slot has
    succeeded, no later call for a slot of the same or of an earlier period
    succeeds, whatever its other arguments and however many updates were
    accepted in between. *)
Theorem updateSyncCommittee_no_replay
    (verifyProof : list Z -> list Z -> list Z -> list Z -> bool)
    (s1 s2 s3 : LightClient.storage)
    (proof commitments commitmentPok : list Z) (slot : Z) (nextSc : list Z)
    (around : LightClient.surroundings)
    (proof' commitments' commitmentPok' : list Z) (slot' : Z) (nextSc' : list Z)
    (around' : LightClient.surroundings) :
  LightClient.updateSyncCommittee verifyProof s1 proof commitments commitmentPok slot
    nextSc around = Some s2 ->
  LightClient.updates verifyProof s2 s3 ->
  slot' / 8192 <= slot / 8192 ->
  LightClient.updateSyncCommittee verifyProof s3 proof' commitments' commitmentPok' slot'
    nextSc' around' = None.
Proof.
  intros Hcall Hup Hslot.
  apply updateSyncCommittee_Some_inv in Hcall as (Hp & h & _ & ->).
  apply updates_lastPeriod_le in Hup. cbn [LightClient.lastPeriod] in Hup.
  change (LightClient.SLOTS_PER_EPOCH * LightClient.EPOCHS_PER_SYNC_COMMITTEE_PERIOD)
    with 8192 in Hp.
  destruct (LightClient.updateSyncCommittee verifyProof s3 proof' commitments' commitmentPok'
              slot' nextSc' around') as [s4|] eqn:Hcall'; [|reflexivity].
  apply updateSyncCommittee_Some_inv in Hcall' as (Hp' & _).
  change (LightClient.SLOTS_PER_EPOCH * LightClient.EPOCHS_PER_SYNC_COMMITTEE_PERIOD)
    with 8192 in Hp'.
  lia.
Qed.

Lemma updateSyncCommittee_no_replay_witness :
  LightClient.updateSyncCommittee acceptAll sampleStorage' [] [] [] 0 sampleNextSc sampleAround
  = None.
Proof.
  apply (updateSyncCommittee_no_replay acceptAll sampleStorage sampleStorage' sampleStorage'
           [] [] [] 0 sampleNextSc sampleAround).
  - exact sample_call.
  - apply LightClient.updates_none.
  - reflexivity.
Defined.

(** The history of the contract: in every state reached from the
    constructor by accepted updates, [lastPeriod] is not below the initial
    period, the commitment of the initial period is still the one the
    constructor stored, and the periods before the initial one or after
    [lastPeriod] have no commitment (they read as zero). *)
Theorem LightClient_history
    (verifyProof : list Z -> list Z -> list Z -> list Z -> bool)
    (_initialPeriod : Z) (_initialScPubkeysHash : list Z) (s : LightClient.storage) :
  LightClient.updates verifyProof
    (LightClient.constructor _initialPeriod _initialScPubkeysHash) s ->
  _initialPeriod <= LightClient.lastPeriod s
  /\ LightClient.scPubkeysHashes_at s _initialPeriod = _initialScPubkeysHash
  /\ forall period, period < _initialPeriod \/ LightClient.lastPeriod s < period ->
       LightClient.scPubkeysHashes_at s period = repeat 0 32.
Proof.
  intros Hup. pose proof (updates_lastPeriod_le _ _ _ Hup) as Hle.
  cbn [LightClient.constructor LightClient.lastPeriod] in Hle.
  split; [exact Hle|]. split.
  - unfold LightClient.scPubkeysHashes_at.
    rewrite (updates_keeps _ _ _ _initialPeriod Hup) by (cbn; lia).
    cbn [LightClient.constructor LightClient.scPubkeysHashes].
    rewrite lookup_insert_eq. reflexivity.
  - intros period [Hp|Hp]; unfold LightClient.scPubkeysHashes_at.
    + rewrite (updates_keeps _ _ _ period Hup) by (cbn; lia).
      cbn [LightClient.constructor LightClient.scPubkeysHashes].
      rewrite lookup_insert_ne by lia. reflexivity.
    + rewrite (updates_unset _ _ _ period Hup) by exact Hp.
      cbn [LightClient.constructor LightClient.scPubkeysHashes].
      rewrite lookup_insert_ne by lia. reflexivity.
Qed.

Lemma LightClient_history_witness :
  0 <= LightClient.lastPeriod sampleStorage'
  /\ LightClient.scPubkeysHashes_at sampleStorage' 0 = repeat 0 32
  /\ forall period, period < 0 \/ LightClient.lastPeriod sampleStorage' < period ->
       LightClient.scPubkeysHashes_at sampleStorage' period = repeat 0 32.
Proof.
  apply (LightClient_history acceptAll 0 (repeat 0 32) sampleStorage').
  apply (LightClient.updates_call acceptAll _ sampleStorage sampleStorage'
           [] [] [] 0 sampleNextSc sampleAround).
  - apply LightClient.updates_none.
  - exact sample_call.
Defined.

(* ===================================================================== *)
(** ** hash_to_field (hashToFieldBLS12381Fp2) *)
(* ===================================================================== *)

Lemma dstBytes_length : length dstBytes = 43%nat.
Proof. reflexivity. Qed.

Lemma bytesToBLS12381FpMod_ValueOf (b : list Z) :
  bytesToBLS12381FpMod b = fp.ValueOf (OS2IP b mod fp.Modulus).
Proof.
  unfold bytesToBLS12381FpMod. cbv zeta. rewrite nbLimbs_Modulus.
  unfold fp.Reduce. rewrite (horner_fold b fp.Zero 0).
  - rewrite Z.mod_mod by (pose proof Modulus_bounds; lia). reflexivity.
  - unfold fp.Zero. rewrite value_ValueOf by (split; reflexivity). reflexivity.
Qed.

(** The 256 uniform bytes of the signing root. *)
Lemma expandMessageXMD_SHA256_256 (msg : list Z) :
  let dstPrime := dstBytes ++ [uint8 (Z.of_nat (length dstBytes))] in
  let b0 := RFC9380.b_0 msg dstPrime 256 in
  let uniform := concat (map (RFC9380.b_ b0 dstPrime) (seq 1 8)) in
  expandMessageXMD_SHA256 msg dstBytes 256 = Ok uniform
  /\ RFC9380.expand_message_xmd msg dstBytes 256 = Some uniform
  /\ length uniform = 256%nat.
Proof.
  intros dstPrime b0 uniform.
  assert (Hlen : length uniform = 256%nat) by (unfold uniform; apply uniform_length).
  split; [|split]; [| |exact Hlen].
  - unfold expandMessageXMD_SHA256. cbv zeta.
    change ((256 <=? 0) || (255 * 32 <? 256)) with false. cbv iota.
    change ((256 + 32 - 1) / 32) with 8. change (Z.to_nat 8 - 1)%nat with 7%nat.
    fold dstPrime. rewrite lIB_I2OSP.
    change (sha256 (repeat 0 64 ++ msg ++ be_bytes 2 256 ++ [0] ++ dstPrime)) with b0.
    pose proof (xmd_loop b0 dstPrime 7 (sha256_length _)) as Hloop.
    cbv zeta in Hloop. rewrite Hloop. cbn [mbind result_bind rbind].
    fold uniform. rewrite firstn_all2 by (rewrite Hlen; apply Nat.eq_le_incl; reflexivity).
    reflexivity.
  - unfold RFC9380.expand_message_xmd, RFC9380.b_in_bytes. cbv zeta.
    rewrite dstBytes_length.
    change ((256 + 32 - 1) / 32) with 8.
    change ((255 <? 8) || (65535 <? 256) || (255 <? Z.of_nat 43)) with false. cbv iota.
    change (RFC9380.I2OSP (Z.of_nat 43) 1) with (Some [uint8 (Z.of_nat 43)]).
    cbn [mbind option_bind]. rewrite <- dstBytes_length. fold dstPrime. fold b0.
    change (Z.to_nat 8) with 8%nat. fold uniform.
    rewrite firstn_all2 by (rewrite Hlen; apply Nat.eq_le_incl; reflexivity).
    reflexivity.
Qed.

(* ===================================================================== *)
(** ** The relayer, the circuit and the contract *)
(* ===================================================================== *)

Section Compose.

Context `{Fetcher} `{Backend}.

(** The loop of [storePubkeys] over the first [n] indices. *)
Lemma storePubkeys_prefix (n : nat) (pubkeys : list (list Z))
    (cur keys : list bls12381.G1Affine) :
  (n <= length cur)%nat ->
  fold_left
    (fun (st : outcome (list bls12381.G1Affine)) (i : nat) =>
       cur ← st;
       match pubkeys !! i with
       | None => Panicked "index out of range"
       | Some pubkeyBytes =>
         match G1_SetBytes pubkeyBytes with
         | Err e => Failed ("failed to parse pubkey: " +:+ e)
         | Ok P => Done (<[i := P]> cur)
         end
       end)
    (seq 0 n) (Done cur) = Done keys ->
  length keys = length cur
  /\ (forall i, (i < n)%nat ->
        exists b, pubkeys !! i = Some b
                  /\ G1_SetBytes b = Ok (nth i keys bls12381.infinity))
  /\ (forall i, (n <= i)%nat ->
        nth i keys bls12381.infinity = nth i cur bls12381.infinity).
Proof.
  revert keys. induction n as [|n IH]; intros keys Hn Hfold.
  - cbn [seq fold_left] in Hfold. assert (keys = cur) by congruence. subst keys.
    split; [reflexivity|]. split; [intros i Hi; lia | reflexivity].
  - rewrite seq_S, fold_left_app in Hfold. cbn [fold_left Nat.add] in Hfold.
    destruct (fold_left _ (seq 0 n) (Done cur)) as [cur_n|e|e] eqn:Hprev;
      cbn [mbind outcome_bind] in Hfold; try discriminate Hfold.
    destruct (IH cur_n ltac:(lia) eq_refl) as (Hlen & Hdone & Hrest).
    destruct (pubkeys !! n) as [b|] eqn:Hb; [|discriminate Hfold].
    destruct (G1_SetBytes b) as [P|e] eqn:HP; [|discriminate Hfold].
    assert (Hkeys : keys = <[n := P]> cur_n) by congruence. subst keys.
    split; [rewrite length_insert; exact Hlen|]. split.
    + intros i Hi. destruct (Nat.eq_dec i n) as [->|Hne].
      * exists b. split; [exact Hb|]. rewrite HP. f_equal.
        rewrite nth_lookup, list_lookup_insert_eq by lia. reflexivity.
      * destruct (Hdone i ltac:(lia)) as (b' & Hb' & HP'). exists b'.
        split; [exact Hb'|]. rewrite HP'. f_equal.
        rewrite !nth_lookup, list_lookup_insert_ne by lia. reflexivity.
    + intros i Hi. rewrite <- (Hrest i) by lia.
      rewrite !nth_lookup, list_lookup_insert_ne by lia. reflexivity.
Qed.

Lemma storePubkeys_Done (pubkeys : list (list Z)) (cur keys : list bls12381.G1Affine) :
  length cur = 512%nat ->
  storePubkeys pubkeys cur = Done keys ->
  length keys = 512%nat
  /\ forall i, (i < 512)%nat ->
       exists b, pubkeys !! i = Some b
                 /\ G1_SetBytes b = Ok (nth i keys bls12381.infinity).
Proof.
  intros Hcur Hstore. unfold storePubkeys in Hstore.
  destruct (storePubkeys_prefix 512 pubkeys cur keys ltac:(lia) Hstore) as (Hlen & Hdone & _).
  split; [congruence | exact Hdone].
Qed.

(** The commitment of stored keys, from the bytes they were read from. *)
Lemma stored_keys_commitment (pubkeys : list (list Z)) (cur keys : list bls12381.G1Affine) :
  (forall b P, Forall is_byte b -> G1_SetBytes b = Ok P ->
               skipn 32 (bls12381.Bytes (bls12381.X P)) = skipn 32 b) ->
  length cur = 512%nat -> length pubkeys = 512%nat ->
  Forall (Forall is_byte) pubkeys ->
  storePubkeys pubkeys cur = Done keys ->
  ComputeScPubKeysHash keys = sha256 (concat (map (skipn 32) pubkeys)).
Proof.
  intros Hdec Hcur Hn Hbytes Hstore.
  destruct (storePubkeys_Done pubkeys cur keys Hcur Hstore) as (Hlen & Hdone).
  rewrite ComputeScPubKeysHash_commitment. unfold commitment. f_equal. f_equal.
  apply (nth_ext _ _ [] []).
  - rewrite !length_map. congruence.
  - intros i Hi. rewrite length_map, Hlen in Hi.
    rewrite (nth_indep _ [] (truncation_low (bls12381.X bls12381.infinity)))
      by (rewrite length_map; lia).
    rewrite (map_nth (fun k => truncation_low (bls12381.X k))).
    rewrite (nth_indep _ [] (skipn 32 [])) by (rewrite length_map; lia).
    rewrite (map_nth (skipn 32)).
    destruct (Hdone i Hi) as (b & Hb & HP).
    assert (Hbb : Forall is_byte b).
    { rewrite List.Forall_forall in Hbytes. apply Hbytes.
      apply list_elem_of_In. apply (list_elem_of_lookup_2 _ i). exact Hb. }
    rewrite <- skipn_32_Bytes, (Hdec _ _ Hbb HP). f_equal.
    rewrite nth_lookup, Hb. reflexivity.
Qed.




End Compose.

Lemma decodingBackend_low_bytes (b : list Z) (P : bls12381.G1Affine) :
  Forall is_byte b -> @G1_SetBytes decodingBackend b = Ok P ->
  skipn 32 (bls12381.Bytes (bls12381.X P)) = skipn 32 b.
Proof.
  intros Hb. cbn [G1_SetBytes decodingBackend].
  destruct (Nat.eqb_spec (length b) 48) as [Hlen|]; [|discriminate].
  intros HP. assert (P = bls12381.mkG1 (OS2IP b mod 2 ^ 381) 0) by congruence. subst P.
  cbn [bls12381.X]. rewrite skipn_32_Bytes, truncation_low_low_bits.
  assert (Hmod : (OS2IP b mod 2 ^ 381) mod 2 ^ 128 = OS2IP b mod 2 ^ 128).
  { change (2 ^ 381) with (2 ^ 128 * 2 ^ 253). rewrite Z.rem_mul_r by lia.
    rewrite (Z.mul_comm (2 ^ 128)), Z.mod_add by lia. apply Z.mod_mod. lia. }
  rewrite Hmod.
  rewrite <- (firstn_skipn 32 b) at 1. rewrite OS2IP_app_gen, length_skipn, Hlen.
  change (256 ^ Z.of_nat (48 - 32)) with (2 ^ 128). rewrite Z.add_comm, Z.mod_add by lia.
  change (2 ^ 128) with (256 ^ Z.of_nat 16). rewrite be_bytes_mod.
  pose proof (be_bytes_OS2IP (skipn 32 b) (Forall_drop _ _ _ Hb)) as Hbe.
  rewrite length_skipn, Hlen in Hbe. exact Hbe.
Qed.


(* ===================================================================== *)
(** ** The properties *)
(* ===================================================================== *)

(** [hashToFieldBLS12381Fp2] is [hash_to_field] of RFC 9380 for the
    signing root, with the tag of Ethereum's BLS signatures, [count = 2],
    [m = 2] and [L = 64]: it never returns an error, and its two elements
    of Fp2 have for coordinates the four 64-byte blocks of the 256 uniform
    bytes of [expand_message_xmd], in order, each reduced modulo [p]. *)
Theorem hashToFieldBLS12381Fp2_rfc9380 (signingRoot : list Z) :
  exists uniform_bytes,
    RFC9380.expand_message_xmd signingRoot dstBytes 256 = Some uniform_bytes
    /\ length uniform_bytes = 256%nat
    /\ hashToFieldBLS12381Fp2 signingRoot
       = Ok [ sw_bls12381.mkE2 (hash_to_field_element uniform_bytes 0)
                               (hash_to_field_element uniform_bytes 1);
              sw_bls12381.mkE2 (hash_to_field_element uniform_bytes 2)
                               (hash_to_field_element uniform_bytes 3) ].
Proof.
  destruct (expandMessageXMD_SHA256_256 signingRoot) as (Hcode & Hrfc & Hlen).
  cbv zeta in Hcode, Hrfc, Hlen.
  set (uniform := concat _) in *.
  exists uniform. split; [exact Hrfc|]. split; [exact Hlen|].
  unfold hashToFieldBLS12381Fp2. cbv zeta.
  change (Z.of_nat (2 * 2 * 64)) with 256. rewrite Hcode.
  unfold wrap. cbn [mbind result_bind rbind]. rewrite Hlen.
  change (Z.of_nat 256 =? 256) with true. cbn [negb seq map].
  rewrite !bytesToBLS12381FpMod_ValueOf. reflexivity.
Qed.

(** The relayer and the contract keep the same commitment.  When the
    deserializer keeps bytes [32..48) of a key as the low-order bytes of
    the abscissa, the commitment the relayer computes from the 512 keys it
    stored from an update, its public input for the next proof, is the
    value [_pubKeysHash] returns on the serialization of that committee,
    the one [updateSyncCommittee] stores for the new period. *)
Theorem relayer_commitment_matches_contract (B : Backend)
    (pubkeys : list (list Z)) (aggregate_pubkey calldata_after memory_after : list Z)
    (cur keys : list bls12381.G1Affine) :
  (forall b P, Forall is_byte b -> G1_SetBytes b = Ok P ->
               skipn 32 (bls12381.Bytes (bls12381.X P)) = skipn 32 b) ->
  length cur = 512%nat -> length pubkeys = 512%nat ->
  Forall (fun k => length k = 48%nat) pubkeys ->
  Forall (Forall is_byte) pubkeys ->
  Forall is_byte aggregate_pubkey -> Forall is_byte calldata_after ->
  storePubkeys pubkeys cur = Done keys ->
  LightClient._pubKeysHash (LightClient.serialize pubkeys aggregate_pubkey)
    calldata_after memory_after
  = Some (ComputeScPubKeysHash keys).
Proof.
  intros Hdec Hcur Hn Hlen Hbytes Hagg Hca Hstore.
  unfold LightClient.serialize.
  rewrite pubKeysHash_keys by assumption.
  rewrite (stored_keys_commitment pubkeys cur keys Hdec Hcur Hn Hbytes Hstore). reflexivity.
Qed.

Lemma relayer_commitment_matches_contract_witness :
  LightClient._pubKeysHash
    (LightClient.serialize (repeat (repeat 0xab 48) 512) (repeat 0 48)) [] []
  = Some (ComputeScPubKeysHash
            (repeat (bls12381.mkG1 (OS2IP (repeat 0xab 48) mod 2 ^ 381) 0) 512)).
Proof.
  apply (relayer_commitment_matches_contract decodingBackend
           (repeat (repeat 0xab 48) 512) (repeat 0 48) [] []
           (repeat bls12381.infinity 512)).
  - exact decodingBackend_low_bytes.
  - reflexivity.
  - reflexivity.
  - apply Forall_repeat_intro. reflexivity.
  - apply Forall_repeat_intro. apply Forall_repeat_intro. unfold is_byte. lia.
  - apply Forall_repeat_intro. unfold is_byte. lia.
  - constructor.
  - vm_compute. reflexivity.
Defined.



(** The assignment the relayer proves satisfies the commitment check of
    the circuit.  When the relayer holds 512 keys and their commitment, as
    it does in the loop of [Run], every proof [generateProof] returns was
    produced by the prover from an assignment whose keys are the stored
    keys, whose public inputs are the stored commitment and the first 32
    bytes of the root of the update's next committee, and on which
    [verifyScPubKeysHash] succeeds. *)
Theorem generateProof_witness_commitment (B : Backend)
    (r : Relayer) (update : LightClientUpdate) (proofSolidity : list Z) :
  length (currentScPubkeys r) = 512%nat ->
  scPubKeysHash r = ComputeScPubKeysHash (currentScPubkeys r) ->
  generateProof r update = Ok proofSolidity ->
  exists witness fullWitness proof,
    frontend_NewWitness witness = Ok fullWitness
    /\ groth16_Prove (ccs r) (pk r) fullWitness = Ok proof
    /\ MarshalSolidity proof = Some proofSolidity
    /\ ScPubKeys witness = map sw_bls12381.NewG1Affine (currentScPubkeys r)
    /\ ScPubKeysHash witness = scPubKeysHash r
    /\ NextScRoot witness
       = firstn 32 (SyncCommittee_HashTreeRoot (NextSyncCommittee_Pubkeys update)
                                               (NextSyncCommittee_AggregatePubkey update))
    /\ verifyScPubKeysHash witness = Some tt.
Proof.
  intros Hlen Hhash. unfold generateProof. cbv zeta.
  destruct (G2_SetBytes _) as [signature|e]; [|discriminate].
  set (witness := assignNextSyncCommitteeToWitness update _).
  destruct (frontend_NewWitness witness) as [fullWitness|e] eqn:Hnew; [|discriminate].
  destruct (groth16_Prove (ccs r) (pk r) fullWitness) as [proof|e] eqn:Hprove; [|discriminate].
  destruct (MarshalSolidity proof) as [p|] eqn:Hmarshal; [|discriminate].
  intros Hok. assert (p = proofSolidity) by congruence. subst p.
  assert (Hkeys : ScPubKeys witness = map sw_bls12381.NewG1Affine (currentScPubkeys r)).
  { cbn. rewrite firstn_all2 by lia. reflexivity. }
  assert (Hpub : ScPubKeysHash witness = scPubKeysHash r).
  { cbn. rewrite firstn_all2; [reflexivity|].
    rewrite Hhash. unfold ComputeScPubKeysHash. rewrite sha256_length. lia. }
  exists witness, fullWitness, proof.
  repeat (split; [assumption || reflexivity|]).
  unfold verifyScPubKeysHash. rewrite Hkeys, Hpub.
  rewrite (circuit_hasher_fold (currentScPubkeys r) 512) by lia.
  cbn [mbind option_bind]. rewrite <- Hlen, firstn_all.
  fold (commitment truncation_low (currentScPubkeys r)).
  rewrite <- ComputeScPubKeysHash_commitment, <- Hhash.
  apply assertBytes32Equal_Some; try reflexivity;
    rewrite Hhash; unfold ComputeScPubKeysHash; apply sha256_length.
Qed.

Lemma generateProof_witness_commitment_witness :
  exists witness fullWitness proof,
    @frontend_NewWitness sampleBackend witness = Ok fullWitness
    /\ @groth16_Prove sampleBackend None None fullWitness = Ok proof
    /\ @MarshalSolidity sampleBackend proof = Some (repeat 0 388)
    /\ ScPubKeys witness = map sw_bls12381.NewG1Affine sampleKeys
    /\ ScPubKeysHash witness = ComputeScPubKeysHash sampleKeys
    /\ NextScRoot witness
       = firstn 32 (@SyncCommittee_HashTreeRoot sampleBackend
                      (NextSyncCommittee_Pubkeys sampleUpdate)
                      (NextSyncCommittee_AggregatePubkey sampleUpdate))
    /\ verifyScPubKeysHash witness = Some tt.
Proof.
  apply (generateProof_witness_commitment sampleBackend
           (mkRelayer sampleConfig None None (ComputeScPubKeysHash sampleKeys) sampleKeys)
           sampleUpdate (repeat 0 388)).
  - reflexivity.
  - reflexivity.
  - reflexivity.
Defined.
